(** * NitroCore live-link: handshake and telemetry validation

    A shallow embedding of the per-connection protocol engine of
    [server/routes/api/live.ws.ts], the envelope codec of
    [server/utils/useLiveLinkCrypto.ts], the keyring builder
    ([useLiveLinkKeys]) and the session store ([useLiveLinkSessions]).

    JavaScript values are modelled as the code has them:
    - a JS string is its sequence of UTF-16 code units ([list Z]);
    - a JS number is an IEEE-754 binary64 value ([PrimFloat.float]);
    - a [Buffer] is its sequence of bytes ([list Z], each in 0..255);
    - a [Map] is an association list in insertion order;
    - the session store (a global [Map<string, LiveLinkSession>]) is a
      [gmap] keyed by the peer id.
    The Node runtime (AES, base64, [JSON.parse], [Number]) is an interface
    the protocol code is parametrised by. *)

From Stdlib Require Import ZArith Floats Uint63 List Bool Lia.
From Stdlib Require Import String Ascii.
From stdpp Require Import base option list gmap.
Import ListNotations.

Local Open Scope Z_scope.

(** ** JavaScript strings and buffers *)

Module Js.

(** UTF-16 code units, 0 .. 0xFFFF. *)
Definition jsstring : Type := list Z.

(** Buffers: bytes 0 .. 255. *)
Definition Buffer : Type := list Z.

(** An ASCII literal as a JS string. *)
Definition lit (s : String.string) : jsstring :=
  List.map (fun a => Z.of_nat (nat_of_ascii a)) (list_ascii_of_string s).

Definition str_eqb (a b : jsstring) : bool := bool_decide (a = b).

(** Truthiness of a string: [!s] is true exactly for the empty string. *)
Definition truthy_str (s : jsstring) : bool :=
  match s with [] => false | _ :: _ => true end.

Definition is_high_surrogate (c : Z) : bool := (0xD800 <=? c) && (c <=? 0xDBFF).
Definition is_low_surrogate (c : Z) : bool := (0xDC00 <=? c) && (c <=? 0xDFFF).

(** U+FFFD in UTF-8, what Node writes for an unpaired surrogate. *)
Definition replacement : Buffer := [0xEF; 0xBF; 0xBD].

Definition utf8_2 (c : Z) : Buffer :=
  [Z.lor 0xC0 (Z.shiftr c 6); Z.lor 0x80 (Z.land c 0x3F)].

Definition utf8_3 (c : Z) : Buffer :=
  [Z.lor 0xE0 (Z.shiftr c 12);
   Z.lor 0x80 (Z.land (Z.shiftr c 6) 0x3F);
   Z.lor 0x80 (Z.land c 0x3F)].

Definition utf8_4 (cp : Z) : Buffer :=
  [Z.lor 0xF0 (Z.shiftr cp 18);
   Z.lor 0x80 (Z.land (Z.shiftr cp 12) 0x3F);
   Z.lor 0x80 (Z.land (Z.shiftr cp 6) 0x3F);
   Z.lor 0x80 (Z.land cp 0x3F)].

Definition code_point (hi lo : Z) : Z :=
  0x10000 + Z.shiftl (hi - 0xD800) 10 + (lo - 0xDC00).

(** [Buffer.from(s)]: the UTF-8 encoding of a JS string. *)
Fixpoint buffer_from_utf8 (s : jsstring) : Buffer :=
  match s with
  | [] => []
  | c :: rest =>
      if c <? 0x80 then c :: buffer_from_utf8 rest
      else if c <? 0x800 then utf8_2 c ++ buffer_from_utf8 rest
      else if is_high_surrogate c then
        match rest with
        | d :: rest' =>
            if is_low_surrogate d
            then utf8_4 (code_point c d) ++ buffer_from_utf8 rest'
            else replacement ++ buffer_from_utf8 rest
        | [] => replacement
        end
      else if is_low_surrogate c then replacement ++ buffer_from_utf8 rest
      else utf8_3 c ++ buffer_from_utf8 rest
  end.

Definition byteLength (b : Buffer) : nat := length b.

(** [crypto.timingSafeEqual] on two buffers of the same length: the
    differences of all byte pairs are accumulated, and the accumulator is
    tested once at the end. *)
Fixpoint xor_acc (a b : Buffer) (acc : Z) : Z :=
  match a, b with
  | x :: a', y :: b' => xor_acc a' b' (Z.lor acc (Z.lxor x y))
  | _, _ => acc
  end.

Definition timingSafeEqual (a b : Buffer) : bool := xor_acc a b 0 =? 0.

(** ASCII lower-casing of a code unit; [String.prototype.toLowerCase]
    restricted to the letters it is used to find ("gcm"): no code unit
    outside A-Z lower-cases to one of g, c, m. *)
Definition lower (c : Z) : Z :=
  if (0x41 <=? c) && (c <=? 0x5A) then c + 0x20 else c.

Definition toLowerCase (s : jsstring) : jsstring := List.map lower s.

Fixpoint starts_with (p s : jsstring) : bool :=
  match p, s with
  | [], _ => true
  | x :: p', y :: s' => (x =? y) && starts_with p' s'
  | _ :: _, [] => false
  end.

(** [s.includes(p)]. *)
Fixpoint includes (s p : jsstring) : bool :=
  starts_with p s ||
  match s with
  | [] => false
  | _ :: s' => includes s' p
  end.

(** WhiteSpace and LineTerminator code units, as [String.prototype.trim]
    strips them. *)
Definition is_space (c : Z) : bool :=
  ((0x09 <=? c) && (c <=? 0x0D)) || (c =? 0x20) || (c =? 0xA0) ||
  (c =? 0x1680) || ((0x2000 <=? c) && (c <=? 0x200A)) ||
  (c =? 0x2028) || (c =? 0x2029) || (c =? 0x202F) || (c =? 0x205F) ||
  (c =? 0x3000) || (c =? 0xFEFF).

Fixpoint trim_start (s : jsstring) : jsstring :=
  match s with
  | c :: s' => if is_space c then trim_start s' else s
  | [] => []
  end.

Definition trim (s : jsstring) : jsstring :=
  rev (trim_start (rev (trim_start s))).

(** A regular-expression character class tested anywhere in the string. *)
Definition test_any (cls : Z -> bool) (s : jsstring) : bool := existsb cls s.

Definition hex_digit (c : Z) : option Z :=
  if (0x30 <=? c) && (c <=? 0x39) then Some (c - 0x30)
  else if (0x61 <=? c) && (c <=? 0x66) then Some (c - 0x61 + 10)
  else if (0x41 <=? c) && (c <=? 0x46) then Some (c - 0x41 + 10)
  else None.

(** [Buffer.from(s, "hex")]: decodes pairs of hex digits and stops at the
    first pair that is not one. *)
Fixpoint buffer_from_hex (s : jsstring) : Buffer :=
  match s with
  | h :: l :: rest =>
      match hex_digit h, hex_digit l with
      | Some a, Some b => (16 * a + b) :: buffer_from_hex rest
      | _, _ => []
      end
  | _ => []
  end.

End Js.

Export Js.

(** ** JavaScript numbers *)

Module Num.

Local Open Scope float_scope.

(** [Number.isFinite]. *)
Definition isFinite (x : float) : bool := is_finite x.

(** [Number.isInteger]: finite with no fractional bits. *)
Definition isInteger (x : float) : bool :=
  match Prim2SF x with
  | S754_zero _ => true
  | S754_finite _ m e =>
      if (0 <=? e)%Z then true
      else (Z.land (Zpos m) (Z.ones (- e)) =? 0)%Z
  | _ => false
  end.

(** An array length or byte count (below 2^63) as a JS number. *)
Definition of_nat (n : nat) : float :=
  PrimFloat.of_uint63 (Uint63.of_Z (Z.of_nat n)).

(** NaN and finiteness read off the IEEE-754 datum. *)
Definition sf_nan (f : spec_float) : bool :=
  match f with S754_nan => true | _ => false end.

Definition sf_finite (f : spec_float) : bool :=
  match f with S754_zero _ | S754_finite _ _ _ => true | _ => false end.

(** The IEEE-754 datum of an integer, rounded to nearest even. *)
Definition sf_of_Z (n : Z) : spec_float := binary_normalize prec emax n 0 false.

(** The number of binary digits of a positive integer. *)
Definition digits (z : Z) : Z := (Z.log2 z + 1)%Z.

(** A shift record with no bit shifted out. *)
Definition exact_record (z : Z) : shr_record :=
  {| shr_m := z; shr_r := false; shr_s := false |}.

(** [ToUint8], what a number becomes when it is stored as a byte of a
    [Buffer]: 0 when it is not finite, else its integer part modulo 256. *)
Definition to_uint8 (x : float) : Z :=
  match Prim2SF x with
  | S754_finite s m e =>
      let a := if (0 <=? e)%Z then (Zpos m * 2 ^ e)%Z else (Zpos m / 2 ^ (- e))%Z in
      ((if s then - a else a) mod 256)%Z
  | _ => 0%Z
  end.

(** [a > b], [a >= b], [a !== b] on numbers. *)
Definition gt (a b : float) : bool := b <? a.
Definition ge (a b : float) : bool := b <=? a.
Definition neq (a b : float) : bool := negb (a =? b).

End Num.

(** ** JSON values, as [JSON.parse] and [message.json()] produce them *)

#[warnings="-register-all"]
Inductive JSON : Type :=
| JNull
| JBool (b : bool)
| JNum (n : float)
| JStr (s : jsstring)
| JArr (items : list JSON)
| JObj (fields : list (jsstring * JSON)).

(** Own-property lookup in an object's field list (keys are unique in a
    parsed object; the list is in property order). *)
Fixpoint get_field (k : jsstring) (fields : list (jsstring * JSON)) : option JSON :=
  match fields with
  | [] => None
  | (k', v) :: rest => if str_eqb k k' then Some v else get_field k rest
  end.

(** [v.k] for a value [v] with [typeof v === "object"]: [None] is
    [undefined]. Arrays have none of the names the handlers read. *)
Definition prop (k : jsstring) (v : JSON) : option JSON :=
  match v with
  | JObj fields => get_field k fields
  | _ => None
  end.

(** [v && typeof v === "object"]. *)
Definition is_object_like (v : JSON) : bool :=
  match v with
  | JArr _ | JObj _ => true
  | _ => false
  end.

(** [String(v)] as far as a test for 64 hex digits can tell: [Some s] when
    the text of [v] is [s], [None] when the text of [v] is not 64 hex digits
    whatever else it is.  A string is its own text.  The text of an array is
    the texts of its elements joined by commas, so only an array of one
    element has a text without a comma, and then it is the text of that
    element.  The texts of a number (at most 25 characters), of a boolean,
    of [null] and of an object are never 64 hex digits, and in an array
    [null] has the empty text. *)
Fixpoint hex_candidate (v : JSON) : option jsstring :=
  match v with
  | JStr s => Some s
  | JArr [e] => hex_candidate e
  | _ => None
  end.

(** ** Results of fallible code: [Err] is a thrown exception *)

Inductive Result (E A : Type) : Type :=
| Ok (a : A)
| Err (e : E).
Arguments Ok {E A} a.
Arguments Err {E A} e.

Definition is_ok {E A} (r : Result E A) : bool :=
  match r with Ok _ => true | Err _ => false end.

(** ** Zod schemas *)

Module Zod.

(** [z.string().min(1)]. *)
Definition string_min1 (v : JSON) : option jsstring :=
  match v with
  | JStr s => if truthy_str s then Some s else None
  | _ => None
  end.

(** [z.string()]. *)
Definition string_any (v : JSON) : option jsstring :=
  match v with
  | JStr s => Some s
  | _ => None
  end.

(** [schema.optional()] applied to a property that may be absent. *)
Definition optional {A} (schema : JSON -> option A) (p : option JSON)
  : option (option A) :=
  match p with
  | None => Some None
  | Some v => match schema v with Some a => Some (Some a) | None => None end
  end.

(** A required property. *)
Definition required {A} (schema : JSON -> option A) (p : option JSON) : option A :=
  match p with
  | None => None
  | Some v => schema v
  end.

(** [z.literal(s)]. *)
Definition literal (s : jsstring) (v : JSON) : option unit :=
  match v with
  | JStr s' => if str_eqb s' s then Some tt else None
  | _ => None
  end.

(** [z.number()]: a number that is not NaN. *)
Definition number (v : JSON) : option float :=
  match v with
  | JNum n => if is_nan n then None else Some n
  | _ => None
  end.

(** [z.number().finite()]. *)
Definition number_finite (v : JSON) : option float :=
  match number v with
  | Some n => if Num.isFinite n then Some n else None
  | None => None
  end.

(** [z.number().int().nonnegative()]. *)
Definition number_int_nonnegative (v : JSON) : option float :=
  match number v with
  | Some n => if Num.isInteger n && Num.ge n 0 then Some n else None
  | None => None
  end.

(** [z.array(z.unknown())]. *)
Definition array_unknown (v : JSON) : option (list JSON) :=
  match v with
  | JArr items => Some items
  | _ => None
  end.

End Zod.

(** ** The Node runtime the protocol code calls into *)

Record Runtime : Type := {
  (** [Buffer.from(s, "base64url")] ([true]) and [Buffer.from(s, "base64")]. *)
  buffer_from_base64 : bool -> jsstring -> Buffer;
  (** [createDecipheriv("aes-256-gcm", key, iv)], [setAuthTag(tag)],
      [update(ciphertext)], [final()]; [None] when any of them throws. *)
  aes256gcm_decrypt : Buffer -> Buffer -> Buffer -> Buffer -> option Buffer;
  (** [createDecipheriv("aes-256-cbc", key, iv)], [update], [final]. *)
  aes256cbc_decrypt : Buffer -> Buffer -> Buffer -> option Buffer;
  (** [buf.toString("utf8")]. *)
  buffer_to_utf8 : Buffer -> jsstring;
  (** [JSON.parse]; [None] is a thrown [SyntaxError]. *)
  JSON_parse : jsstring -> option JSON;
  (** [Number(s)]. *)
  Number_of_string : jsstring -> float;
}.

(** What the handlers write to the log. *)
Inductive KeyError : Type :=
| InvalidKeyLength   (* "Invalid key length (expected 32 bytes)" *)
| KeyNotAString.     (* the TypeError of calling [trim] on a non-string *)

Inductive LogMsg : Type :=
| LogInvalidHashKey (version : jsstring) (e : KeyError)
| LogNoKeysConfigured
| LogWsError (peer_id : jsstring) (message : jsstring).

(** ** Envelope codec: [useLiveLinkCrypto] *)

Module Crypto.

Record LiveLinkAuthEnvelope : Type := {
  iv : jsstring;
  data : option jsstring;
  ciphertext : option jsstring;
  tag : option jsstring;
  alg : option jsstring;
}.

Record LiveLinkAuthPayload : Type := {
  nonce : jsstring;
}.

(** [AuthEnvelopeSchema.parse]: [None] is a thrown [ZodError].  The schema
    is [passthrough], so extra properties are kept and never read. *)
Definition AuthEnvelopeSchema (message : JSON) : option LiveLinkAuthEnvelope :=
  match message with
  | JObj fields =>
      match Zod.required Zod.string_min1 (get_field (lit "iv") fields),
            Zod.optional Zod.string_min1 (get_field (lit "data") fields),
            Zod.optional Zod.string_min1 (get_field (lit "ciphertext") fields),
            Zod.optional Zod.string_min1 (get_field (lit "tag") fields),
            Zod.optional Zod.string_any (get_field (lit "alg") fields) with
      | Some i, Some d, Some c, Some t, Some a =>
          Some {| iv := i; data := d; ciphertext := c; tag := t; alg := a |}
      | _, _, _, _, _ => None
      end
  | _ => None
  end.

(** [LiveLinkAuthPayloadSchema.parse]. *)
Definition LiveLinkAuthPayloadSchema (v : JSON) : option LiveLinkAuthPayload :=
  match v with
  | JObj fields =>
      match Zod.required Zod.string_min1 (get_field (lit "nonce") fields) with
      | Some n => Some {| nonce := n |}
      | None => None
      end
  | _ => None
  end.

Inductive DecryptError : Type :=
| MissingCiphertext      (* "Missing ciphertext (expected 'data' or 'ciphertext')" *)
| InvalidGcmTagLength    (* "Invalid GCM tag length (expected 16 bytes)" *)
| InvalidGcmIvLength     (* "Invalid GCM IV length (expected 12-32 bytes)" *)
| InvalidCbcIvLength     (* "Invalid CBC IV length (expected 16 bytes)" *)
| CipherFailure.         (* whatever the decipher throws *)

Definition is_dash_or_underscore (c : Z) : bool := (c =? 0x2D) || (c =? 0x5F).
Definition is_plus_or_slash (c : Z) : bool := (c =? 0x2B) || (c =? 0x2F).

Section WithRuntime.

Context (rt : Runtime).

Definition decodeBase64Like (value : jsstring) : Buffer :=
  let trimmed := trim value in
  let isBase64Url :=
    test_any is_dash_or_underscore trimmed && negb (test_any is_plus_or_slash trimmed) in
  buffer_from_base64 rt isBase64Url trimmed.

Definition decryptAes256Gcm (key iv ciphertext tag : Buffer) : option Buffer :=
  aes256gcm_decrypt rt key iv ciphertext tag.

Definition decryptAes256Cbc (key iv ciphertext : Buffer) : option Buffer :=
  aes256cbc_decrypt rt key iv ciphertext.

Definition parseAuthEnvelope (message : JSON) : option LiveLinkAuthEnvelope :=
  AuthEnvelopeSchema message.

(** [a ?? b] on optional strings. *)
Definition nullish_or (a b : option jsstring) : option jsstring :=
  match a with
  | Some _ => a
  | None => b
  end.

Definition decryptAuthEnvelope (envelope : LiveLinkAuthEnvelope) (key : Buffer)
  : Result DecryptError jsstring :=
  match nullish_or (data envelope) (ciphertext envelope) with
  | None => Err MissingCiphertext
  | Some ciphertextBase64 =>
      if negb (truthy_str ciphertextBase64) then Err MissingCiphertext else
      let iv_ := decodeBase64Like (iv envelope) in
      let ciphertext_ := decodeBase64Like ciphertextBase64 in
      let alg_ := toLowerCase (match alg envelope with Some a => a | None => [] end) in
      let has_tag := match tag envelope with Some t => truthy_str t | None => false end in
      let wantsGcm := has_tag || includes alg_ (lit "gcm") in
      if wantsGcm then
        let tag_ :=
          match tag envelope with
          | Some t => if truthy_str t then decodeBase64Like t else []
          | None => []
          end in
        if negb (byteLength tag_ =? 16)%nat then Err InvalidGcmTagLength
        else if (byteLength iv_ <? 12)%nat || (32 <? byteLength iv_)%nat
        then Err InvalidGcmIvLength
        else match decryptAes256Gcm key iv_ ciphertext_ tag_ with
             | Some plain => Ok (buffer_to_utf8 rt plain)
             | None => Err CipherFailure
             end
      else
        if negb (byteLength iv_ =? 16)%nat then Err InvalidCbcIvLength
        else match decryptAes256Cbc key iv_ ciphertext_ with
             | Some plain => Ok (buffer_to_utf8 rt plain)
             | None => Err CipherFailure
             end
  end.

End WithRuntime.

End Crypto.

(** ** Keyring builder: [useLiveLinkKeys] *)

Module Keys.

(** A [Map] with string keys, in insertion order. *)
Definition StrMap (V : Type) : Type := list (jsstring * V).

(** [m.set(k, v)]: an existing key keeps its position, a new one is added
    at the end. *)
Fixpoint map_set {V} (k : jsstring) (v : V) (m : StrMap V) : StrMap V :=
  match m with
  | [] => [(k, v)]
  | (k', v') :: rest =>
      if str_eqb k k' then (k, v) :: rest else (k', v') :: map_set k v rest
  end.

(** [new Map(entries)]. *)
Definition map_of_entries {V} (entries : list (jsstring * V)) : StrMap V :=
  fold_left (fun m kv => map_set (fst kv) (snd kv) m) entries [].

(** The static map; its values are strings. *)
Definition LIVE_LINK_HASH_KEYS : StrMap JSON := [].

Record LiveLinkKeyringEntry : Type := {
  version : jsstring;
  key : Buffer;
}.

(** [/^[0-9a-f]{64}$/i.test(value)]. *)
Definition isHexSha256 (value : jsstring) : bool :=
  (length value =? 64)%nat && forallb (fun c => bool_decide (is_Some (hex_digit c))) value.

Inductive EnvError : Type :=
| EnvSyntaxError    (* [JSON.parse] threw *)
| EnvNotAnObject.   (* "LIVE_LINK_HASH_KEYS_JSON must be a JSON object" *)

Section WithRuntime.

Context (rt : Runtime).

(** [parseKey].  The environment map is typed [Record<string, string>] by a
    cast only, so a value may be any JSON value.  The regular expression
    tests the text of the value: an array that holds 64 hex digits (alone,
    or in arrays of one element) passes it, and [Buffer.from(array, "hex")]
    stores each element of an array as a byte, whatever the encoding: one
    element, one byte, the [Number] of its text.  On every other value that
    is not a string, [trim] is not a function. *)
Definition parseKey (value : JSON) : Result KeyError Buffer :=
  match value with
  | JStr s =>
      if isHexSha256 s then Ok (buffer_from_hex s)
      else
        let decoded := Crypto.decodeBase64Like rt s in
        if negb (byteLength decoded =? 32)%nat then Err InvalidKeyLength
        else Ok decoded
  | JArr _ =>
      match hex_candidate value with
      | Some s =>
          if isHexSha256 s then Ok [Num.to_uint8 (Number_of_string rt s)]
          else Err KeyNotAString
      | None => Err KeyNotAString
      end
  | _ => Err KeyNotAString
  end.

(** [loadFromEnv], from the value of [process.env.LIVE_LINK_HASH_KEYS_JSON]. *)
Definition loadFromEnv (raw : option jsstring) : Result EnvError (StrMap JSON) :=
  match raw with
  | None => Ok []
  | Some r =>
      if negb (truthy_str r) then Ok [] else
      match JSON_parse rt r with
      | None => Err EnvSyntaxError
      | Some (JObj fields) => Ok (map_of_entries fields)
      | Some _ => Err EnvNotAnObject
      end
  end.

(** The first loop of [buildKeyring]: the static map, then every
    environment entry [set] into it. *)
Definition merge (static env : StrMap JSON) : StrMap JSON :=
  fold_left (fun merged kv => map_set (fst kv) (snd kv) merged) env static.

(** The second loop: each entry is parsed; a failure is logged and the
    loop goes on. *)
Fixpoint collect (merged : StrMap JSON)
  : list LiveLinkKeyringEntry * list LogMsg :=
  match merged with
  | [] => ([], [])
  | (v, k) :: rest =>
      let '(keyring, logs) := collect rest in
      match parseKey k with
      | Ok parsedKey =>
          if negb (byteLength parsedKey =? 32)%nat
          then (keyring, LogInvalidHashKey v InvalidKeyLength :: logs)
          else ({| version := v; key := parsedKey |} :: keyring, logs)
      | Err e => (keyring, LogInvalidHashKey v e :: logs)
      end
  end.

Definition buildKeyring_from (static : StrMap JSON) (raw : option jsstring)
  : Result EnvError (list LiveLinkKeyringEntry * list LogMsg) :=
  match loadFromEnv raw with
  | Err e => Err e
  | Ok env => Ok (collect (merge static env))
  end.

Definition buildKeyring (raw : option jsstring)
  : Result EnvError (list LiveLinkKeyringEntry * list LogMsg) :=
  buildKeyring_from LIVE_LINK_HASH_KEYS raw.

End WithRuntime.

End Keys.

(** ** Session store: [useLiveLinkSessions] *)

Module Sessions.

(** The handle [setTimeout] returns. *)
Definition Timer : Type := Z.

Inductive AuthState : Type := challenging | authorized.

Record Auth : Type := {
  state : AuthState;
  nonce : jsstring;
  version : option jsstring;
  handshakeTimer : option Timer;
}.

Record Coord : Type := { x : float; y : float }.

Record Telemetry : Type := {
  expectedSeq : float;
  lastAt : option float;
  lastPct : option float;
  lastCoord : option Coord;
}.

Record Peer : Type := {
  peer_id : jsstring;
  peer_remoteAddress : option jsstring;
}.

Record LiveLinkSession : Type := {
  id : jsstring;
  remoteAddress : option jsstring;
  createdAt : float;
  auth : Auth;
  telemetry : Telemetry;
  peer : Peer;
}.

(** [peer.context.liveLink]. *)
Record LiveLinkContext : Type := {
  ctx_nonce : jsstring;
  ctx_authorized : bool;
}.

(** The process-wide state the handlers share: the session map behind
    [useLiveLinkSessions()] and the peers' contexts. *)
Record World : Type := {
  sessions : gmap jsstring LiveLinkSession;
  contexts : gmap jsstring LiveLinkContext;
}.

Definition empty_world : World := {| sessions := ∅; contexts := ∅ |}.

Definition with_auth (a : Auth) (s : LiveLinkSession) : LiveLinkSession :=
  {| id := id s; remoteAddress := remoteAddress s; createdAt := createdAt s;
     auth := a; telemetry := telemetry s; peer := peer s |}.

Definition with_telemetry (t : Telemetry) (s : LiveLinkSession) : LiveLinkSession :=
  {| id := id s; remoteAddress := remoteAddress s; createdAt := createdAt s;
     auth := auth s; telemetry := t; peer := peer s |}.

End Sessions.

(** ** The WebSocket handler: [live.ws.ts] *)

Module Live.

Import Sessions.

Record Config : Type := {
  handshakeTimeoutMs : float;
  maxMessageBytes : float;
  maxFramesPerChunk : float;
  maxPctPerSecond : float;
  maxPctBurst : float;
  maxAbsCoord : float;
  maxCoordDelta : float;
}.

(** What a handler does to the outside: messages sent, the connection
    closed, timers, log lines; in the order of the calls. *)
Inductive Event : Type :=
| Send (to : jsstring) (payload : JSON)
| Close (who : jsstring) (code : Z) (reason : jsstring)
| SetTimeout (t : Timer) (ms : float)
| ClearTimeout (t : Timer)
| Log (m : LogMsg).

(** An inbound frame: [message.uint8Array().byteLength] and the outcome of
    [message.json()] ([None] when it throws). *)
Record Message : Type := {
  msg_byteLength : nat;
  msg_json : option JSON;
}.

(** [peer.send(JSON.stringify(payload))]; the payload is recorded before
    it is serialised. *)
Definition sendJson (p : Peer) (payload : JSON) : list Event :=
  [Send (peer_id p) payload].

(** [peer.close(1008, reason)], with [peer.terminate()] when it throws:
    either way the connection ends, recorded as one [Close]. *)
Definition closeUnauthorized (p : Peer) (reason : String.string) : list Event :=
  [Close (peer_id p) 1008 (lit reason)].

Definition cmd_msg (c : String.string) (rest : list (jsstring * JSON)) : JSON :=
  JObj ((lit "cmd", JStr (lit c)) :: rest).

Definition killAndClose (p : Peer) (reason : String.string) : list Event :=
  sendJson p (cmd_msg "kill" []) ++ closeUnauthorized p reason.

Record TelemetryMessage : Type := {
  seq : float;
  current_pct : float;
  frames : list JSON;
}.

(** [TelemetrySchema.parse]. *)
Definition TelemetrySchema (v : JSON) : option TelemetryMessage :=
  match v with
  | JObj fields =>
      match Zod.optional (Zod.literal (lit "telemetry")) (get_field (lit "cmd") fields),
            Zod.required Zod.number_int_nonnegative (get_field (lit "seq") fields),
            Zod.required Zod.number_finite (get_field (lit "current_pct") fields),
            Zod.required Zod.array_unknown (get_field (lit "frames") fields) with
      | Some _, Some s, Some p, Some f =>
          Some {| seq := s; current_pct := p; frames := f |}
      | _, _, _, _ => None
      end
  | _ => None
  end.

Definition timingSafeEqualString (a b : jsstring) : bool :=
  let aBuf := buffer_from_utf8 a in
  let bBuf := buffer_from_utf8 b in
  if negb (byteLength aBuf =? byteLength bBuf)%nat then false
  else timingSafeEqual aBuf bBuf.

Section WithRuntime.

Context (rt : Runtime).

Definition readNumberEnv (raw : option jsstring) (fallback : float) : float :=
  match raw with
  | None => fallback
  | Some r =>
      if negb (truthy_str r) then fallback
      else
        let value := Number_of_string rt r in
        if Num.isFinite value then value else fallback
  end.

(** [LIVE_LINK_CONFIG], from [process.env]. *)
Definition LIVE_LINK_CONFIG (env : String.string -> option jsstring) : Config :=
  {| handshakeTimeoutMs := readNumberEnv (env "LIVE_LINK_HANDSHAKE_TIMEOUT_MS"%string) 5000;
     maxMessageBytes := readNumberEnv (env "LIVE_LINK_MAX_MESSAGE_BYTES"%string) (256 * 1024);
     maxFramesPerChunk := readNumberEnv (env "LIVE_LINK_MAX_FRAMES_PER_CHUNK"%string) 600;
     maxPctPerSecond := readNumberEnv (env "LIVE_LINK_MAX_PCT_PER_SECOND"%string) 20;
     maxPctBurst := readNumberEnv (env "LIVE_LINK_MAX_PCT_BURST"%string) 5;
     maxAbsCoord := readNumberEnv (env "LIVE_LINK_MAX_ABS_COORD"%string) 10000000;
     maxCoordDelta := readNumberEnv (env "LIVE_LINK_MAX_COORD_DELTA"%string) 20000 |}.

(** The configuration when no variable is set. *)
Definition default_config : Config := LIVE_LINK_CONFIG (fun _ => None).

End WithRuntime.

(** *** Telemetry validation (the [authorized] branch of [message]) *)

Inductive FrameVerdict : Type :=
| FrameSkip                          (* [continue] *)
| FrameKill (reason : String.string) (* [killAndClose(peer, reason); return] *)
| FramePass (c : Coord).             (* [session.telemetry.lastCoord = {x, y}] *)

(** One iteration of the loop over [telemetry.frames]. *)
Definition check_frame (cfg : Config) (lastCoord : option Coord) (frame : JSON)
  : FrameVerdict :=
  if negb (is_object_like frame) then FrameSkip else
  match prop (lit "x") frame, prop (lit "y") frame with
  | Some xv, Some yv =>
      match xv, yv with
      | JNum x, JNum y =>
          if negb (Num.isFinite x) || negb (Num.isFinite y)
          then FrameKill "Invalid coordinates"
          else if Num.gt (PrimFloat.abs x) (maxAbsCoord cfg)
                  || Num.gt (PrimFloat.abs y) (maxAbsCoord cfg)
          then FrameKill "Impossible coordinates"
          else
            match lastCoord with
            | Some lc =>
                let dx := PrimFloat.abs (x - Sessions.x lc)%float in
                let dy := PrimFloat.abs (y - Sessions.y lc)%float in
                if Num.gt dx (maxCoordDelta cfg) || Num.gt dy (maxCoordDelta cfg)
                then FrameKill "Impossible movement"
                else FramePass {| Sessions.x := x; Sessions.y := y |}
            | None => FramePass {| Sessions.x := x; Sessions.y := y |}
            end
      | _, _ => FrameKill "Invalid coordinates"
      end
  | _, _ => FrameSkip
  end.

(** The loop over the frames: the coordinate baseline it leaves in the
    session, and the reason of the kill that ended it, if any. *)
Fixpoint frames_loop (cfg : Config) (lastCoord : option Coord) (fs : list JSON)
  : option Coord * option String.string :=
  match fs with
  | [] => (lastCoord, None)
  | frame :: rest =>
      match check_frame cfg lastCoord frame with
      | FrameSkip => frames_loop cfg lastCoord rest
      | FrameKill reason => (lastCoord, Some reason)
      | FramePass c => frames_loop cfg (Some c) rest
      end
  end.

(** The progress-rate check, entered when both [lastAt] and [lastPct] are
    defined: the reason of the kill, if any. *)
Definition rate_check (cfg : Config) (now lastAt_ lastPct_ pct : float)
  : option String.string :=
  let dtSec := ((now - lastAt_) / 1000)%float in
  if (dtSec <=? 0)%float then Some "Invalid time delta"%string
  else
    let deltaPct := (pct - lastPct_)%float in
    if Num.ge deltaPct 0 then
      let maxAllowed := (maxPctBurst cfg + maxPctPerSecond cfg * dtSec)%float in
      if Num.gt deltaPct maxAllowed then Some "Speedhack (pct jump)"%string
      else None
    else None.

Definition with_expectedSeq (n : float) (t : Telemetry) : Telemetry :=
  {| expectedSeq := n; lastAt := lastAt t; lastPct := lastPct t;
     lastCoord := lastCoord t |}.

Definition with_baseline (at_ pct : float) (t : Telemetry) : Telemetry :=
  {| expectedSeq := expectedSeq t; lastAt := Some at_; lastPct := Some pct;
     lastCoord := lastCoord t |}.

Definition with_lastCoord (c : option Coord) (t : Telemetry) : Telemetry :=
  {| expectedSeq := expectedSeq t; lastAt := lastAt t; lastPct := lastPct t;
     lastCoord := c |}.

(** A parsed telemetry message against the session's telemetry state: the
    state as the handler leaves it, and the reason of the kill, if any.
    The writes are in the order of the source. *)
Definition validate_telemetry (cfg : Config) (now : float)
    (t : Telemetry) (m : TelemetryMessage)
  : Telemetry * option String.string :=
  if Num.neq (seq m) (expectedSeq t) then (t, Some "Sequence mismatch"%string)
  else
    let t1 := with_expectedSeq (expectedSeq t + 1)%float t in
    let rate :=
      match lastAt t1, lastPct t1 with
      | Some lastAt_, Some lastPct_ => rate_check cfg now lastAt_ lastPct_ (current_pct m)
      | _, _ => None
      end in
    match rate with
    | Some reason => (t1, Some reason)
    | None =>
        let t2 := with_baseline now (current_pct m) t1 in
        if Num.gt (Num.of_nat (length (frames m))) (maxFramesPerChunk cfg)
        then (t2, Some "Too many frames"%string)
        else
          let '(c, killed) := frames_loop cfg (lastCoord t2) (frames m) in
          (with_lastCoord c t2, killed)
    end.

(** The telemetry branch on the raw JSON value. *)
Definition handle_telemetry (cfg : Config) (now : float)
    (t : Telemetry) (data : JSON)
  : Telemetry * option String.string :=
  match TelemetrySchema data with
  | None => (t, Some "Bad telemetry"%string)
  | Some m => validate_telemetry cfg now t m
  end.

(** *** Handshake (the branch of [message] before authorization) *)

Inductive TrialOutcome : Type :=
| TrialAuthed (authedVersion : jsstring) (authPayload : Crypto.LiveLinkAuthPayload)
| TrialNonceMismatch
| TrialExhausted.

(** [data && typeof data === "object" && data.cmd === "ping"]. *)
Definition is_ping (data : JSON) : bool :=
  is_object_like data &&
  match prop (lit "cmd") data with
  | Some (JStr c) => str_eqb c (lit "ping")
  | _ => false
  end.

(** [data.payload] when [data] is an object with a [payload] property,
    [data] otherwise. *)
Definition envelopeCandidate (data : JSON) : JSON :=
  if is_object_like data then
    match prop (lit "payload") data with
    | Some payload => payload
    | None => data
    end
  else data.

Section WithRuntime.

Context (rt : Runtime).

(** One turn of the loop over the keyring: decrypt and parse; [None] is
    the [catch] that goes on to the next key. *)
Definition try_key (envelope : Crypto.LiveLinkAuthEnvelope) (key : Buffer)
  : option Crypto.LiveLinkAuthPayload :=
  match Crypto.decryptAuthEnvelope rt envelope key with
  | Ok plaintext =>
      match JSON_parse rt plaintext with
      | Some j => Crypto.LiveLinkAuthPayloadSchema j
      | None => None
      end
  | Err _ => None
  end.

(** The loop over the keyring: its outcome, and the entries whose key was
    tried, in the order they were tried. *)
Fixpoint key_trial (envelope : Crypto.LiveLinkAuthEnvelope) (nonce_ : jsstring)
    (keyring : list Keys.LiveLinkKeyringEntry)
  : TrialOutcome * list Keys.LiveLinkKeyringEntry :=
  match keyring with
  | [] => (TrialExhausted, [])
  | entry :: rest =>
      match try_key envelope (Keys.key entry) with
      | Some parsed =>
          if negb (timingSafeEqualString (Crypto.nonce parsed) nonce_)
          then (TrialNonceMismatch, [entry])
          else (TrialAuthed (Keys.version entry) parsed, [entry])
      | None =>
          let '(outcome, tried) := key_trial envelope nonce_ rest in
          (outcome, entry :: tried)
      end
  end.

Definition authorize (authedVersion : jsstring) (a : Auth) : Auth :=
  {| state := authorized; nonce := nonce a; version := Some authedVersion;
     handshakeTimer := None |}.

Definition clear_timer (a : Auth) : list Event :=
  match handshakeTimer a with
  | Some t => [ClearTimeout t]
  | None => []
  end.

Definition mark_context (c : LiveLinkContext) : LiveLinkContext :=
  {| ctx_nonce := ctx_nonce c; ctx_authorized := true |}.

Definition handshake (keyring : list Keys.LiveLinkKeyringEntry)
    (p : Peer) (session : LiveLinkSession) (data : JSON) (w : World)
  : World * list Event :=
  match Crypto.parseAuthEnvelope (envelopeCandidate data) with
  | None => (w, closeUnauthorized p "Bad auth envelope")
  | Some envelope =>
      match fst (key_trial envelope (nonce (auth session)) keyring) with
      | TrialNonceMismatch => (w, closeUnauthorized p "Nonce mismatch")
      | TrialExhausted => (w, closeUnauthorized p "Unauthorized")
      | TrialAuthed authedVersion _ =>
          if negb (truthy_str authedVersion)
          then (w, closeUnauthorized p "Unauthorized")
          else
            let session' := with_auth (authorize authedVersion (auth session)) session in
            ({| sessions := <[peer_id p := session']> (sessions w);
                contexts := alter mark_context (peer_id p) (contexts w) |},
             clear_timer (auth session)
             ++ sendJson p (cmd_msg "auth_ok" [(lit "version", JStr authedVersion)]))
      end
  end.

(** *** The handlers *)

(** [open(peer)].  [nonce_] is [randomBytes(32).toString("base64url")],
    [now] is [Date.now()], [timer] the handle of the armed deadline. *)
Definition open (cfg : Config) (keyring : list Keys.LiveLinkKeyringEntry)
    (p : Peer) (nonce_ : jsstring) (now : float) (timer : Timer) (w : World)
  : World * list Event :=
  let session :=
    {| id := peer_id p;
       remoteAddress := peer_remoteAddress p;
       createdAt := now;
       auth := {| state := challenging; nonce := nonce_; version := None;
                  handshakeTimer := Some timer |};
       telemetry := {| expectedSeq := 1; lastAt := None; lastPct := None;
                       lastCoord := None |};
       peer := p |} in
  let w' :=
    {| sessions := <[peer_id p := session]> (sessions w);
       contexts := <[peer_id p := {| ctx_nonce := nonce_; ctx_authorized := false |}]>
                     (contexts w) |} in
  let armed := [SetTimeout timer (handshakeTimeoutMs cfg)] in
  if (length keyring =? 0)%nat
  then (w', armed ++ [Log LogNoKeysConfigured]
            ++ closeUnauthorized p "Server misconfigured")
  else (w', armed ++ sendJson p (cmd_msg "auth_challenge" [(lit "nonce", JStr nonce_)])).

(** The deadline armed by [open], on the session it closed over. *)
Definition handshake_timeout (session : LiveLinkSession) : list Event :=
  match state (auth session) with
  | authorized => []
  | challenging => closeUnauthorized (peer session) "Auth timeout"
  end.

(** [message(peer, message)]; [now] is [Date.now()]. *)
Definition message (cfg : Config) (keyring : list Keys.LiveLinkKeyringEntry)
    (p : Peer) (m : Message) (now : float) (w : World)
  : World * list Event :=
  match sessions w !! peer_id p with
  | None => (w, closeUnauthorized p "No session")
  | Some session =>
      if Num.gt (Num.of_nat (msg_byteLength m)) (maxMessageBytes cfg)
      then (w, killAndClose p "Message too large")
      else
        match msg_json m with
        | None => (w, killAndClose p "Invalid JSON")
        | Some data =>
            if is_ping data
            then (w, sendJson p (cmd_msg "pong" [(lit "t", JNum now)]))
            else
              match state (auth session) with
              | challenging => handshake keyring p session data w
              | authorized =>
                  let '(t', killed) := handle_telemetry cfg now (telemetry session) data in
                  let w' :=
                    {| sessions := <[peer_id p := with_telemetry t' session]> (sessions w);
                       contexts := contexts w |} in
                  (w', match killed with
                       | Some reason => killAndClose p reason
                       | None => []
                       end)
              end
        end
  end.

(** [close(peer)]. *)
Definition close (p : Peer) (w : World) : World * list Event :=
  match sessions w !! peer_id p with
  | None => (w, [])
  | Some session =>
      ({| sessions := delete (peer_id p) (sessions w); contexts := contexts w |},
       clear_timer (auth session))
  end.

(** [error(peer, error)]. *)
Definition error (p : Peer) (error_message : jsstring) (w : World)
  : World * list Event :=
  (w, [Log (LogWsError (peer_id p) error_message)]).

End WithRuntime.

End Live.

(** ** A small runtime, on which the handlers run by computation *)

Module Fixture.

Import Sessions Live.

Definition quote : Z := 34.

Fixpoint strip_prefix (p s : jsstring) : option jsstring :=
  match p, s with
  | [], _ => Some s
  | a :: p', b :: s' => if a =? b then strip_prefix p' s' else None
  | _ :: _, [] => None
  end.

(** The text of [{"nonce":"n"}]. *)
Definition nonce_json (n : jsstring) : jsstring :=
  [123; quote] ++ lit "nonce" ++ [quote; 58; quote] ++ n ++ [quote; 125].

(** The characters of a string literal up to its closing quote, and the
    text after the quote; no escapes. *)
Fixpoint read_string (s : jsstring) : option (jsstring * jsstring) :=
  match s with
  | [] => None
  | c :: rest =>
      if c =? quote then Some ([], rest)
      else if c =? 92 then None
      else match read_string rest with
           | Some (body, rest') => Some (c :: body, rest')
           | None => None
           end
  end.

(** The properties ["k":"v",...] of a flat object up to its closing
    brace, which ends the text. *)
Fixpoint read_properties (fuel : nat) (s : jsstring)
  : option (list (jsstring * JSON)) :=
  match fuel with
  | O => None
  | S fuel' =>
      match strip_prefix [quote] s with
      | None => None
      | Some s1 =>
          match read_string s1 with
          | None => None
          | Some (k, s2) =>
              match strip_prefix [58; quote] s2 with
              | None => None
              | Some s3 =>
                  match read_string s3 with
                  | None => None
                  | Some (v, s4) =>
                      match s4 with
                      | [125] => Some [(k, JStr v)]
                      | 44 :: s5 =>
                          match read_properties fuel' s5 with
                          | Some ps => Some ((k, JStr v) :: ps)
                          | None => None
                          end
                      | _ => None
                      end
                  end
              end
          end
      end
  end.

(** A parser of the texts of flat objects with string values, such as
    [nonce_json n]; [None] on any other text. *)
Definition parse_string_object (s : jsstring) : option JSON :=
  match s with
  | 123 :: rest =>
      match read_properties (length rest) rest with
      | Some ps => Some (JObj ps)
      | None => None
      end
  | _ => None
  end.

(** A cipher that accepts a ciphertext when its first byte is the first
    byte of the key, and yields the rest. *)
Definition first_byte_cipher (key ciphertext : Buffer) : option Buffer :=
  match key, ciphertext with
  | k :: _, c :: rest => if k =? c then Some rest else None
  | _, _ => None
  end.

Fixpoint digits_value (s : jsstring) (acc : nat) : option nat :=
  match s with
  | [] => Some acc
  | c :: s' =>
      if (0x30 <=? c) && (c <=? 0x39)
      then digits_value s' (10 * acc + Z.to_nat (c - 0x30))
      else None
  end.

(** [Number] on decimal integers with an optional sign; NaN elsewhere. *)
Definition number_of_decimal (s : jsstring) : float :=
  match s with
  | [] => 0%float
  | 45 :: d :: ds =>
      match digits_value (d :: ds) 0 with
      | Some n => (- Num.of_nat n)%float
      | None => PrimFloat.nan
      end
  | _ =>
      match digits_value s 0 with
      | Some n => Num.of_nat n
      | None => PrimFloat.nan
      end
  end.

Definition runtime : Runtime :=
  {| buffer_from_base64 := fun _ s => s;
     aes256gcm_decrypt := fun key _ ciphertext _ => first_byte_cipher key ciphertext;
     aes256cbc_decrypt := fun key _ ciphertext => first_byte_cipher key ciphertext;
     buffer_to_utf8 := fun b => b;
     JSON_parse := parse_string_object;
     Number_of_string := number_of_decimal |}.

Definition cfg : Config := default_config runtime.

(** The configuration of a deployment that sets
    [LIVE_LINK_MAX_PCT_BURST=-10]. *)
Definition env_negative_burst (name : String.string) : option jsstring :=
  if String.eqb name "LIVE_LINK_MAX_PCT_BURST" then Some (lit "-10") else None.

Definition cfg_negative_burst : Config :=
  LIVE_LINK_CONFIG runtime env_negative_burst.

Definition key_of (b : Z) : Buffer := repeat b 32.

Definition keyring : list Keys.LiveLinkKeyringEntry :=
  [ {| Keys.version := lit "gd-2.206"; Keys.key := key_of 65 |};
    {| Keys.version := lit "gd-2.207"; Keys.key := key_of 66 |} ].

Definition peer1 : Peer := {| peer_id := lit "peer-1"; peer_remoteAddress := None |}.

Definition nonce1 : jsstring := lit "bm9uY2UtMQ".

(** An envelope in block-cipher mode whose ciphertext opens under the key
    starting with [k] to the payload [{"nonce": n}]. *)
Definition envelope_for (k : Z) (n : jsstring) : JSON :=
  JObj [(lit "iv", JStr (lit "0123456789abcdef"));
        (lit "data", JStr (k :: nonce_json n))].

(** The parsed envelope of an answer under the second key to a nonce
    that is not the session's. *)
Definition stale_envelope : Crypto.LiveLinkAuthEnvelope :=
  {| Crypto.iv := lit "0123456789abcdef";
     Crypto.data := Some (66 :: nonce_json (lit "c3RhbGU"));
     Crypto.ciphertext := None; Crypto.tag := None; Crypto.alg := None |}.

Definition frame_of (a b : float) : JSON :=
  JObj [(lit "x", JNum a); (lit "y", JNum b)].

Definition telemetry_of (s pct : float) (fs : list JSON) : JSON :=
  JObj [(lit "seq", JNum s); (lit "current_pct", JNum pct); (lit "frames", JArr fs)].

Definition msg_of (j : JSON) : Message :=
  {| msg_byteLength := 64; msg_json := Some j |}.

(** A keyring with a third entry after the two. *)
Definition keyring3 : list Keys.LiveLinkKeyringEntry :=
  keyring ++ [ {| Keys.version := lit "gd-2.208"; Keys.key := key_of 67 |} ].

(** The session of [peer1] as [open] creates it at time 1000, with the
    deadline timer 7. *)
Definition session_open : LiveLinkSession :=
  {| id := peer_id peer1;
     remoteAddress := None;
     createdAt := 1000;
     auth := {| state := challenging; nonce := nonce1; version := None;
                handshakeTimer := Some 7 |};
     telemetry := {| expectedSeq := 1; lastAt := None; lastPct := None;
                     lastCoord := None |};
     peer := peer1 |}.

(** The same session once authorized under the second key. *)
Definition session_authorized : LiveLinkSession :=
  with_auth (authorize (lit "gd-2.207") (auth session_open)) session_open.

(** The world after [peer1] connected at time 1000. *)
Definition world_open : World :=
  fst (open cfg keyring peer1 nonce1 1000 7 empty_world).

(** ... and answered the challenge under the second key at time 1001. *)
Definition world_authorized : World :=
  fst (message runtime cfg keyring peer1 (msg_of (envelope_for 66 nonce1)) 1001 world_open).

(** A static map with a valid key under the fixture's base64 (32
    characters) and a key that is too short. *)
Definition static_keys : Keys.StrMap JSON :=
  [(lit "gd-2.206", JStr (lit "0123456789abcdef0123456789abcdef"));
   (lit "gd-2.100", JStr (lit "dG9vLXNob3J0"))].

Definition hex_key : jsstring :=
  lit "00112233445566778899aabbccddeeffFFEEDDCCBBAA99887766554433221100".

(** The text of [LIVE_LINK_HASH_KEYS_JSON]: a new key for [gd-2.206], in
    hex, and a new version [gd-2.207]. *)
Definition env_keys_json : jsstring :=
  [123; quote] ++ lit "gd-2.206" ++ [quote; 58; quote] ++ hex_key ++ [quote; 44; quote]
  ++ lit "gd-2.207" ++ [quote; 58; quote] ++ lit "fedcba9876543210-edcba9876543210"
  ++ [quote; 125].

(** The first telemetry message, at time 2000, with a frame beyond the
    absolute bound. *)
Definition telemetry_out_of_bounds : Message :=
  msg_of (telemetry_of 1 10 [frame_of 10000001 0]).

(** The first telemetry message with a second frame 20001 from the first. *)
Definition telemetry_jump : Message :=
  msg_of (telemetry_of 1 10 [frame_of 0 0; frame_of 20001 0]).

(** Three well-formed telemetry messages, one second apart. *)
Definition telemetry_ok (s at_ pct : float) : Message * float :=
  (msg_of (telemetry_of s pct [frame_of 0 0; frame_of 100 50]), at_).

(** The session of [peer1] in a world; [session_open] when there is none. *)
Definition session_in (w : World) : LiveLinkSession :=
  default session_open (sessions w !! peer_id peer1).

(** The messages of [peer1] in turn, each with its arrival time. *)
Fixpoint deliver (ms : list (Message * float)) (w : World) : World * list Event :=
  match ms with
  | [] => (w, [])
  | (m, now) :: rest =>
      let '(w1, evs1) := message runtime cfg keyring peer1 m now w in
      let '(w2, evs2) := deliver rest w1 in
      (w2, evs1 ++ evs2)
  end.

End Fixture.

(** ** Notions the properties are stated with *)

Module Spec.

Import Sessions Live.

(** What it takes for a key to authenticate an envelope against a nonce:
    the envelope decrypts under it, the plaintext parses to the payload
    shape, and the payload's nonce passes the comparison. *)
Definition authenticates (rt : Runtime) (envelope : Crypto.LiveLinkAuthEnvelope)
    (nonce_ : jsstring) (key : Buffer) (payload : Crypto.LiveLinkAuthPayload) : Prop :=
  exists plaintext j,
    Crypto.decryptAuthEnvelope rt envelope key = Ok plaintext /\
    JSON_parse rt plaintext = Some j /\
    Crypto.LiveLinkAuthPayloadSchema j = Some payload /\
    timingSafeEqualString (Crypto.nonce payload) nonce_ = true.

(** A string of ASCII code units, as base64url text is. *)
Definition ascii_string (s : jsstring) : Prop := Forall (fun c => c < 0x80) s.

(** The kill notification was sent to the peer. *)
Definition killed (p : Peer) (evs : list Event) : Prop :=
  Send (peer_id p) (cmd_msg "kill" []) ∈ evs.

(** Every limit of the configuration is a finite number. *)
Definition config_finite (cfg : Config) : Prop :=
  Num.isFinite (handshakeTimeoutMs cfg) = true /\
  Num.isFinite (maxMessageBytes cfg) = true /\
  Num.isFinite (maxFramesPerChunk cfg) = true /\
  Num.isFinite (maxPctPerSecond cfg) = true /\
  Num.isFinite (maxPctBurst cfg) = true /\
  Num.isFinite (maxAbsCoord cfg) = true /\
  Num.isFinite (maxCoordDelta cfg) = true.

(** The coordinate baseline holds finite numbers. *)
Definition coord_finite (lc : option Coord) : Prop :=
  match lc with
  | Some l => Num.isFinite (x l) = true /\ Num.isFinite (y l) = true
  | None => True
  end.

(** A frame's coordinates are plausible: each axis within the absolute
    bound and, when there is a baseline, each axis within the delta bound
    of it. *)
Definition within_bounds (cfg : Config) (lc : option Coord) (xv yv : float) : bool :=
  (PrimFloat.abs xv <=? maxAbsCoord cfg)%float &&
  (PrimFloat.abs yv <=? maxAbsCoord cfg)%float &&
  match lc with
  | Some l =>
      (PrimFloat.abs (xv - x l) <=? maxCoordDelta cfg)%float &&
      (PrimFloat.abs (yv - y l) <=? maxCoordDelta cfg)%float
  | None => true
  end.

(** The message gets as far as the sequence check: the session is
    authorized, the frame is not too large, it is JSON, it is not a ping,
    and it has the telemetry shape [tm]. *)
Definition reaches_sequence_check (cfg : Config) (session : LiveLinkSession)
    (m : Message) (tm : TelemetryMessage) : Prop :=
  state (auth session) = authorized /\
  Num.gt (Num.of_nat (msg_byteLength m)) (maxMessageBytes cfg) = false /\
  exists data,
    msg_json m = Some data /\ is_ping data = false /\
    TelemetrySchema data = Some tm.

(** Shapes of JSON properties. *)
Definition is_nonempty_string (v : JSON) : Prop := exists s, v = JStr s /\ s <> [].

Definition is_string (v : JSON) : Prop := exists s, v = JStr s.

Definition absent_or (P : JSON -> Prop) (o : option JSON) : Prop :=
  match o with
  | None => True
  | Some v => P v
  end.

(** The shape [parseAuthEnvelope] accepts: an object with a non-empty
    string [iv]; [data], [ciphertext] and [tag] each absent or a non-empty
    string; [alg] absent or a string.  Nothing relates [data] and
    [ciphertext]. *)
Definition envelope_shape (v : JSON) : Prop :=
  exists fields,
    v = JObj fields /\
    (exists i, get_field (lit "iv") fields = Some i /\ is_nonempty_string i) /\
    absent_or is_nonempty_string (get_field (lit "data") fields) /\
    absent_or is_nonempty_string (get_field (lit "ciphertext") fields) /\
    absent_or is_nonempty_string (get_field (lit "tag") fields) /\
    absent_or is_string (get_field (lit "alg") fields).

(** An envelope with its [ciphertext] property removed. *)
Definition without_ciphertext (e : Crypto.LiveLinkAuthEnvelope)
  : Crypto.LiveLinkAuthEnvelope :=
  {| Crypto.iv := Crypto.iv e; Crypto.data := Crypto.data e;
     Crypto.ciphertext := None; Crypto.tag := Crypto.tag e;
     Crypto.alg := Crypto.alg e |}.

End Spec.

Export Spec.

(** ** The hooks as the transport calls them *)

Module Hooks.

Import Sessions Live.

(** One call of a hook of the handler, with what the runtime supplies to
    it (the random nonce, the clock, the timer handle). *)
Inductive Call : Type :=
| CallOpen (p : Peer) (nonce_ : jsstring) (now : float) (timer : Timer)
| CallMessage (p : Peer) (m : Message) (now : float)
| CallClose (p : Peer)
| CallError (p : Peer) (error_message : jsstring).

Definition dispatch (rt : Runtime) (cfg : Config)
    (keyring : list Keys.LiveLinkKeyringEntry) (c : Call) (w : World)
  : World * list Event :=
  match c with
  | CallOpen p nonce_ now timer => open cfg keyring p nonce_ now timer w
  | CallMessage p m now => message rt cfg keyring p m now w
  | CallClose p => close p w
  | CallError p e => error p e w
  end.

(** A sequence of calls, one after the other. *)
Fixpoint run (rt : Runtime) (cfg : Config)
    (keyring : list Keys.LiveLinkKeyringEntry) (cs : list Call) (w : World)
  : World * list Event :=
  match cs with
  | [] => (w, [])
  | c :: rest =>
      let '(w1, evs1) := dispatch rt cfg keyring c w in
      let '(w2, evs2) := run rt cfg keyring rest w1 in
      (w2, evs1 ++ evs2)
  end.

(** The call is the close hook of the connection [i]. *)
Definition closes (i : jsstring) (c : Call) : Prop :=
  match c with
  | CallClose q => peer_id q = i
  | _ => False
  end.

(** The event is a message sent to a peer. *)
Definition is_send (e : Event) : Prop :=
  match e with
  | Send _ _ => True
  | _ => False
  end.

End Hooks.

(** ** The keyring, as the specification words it *)

Module KeySpec.

Import Keys.

(** The merged map in the specification's words: the static entries in
    their order, each with the environment's key when the environment has
    its version, followed by the environment's entries whose version is
    not in the static map, in the environment's order. *)
Definition override (env : StrMap JSON) (kv : jsstring * JSON) : jsstring * JSON :=
  (fst kv, default (snd kv) (get_field (fst kv) env)).

Definition is_new (static : StrMap JSON) (kv : jsstring * JSON) : bool :=
  match get_field (fst kv) static with
  | None => true
  | Some _ => false
  end.

Definition merged_spec (static env : StrMap JSON) : StrMap JSON :=
  List.map (override env) static ++ List.filter (is_new static) env.

(** *** The decoding rule, in the specification's words

    "A key string is accepted as (a) a 64-character case-insensitive hex
    string, or (b) base64 or URL-safe base64 (detected by presence of
    [-]/[_] without [+]/[/]); after decoding it must be exactly 32 bytes
    or the entry is rejected."  The rule is written here on its own, from
    the tables of the hex digits and of the white space and by membership
    in the text; the handler's decoder is not used. *)

Definition hex_digits : jsstring := lit "0123456789abcdef".
Definition hex_digits_upper : jsstring := lit "0123456789ABCDEF".

(** The place of a character in a table. *)
Fixpoint position (c : Z) (table : jsstring) : option Z :=
  match table with
  | [] => None
  | d :: rest => if c =? d then Some 0 else option_map Z.succ (position c rest)
  end.

(** The value of a hex digit, in either case. *)
Definition hex_value (c : Z) : option Z :=
  match position c hex_digits with
  | Some v => Some v
  | None => position c hex_digits_upper
  end.

(** (a): a text of 64 hex digits. *)
Definition is_hex64 (s : jsstring) : bool :=
  (length s =? 64)%nat &&
  forallb (fun c => match hex_value c with Some _ => true | None => false end) s.

(** The bytes a hex text spells, two digits to a byte. *)
Fixpoint hex_bytes (s : jsstring) : Buffer :=
  match s with
  | h :: l :: rest =>
      (16 * default 0 (hex_value h) + default 0 (hex_value l)) :: hex_bytes rest
  | _ => []
  end.

(** The white space of ECMAScript (WhiteSpace and LineTerminator). *)
Definition white_space : list Z :=
  [0x0009; 0x000A; 0x000B; 0x000C; 0x000D; 0x0020; 0x00A0; 0x1680;
   0x2000; 0x2001; 0x2002; 0x2003; 0x2004; 0x2005; 0x2006; 0x2007;
   0x2008; 0x2009; 0x200A; 0x2028; 0x2029; 0x202F; 0x205F; 0x3000; 0xFEFF].

Definition is_white (c : Z) : bool := bool_decide (c ∈ white_space).

(** How many characters of white space a text starts with. *)
Fixpoint leading (s : jsstring) : nat :=
  match s with
  | c :: rest => if is_white c then S (leading rest) else 0%nat
  | [] => 0%nat
  end.

(** The text without the white space before and after it: base64 text is
    decoded without it. *)
Definition strip (s : jsstring) : jsstring :=
  let t := drop (leading s) s in
  take (length t - leading (rev t)) t.

(** (b): the text is taken for URL-safe base64 when it has [-] or [_] and
    neither [+] nor [/]. *)
Definition url_safe (t : jsstring) : bool :=
  bool_decide (((0x2D ∈ t) \/ (0x5F ∈ t)) /\ (0x2B ∉ t) /\ (0x2F ∉ t)).

(** The key a value spells, if it spells one: the decoding of (a) or (b),
    when it has exactly 32 bytes.  A value that is not a string spells
    none. *)
Definition decode_key (rt : Runtime) (value : JSON) : option Buffer :=
  match value with
  | JStr s =>
      let decoded :=
        if is_hex64 s then hex_bytes s
        else buffer_from_base64 rt (url_safe (strip s)) (strip s) in
      if (length decoded =? 32)%nat then Some decoded else None
  | _ => None
  end.

(** What the log line of a rejected entry complains of: the length of the
    key, for a string and for a value whose text is 64 hex digits (an array
    that holds them is taken for a key of one byte); that the value is not
    a string, for every other value. *)
Definition key_error (value : JSON) : KeyError :=
  match value with
  | JStr _ => InvalidKeyLength
  | _ =>
      match hex_candidate value with
      | Some s => if is_hex64 s then InvalidKeyLength else KeyNotAString
      | None => KeyNotAString
      end
  end.

(** The valid entries of a map, in its order. *)
Definition valid_entries (rt : Runtime) (merged : StrMap JSON)
  : list LiveLinkKeyringEntry :=
  omap (fun kv =>
          match decode_key rt (snd kv) with
          | Some b => Some {| version := fst kv; key := b |}
          | None => None
          end) merged.

(** One log line for each entry that is not valid, in the map's order. *)
Definition rejected_entries (rt : Runtime) (merged : StrMap JSON) : list LogMsg :=
  omap (fun kv =>
          match decode_key rt (snd kv) with
          | Some _ => None
          | None => Some (LogInvalidHashKey (fst kv) (key_error (snd kv)))
          end) merged.

End KeySpec.

(** ** Notions for the properties of the rest of the code *)

Module More.

Import Sessions Live Hooks.

(** The configuration surface: each limit with the environment variable
    that sets it and its default. *)
Definition config_surface : list (String.string * float * (Config -> float)) :=
  [ ("LIVE_LINK_HANDSHAKE_TIMEOUT_MS"%string, 5000%float, handshakeTimeoutMs);
    ("LIVE_LINK_MAX_MESSAGE_BYTES"%string, 262144%float, maxMessageBytes);
    ("LIVE_LINK_MAX_FRAMES_PER_CHUNK"%string, 600%float, maxFramesPerChunk);
    ("LIVE_LINK_MAX_PCT_PER_SECOND"%string, 20%float, maxPctPerSecond);
    ("LIVE_LINK_MAX_PCT_BURST"%string, 5%float, maxPctBurst);
    ("LIVE_LINK_MAX_ABS_COORD"%string, 10000000%float, maxAbsCoord);
    ("LIVE_LINK_MAX_COORD_DELTA"%string, 20000%float, maxCoordDelta) ].

(** What a limit is, given the text of its variable: the [Number] of the
    text when the variable is set to a non-empty text whose [Number] is
    finite, and its default in every other case (unset, empty, not a
    number, infinite). *)
Definition limit_is (rt : Runtime) (raw : option jsstring) (fallback value : float)
  : Prop :=
  (forall r, raw = Some r -> r <> [] ->
             Num.isFinite (Number_of_string rt r) = true ->
             value = Number_of_string rt r) /\
  (raw = None \/ raw = Some [] \/
   (exists r, raw = Some r /\ Num.isFinite (Number_of_string rt r) = false) ->
   value = fallback).

(** Bytes are 0 .. 255. *)
Definition bytes_ok (b : Buffer) : Prop := Forall (fun x => 0 <= x < 256) b.

(** The lower-case hex digit of a value 0 .. 15. *)
Definition hex_char (d : Z) : Z := if d <? 10 then 0x30 + d else 0x61 + (d - 10).

(** [buf.toString("hex")]: the hex text of a buffer, the form the key map
    recommends for a key. *)
Definition hex_encode (b : Buffer) : jsstring :=
  flat_map (fun x => [hex_char (x / 16); hex_char (x mod 16)]) b.

(** The loop over the frames passes over the frame without a look at its
    coordinates: it is not an object, or it lacks [x] or [y]. *)
Definition skippable (frame : JSON) : bool :=
  negb (is_object_like frame) ||
  match prop (lit "x") frame, prop (lit "y") frame with
  | Some _, Some _ => false
  | _, _ => true
  end.

(** A frame the loop does not object to on its own: it is passed over, or
    both its coordinates are finite numbers within the absolute bound. *)
Definition frame_plausible (cfg : Config) (frame : JSON) : Prop :=
  skippable frame = true \/
  exists xv yv,
    prop (lit "x") frame = Some (JNum xv) /\
    prop (lit "y") frame = Some (JNum yv) /\
    Num.isFinite xv = true /\ Num.isFinite yv = true /\
    Num.gt (PrimFloat.abs xv) (maxAbsCoord cfg) = false /\
    Num.gt (PrimFloat.abs yv) (maxAbsCoord cfg) = false.

(** The telemetry state of a session that has seen no telemetry. *)
Definition fresh_telemetry : Telemetry :=
  {| expectedSeq := 1; lastAt := None; lastPct := None; lastCoord := None |}.

Definition is_authorized (a : Auth) : bool :=
  match state a with authorized => true | challenging => false end.

(** What every hook keeps true of a stored session and the context of its
    peer, for the keyring of the process. *)
Definition session_ok (keyring : list Keys.LiveLinkKeyringEntry)
    (i : jsstring) (s : LiveLinkSession) (c : LiveLinkContext) : Prop :=
  id s = i /\ peer_id (peer s) = i /\
  ctx_nonce c = nonce (auth s) /\ ctx_authorized c = is_authorized (auth s) /\
  match state (auth s) with
  | challenging =>
      version (auth s) = None /\ is_Some (handshakeTimer (auth s)) /\
      telemetry s = fresh_telemetry
  | authorized =>
      handshakeTimer (auth s) = None /\
      exists entry,
        entry ∈ keyring /\ Keys.version entry <> [] /\
        version (auth s) = Some (Keys.version entry)
  end /\
  coord_finite (lastCoord (telemetry s)) /\
  (forall pct, lastPct (telemetry s) = Some pct -> Num.isFinite pct = true) /\
  (lastAt (telemetry s) = None <-> lastPct (telemetry s) = None).

Definition world_ok (keyring : list Keys.LiveLinkKeyringEntry) (w : World) : Prop :=
  forall i s,
    sessions w !! i = Some s ->
    exists c, contexts w !! i = Some c /\ session_ok keyring i s c.

(** The call is the open hook of the connection [i]. *)
Definition opens (i : jsstring) (c : Call) : Prop :=
  match c with
  | CallOpen q _ _ _ => peer_id q = i
  | _ => False
  end.

(** The call is a message of the peer [p]. *)
Definition message_of (p : Peer) (c : Call) : Prop :=
  match c with
  | CallMessage q _ _ => q = p
  | _ => False
  end.

(** The call is a ping that fits the size limit. *)
Definition is_ping_call (cfg : Config) (c : Call) : Prop :=
  match c with
  | CallMessage _ m _ =>
      Num.gt (Num.of_nat (msg_byteLength m)) (maxMessageBytes cfg) = false /\
      exists data, msg_json m = Some data /\ is_ping data = true
  | _ => False
  end.

(** How many times the timer [t] is cleared in a trace. *)
Fixpoint count_clear (t : Timer) (evs : list Event) : nat :=
  match evs with
  | [] => 0
  | ClearTimeout t' :: rest => (if t' =? t then 1 else 0) + count_clear t rest
  | _ :: rest => count_clear t rest
  end.

(** What a peer whose session is not authorized can be answered. *)
Inductive challenging_reply (p : Peer) (now : float) : list Event -> Prop :=
| reply_too_large : challenging_reply p now (killAndClose p "Message too large")
| reply_invalid_json : challenging_reply p now (killAndClose p "Invalid JSON")
| reply_pong : challenging_reply p now (sendJson p (cmd_msg "pong" [(lit "t", JNum now)]))
| reply_bad_envelope : challenging_reply p now (closeUnauthorized p "Bad auth envelope")
| reply_nonce_mismatch : challenging_reply p now (closeUnauthorized p "Nonce mismatch")
| reply_unauthorized : challenging_reply p now (closeUnauthorized p "Unauthorized").

(** What a hook other than [open] and [close] of the connection keeps of
    its session. *)
Definition kept (s s' : LiveLinkSession) : Prop :=
  id s' = id s /\ peer s' = peer s /\ createdAt s' = createdAt s /\
  remoteAddress s' = remoteAddress s /\
  nonce (auth s') = nonce (auth s) /\
  (state (auth s) = authorized -> auth s' = auth s).

(** An IEEE-754 datum that is zero or below. *)
Definition nonpositive (f : spec_float) : bool :=
  match f with
  | S754_zero _ => true
  | S754_infinity s => s
  | S754_finite s _ _ => s
  | S754_nan => false
  end.

(** The peer a hook is called for. *)
Definition call_peer (c : Call) : Peer :=
  match c with
  | CallOpen p _ _ _ | CallMessage p _ _ | CallClose p | CallError p _ => p
  end.

(** An event that reaches a peer reaches the peer [i], and a close has the
    code 1008 (policy violation). *)
Definition addressed_to (i : jsstring) (e : Event) : Prop :=
  match e with
  | Send j _ => j = i
  | Close j code _ => j = i /\ code = 1008
  | _ => True
  end.

(** Every kill notification in a trace is followed at once by the close of
    the same connection. *)
Fixpoint kills_are_closed (evs : list Event) : Prop :=
  match evs with
  | [] => True
  | Send i payload :: rest =>
      (payload = cmd_msg "kill" [] ->
       exists reason rest', rest = Close i 1008 reason :: rest') /\
      kills_are_closed rest
  | _ :: rest => kills_are_closed rest
  end.

(** A string of white space. *)
Definition blank (s : jsstring) : Prop := Forall (fun c => is_space c = true) s.

End More.

Export More.

(** ** More inputs for the small runtime *)

Module Inputs.

Import Sessions Live.

(** An envelope in GCM mode: a tag of 16 bytes, an IV of 12. *)
Definition gcm_envelope : Crypto.LiveLinkAuthEnvelope :=
  {| Crypto.iv := lit "0123456789ab";
     Crypto.data := Some (66 :: Fixture.nonce_json Fixture.nonce1);
     Crypto.ciphertext := None;
     Crypto.tag := Some (lit "0123456789abcdef");
     Crypto.alg := Some (lit "aes-256-gcm") |}.

(** An envelope that names GCM and carries no tag. *)
Definition untagged_gcm_envelope : Crypto.LiveLinkAuthEnvelope :=
  {| Crypto.iv := lit "0123456789ab";
     Crypto.data := Some (66 :: Fixture.nonce_json Fixture.nonce1);
     Crypto.ciphertext := None;
     Crypto.tag := None;
     Crypto.alg := Some (lit "AES-256-GCM") |}.

Definition untagged_gcm_json : JSON :=
  JObj [(lit "iv", JStr (lit "0123456789ab"));
        (lit "data", JStr (66 :: Fixture.nonce_json Fixture.nonce1));
        (lit "alg", JStr (lit "AES-256-GCM"))].

Definition entryA : Keys.LiveLinkKeyringEntry :=
  {| Keys.version := lit "gd-2.206"; Keys.key := Fixture.key_of 65 |}.

Definition entryB : Keys.LiveLinkKeyringEntry :=
  {| Keys.version := lit "gd-2.207"; Keys.key := Fixture.key_of 66 |}.

(** An entry as an environment map with an empty property name gives it. *)
Definition unnamed_entry : Keys.LiveLinkKeyringEntry :=
  {| Keys.version := []; Keys.key := Fixture.key_of 66 |}.

(** The parsed envelope of the answer to the fixture's challenge under the
    second key. *)
Definition answer_envelope : Crypto.LiveLinkAuthEnvelope :=
  {| Crypto.iv := lit "0123456789abcdef";
     Crypto.data := Some (66 :: Fixture.nonce_json Fixture.nonce1);
     Crypto.ciphertext := None; Crypto.tag := None; Crypto.alg := None |}.

Definition answer : Message := Fixture.msg_of (Fixture.envelope_for 66 Fixture.nonce1).

(** The same answer, wrapped. *)
Definition wrapped_answer : Message :=
  Fixture.msg_of (JObj [(lit "payload", Fixture.envelope_for 66 Fixture.nonce1)]).

(** The map [Fixture.env_keys_json] parses to. *)
Definition env_keys : Keys.StrMap JSON :=
  [(lit "gd-2.206", JStr Fixture.hex_key);
   (lit "gd-2.207", JStr (lit "fedcba9876543210-edcba9876543210"))].

(** A map with values that are not strings: an array that holds 64 hex
    digits, a number, and the digits themselves with a line end after
    them. *)
Definition odd_keys : Keys.StrMap JSON :=
  [(lit "gd-2.300", JArr [JStr Fixture.hex_key]);
   (lit "gd-2.301", JNum 7);
   (lit "gd-2.302", JStr (Fixture.hex_key ++ [10]))].

(** The key that [Fixture.hex_key] spells. *)
Definition key_bytes : Buffer :=
  [0x00; 0x11; 0x22; 0x33; 0x44; 0x55; 0x66; 0x77;
   0x88; 0x99; 0xaa; 0xbb; 0xcc; 0xdd; 0xee; 0xff;
   0xff; 0xee; 0xdd; 0xcc; 0xbb; 0xaa; 0x99; 0x88;
   0x77; 0x66; 0x55; 0x44; 0x33; 0x22; 0x11; 0x00].

(** The keyring of the fixture's static map and environment. *)
Definition built_keyring : list Keys.LiveLinkKeyringEntry :=
  [ {| Keys.version := lit "gd-2.206"; Keys.key := key_bytes |};
    {| Keys.version := lit "gd-2.207";
       Keys.key := lit "fedcba9876543210-edcba9876543210" |} ].

Definition built_logs : list LogMsg :=
  [ LogInvalidHashKey (lit "gd-2.100") InvalidKeyLength ].

(** The first report of the fixture's peer, at time 2000. *)
Definition report1 : TelemetryMessage :=
  {| seq := 1; current_pct := 10;
     frames := [Fixture.frame_of 0 0; Fixture.frame_of 100 50] |}.

Definition report1_msg : Message := fst (Fixture.telemetry_ok 1 2000 10).

(** The session and the world once it is recorded. *)
Definition session_reported : LiveLinkSession :=
  with_telemetry
    {| expectedSeq := 2; lastAt := Some 2000%float; lastPct := Some 10%float;
       lastCoord := Some {| x := 100; y := 50 |} |}
    Fixture.session_authorized.

Definition world_reported : World :=
  fst (message Fixture.runtime Fixture.cfg Fixture.keyring Fixture.peer1
         report1_msg 2000 Fixture.world_authorized).

(** The second report, which arrives in the same millisecond. *)
Definition report2 : TelemetryMessage :=
  {| seq := 2; current_pct := 11; frames := [Fixture.frame_of 101 50] |}.

Definition report2_msg : Message :=
  Fixture.msg_of (Fixture.telemetry_of 2 11 [Fixture.frame_of 101 50]).

(** A first report that claims the level is complete. *)
Definition report_complete : TelemetryMessage :=
  {| seq := 1; current_pct := 100; frames := [] |}.

End Inputs.
(** * Properties *)

(** ** Facts about IEEE-754 comparisons *)

Module FloatFacts.

Lemma SFcompare_refl f : Num.sf_nan f = false -> SFcompare f f = Some Eq.
Proof.
  destruct f as [s|s| |s m e]; simpl; try done.
  - by destruct s.
  - intros _. rewrite Z.compare_refl, Pos.compare_cont_refl. by destruct s.
Qed.

Lemma SFcompare_nan_l f g : SFcompare f g = None <-> Num.sf_nan f = true \/ Num.sf_nan g = true.
Proof.
  destruct f as [s|s| |s m e], g as [s'|s'| |s' m' e']; simpl; split; intros H;
    try discriminate; try tauto; try (destruct H; discriminate); auto.
Qed.

Lemma SFcompare_antisym f g :
  SFcompare g f = option_map CompOpp (SFcompare f g).
Proof.
  destruct f as [s|s| |s m e], g as [s'|s'| |s' m' e']; simpl; try done;
    try (by destruct s); try (by destruct s'); try (by destruct s, s').
  destruct s, s'; simpl; try done.
  - rewrite (Z.compare_antisym e e'). destruct (e ?= e') eqn:E; simpl; try done.
    f_equal. rewrite Pos.compare_cont_antisym. simpl. by rewrite CompOpp_involutive.
  - rewrite (Z.compare_antisym e e'). destruct (e ?= e') eqn:E; simpl; try done.
    f_equal. by rewrite Pos.compare_cont_antisym.
Qed.

Lemma is_nan_spec x : is_nan x = Num.sf_nan (Prim2SF x).
Proof.
  unfold is_nan. rewrite FloatAxioms.eqb_spec. unfold SFeqb.
  destruct (Num.sf_nan (Prim2SF x)) eqn:E.
  - destruct (Prim2SF x); try discriminate. reflexivity.
  - by rewrite SFcompare_refl.
Qed.

Lemma not_gt_le a b :
  is_nan a = false -> is_nan b = false ->
  Num.gt a b = negb (a <=? b)%float.
Proof.
  rewrite !is_nan_spec. unfold Num.gt. rewrite FloatAxioms.ltb_spec, FloatAxioms.leb_spec.
  unfold SFltb, SFleb. intros Ha Hb.
  rewrite (SFcompare_antisym (Prim2SF a) (Prim2SF b)).
  destruct (SFcompare (Prim2SF a) (Prim2SF b)) as [[]|] eqn:E; simpl; try done.
  apply SFcompare_nan_l in E. destruct E; congruence.
Qed.

Lemma lt_not_ge a b : (a <? b)%float = true -> Num.ge a b = false.
Proof.
  unfold Num.ge. rewrite FloatAxioms.ltb_spec, FloatAxioms.leb_spec. unfold SFltb, SFleb.
  rewrite (SFcompare_antisym (Prim2SF a) (Prim2SF b)).
  by destruct (SFcompare (Prim2SF a) (Prim2SF b)) as [[]|].
Qed.

Lemma eq_not_gt a b : (a =? b)%float = true -> Num.gt a b = false.
Proof.
  unfold Num.gt. rewrite FloatAxioms.eqb_spec, FloatAxioms.ltb_spec.
  unfold SFeqb, SFltb.
  rewrite (SFcompare_antisym (Prim2SF a) (Prim2SF b)).
  by destruct (SFcompare (Prim2SF a) (Prim2SF b)) as [[]|].
Qed.

Lemma Prim2SF_infinity : Prim2SF infinity = S754_infinity false.
Proof. reflexivity. Qed.

Lemma is_finite_spec x : Num.isFinite x = Num.sf_finite (Prim2SF x).
Proof.
  unfold Num.isFinite, is_finite. rewrite is_nan_spec. unfold is_infinity.
  rewrite FloatAxioms.eqb_spec, FloatAxioms.abs_spec, Prim2SF_infinity. unfold SFeqb.
  by destruct (Prim2SF x) as [s|s| |s m e].
Qed.

(** Rounding a non-negative mantissa never yields NaN. *)
Lemma shr_1_nonneg mrs : 0 <= shr_m mrs -> 0 <= shr_m (shr_1 mrs).
Proof.
  destruct mrs as [m r s]. simpl. destruct m as [|p|p]; simpl; try lia.
  - destruct p; simpl; lia.
Qed.

Lemma iter_pos_shr_1_nonneg p mrs :
  0 <= shr_m mrs -> 0 <= shr_m (SpecFloat.iter_pos shr_1 p mrs).
Proof.
  revert mrs. induction p as [p IH|p IH|]; intros mrs H; simpl.
  - apply IH, IH. by apply shr_1_nonneg.
  - by apply IH, IH.
  - by apply shr_1_nonneg.
Qed.

Lemma shr_nonneg mrs e n : 0 <= shr_m mrs -> 0 <= shr_m (fst (shr mrs e n)).
Proof.
  unfold shr. destruct n; simpl; auto. apply iter_pos_shr_1_nonneg.
Qed.

Lemma shr_record_of_loc_m m l : shr_m (shr_record_of_loc m l) = m.
Proof. by destruct l as [|[]]. Qed.

Lemma shr_fexp_nonneg prec emax m e l :
  0 <= m -> 0 <= shr_m (fst (shr_fexp prec emax m e l)).
Proof.
  intros H. unfold shr_fexp. apply shr_nonneg. by rewrite shr_record_of_loc_m.
Qed.

Lemma round_nearest_even_nonneg m l : 0 <= m -> 0 <= round_nearest_even m l.
Proof. destruct l as [|[]]; simpl; try lia. destruct (Z.even m); lia. Qed.

Lemma binary_round_aux_not_nan prec emax sx mx ex lx :
  0 <= mx -> Num.sf_nan (binary_round_aux prec emax sx mx ex lx) = false.
Proof.
  intros H. unfold binary_round_aux.
  pose proof (shr_fexp_nonneg prec emax mx ex lx H) as H1.
  destruct (shr_fexp prec emax mx ex lx) as [mrs' e'].
  simpl in H1.
  pose proof (shr_fexp_nonneg prec emax _ e' loc_Exact
                (round_nearest_even_nonneg _ (loc_of_shr_record mrs') H1)) as H2.
  destruct (shr_fexp prec emax _ e' loc_Exact) as [mrs'' e''].
  simpl in H2. destruct (shr_m mrs''); try done.
  by destruct (_ <=? _).
Qed.

Lemma binary_normalize_not_nan prec emax m e sz :
  Num.sf_nan (binary_normalize prec emax m e sz) = false.
Proof.
  destruct m; simpl; try done; unfold binary_round;
    destruct (shl_align _ _ _); by apply binary_round_aux_not_nan.
Qed.

Lemma sub_finite_not_nan a b :
  Num.isFinite a = true -> Num.isFinite b = true -> is_nan (a - b)%float = false.
Proof.
  rewrite !is_finite_spec, is_nan_spec, FloatAxioms.sub_spec. unfold SF64sub.
  destruct (Prim2SF a) as [s|s| |s m e], (Prim2SF b) as [s'|s'| |s' m' e'];
    simpl; try done; intros _ _.
  - by destruct s, s'.
  - apply binary_normalize_not_nan.
Qed.

Lemma mul_finite_not_nan a b :
  Num.isFinite a = true -> Num.isFinite b = true -> is_nan (a * b)%float = false.
Proof.
  rewrite !is_finite_spec, is_nan_spec, FloatAxioms.mul_spec. unfold SF64mul.
  destruct (Prim2SF a) as [s|s| |s m e], (Prim2SF b) as [s'|s'| |s' m' e'];
    simpl; try done; intros _ _.
  by apply binary_round_aux_not_nan.
Qed.

Lemma add_finite_not_nan a b :
  Num.isFinite a = true -> is_nan b = false -> is_nan (a + b)%float = false.
Proof.
  rewrite is_finite_spec, !is_nan_spec, FloatAxioms.add_spec. unfold SF64add.
  destruct (Prim2SF a) as [s|s| |s m e], (Prim2SF b) as [s'|s'| |s' m' e'];
    simpl; try done; intros _ _.
  - by destruct s, s'.
  - apply binary_normalize_not_nan.
Qed.

Lemma abs_not_nan a : is_nan a = false -> is_nan (abs a) = false.
Proof. rewrite !is_nan_spec, FloatAxioms.abs_spec. by destruct (Prim2SF a). Qed.

Lemma finite_not_nan a : Num.isFinite a = true -> is_nan a = false.
Proof. rewrite is_finite_spec, is_nan_spec. by destruct (Prim2SF a). Qed.

Lemma digits2_pos_size p : digits2_pos p = Pos.size p.
Proof. induction p as [p IH|p IH|]; simpl; by rewrite ?IH. Qed.

Lemma digits2_pos_log2 p : Zpos (digits2_pos p) = Num.digits (Zpos p).
Proof.
  unfold Num.digits. destruct p as [q|q|]; simpl; rewrite ?digits2_pos_size; lia.
Qed.

Lemma Zdigits2_Dg z : 0 < z -> Zdigits2 z = Num.digits z.
Proof. destruct z; try lia. intros _. simpl. apply digits2_pos_log2. Qed.

Lemma Dg_mul_pow2 z k : 0 < z -> 0 <= k -> Num.digits (z * 2 ^ k) = Num.digits z + k.
Proof. intros Hz Hk. unfold Num.digits. rewrite Z.log2_mul_pow2 by lia. lia. Qed.

Lemma Dg_bounds z : 0 < z -> 2 ^ (Num.digits z - 1) <= z < 2 ^ Num.digits z.
Proof.
  intros Hz. unfold Num.digits. replace (Z.log2 z + 1 - 1) with (Z.log2 z) by lia.
  replace (Z.log2 z + 1) with (Z.succ (Z.log2 z)) by lia. by apply Z.log2_spec.
Qed.

Lemma Dg_pos z : 0 < z -> 1 <= Num.digits z.
Proof. intros Hz. unfold Num.digits. pose proof (Z.log2_nonneg z). lia. Qed.

Lemma Dg_le_mono a b : 0 < a -> a <= b -> Num.digits a <= Num.digits b.
Proof. intros Ha Hab. unfold Num.digits. pose proof (Z.log2_le_mono a b Hab). lia. Qed.

Lemma Pos_iter_xO m d : Zpos (Pos.iter xO m d) = Zpos m * 2 ^ Zpos d.
Proof.
  induction d as [|d IH] using Pos.peano_ind.
  - simpl. lia.
  - rewrite Pos.iter_succ, Pos2Z.inj_xO, IH, Pos2Z.inj_succ, Z.pow_succ_r by lia. lia.
Qed.

Lemma shr_1_double z : 0 <= z -> shr_1 (Num.exact_record (2 * z)) = Num.exact_record z.
Proof. destruct z; try lia; intros _; reflexivity. Qed.

Lemma pow2_xO p : 2 ^ Zpos p~0 = 2 ^ Zpos p * 2 ^ Zpos p.
Proof. rewrite <- Z.pow_add_r by lia. f_equal. lia. Qed.

Lemma pow2_xI p : 2 ^ Zpos p~1 = 2 * (2 ^ Zpos p * 2 ^ Zpos p).
Proof. rewrite <- Z.pow_add_r, <- Z.pow_succ_r by lia. f_equal. lia. Qed.

Lemma iter_shr_exact p z :
  0 <= z -> SpecFloat.iter_pos shr_1 p (Num.exact_record (z * 2 ^ Zpos p)) = Num.exact_record z.
Proof.
  revert z. induction p as [p IH|p IH|]; intros z Hz; cbn [SpecFloat.iter_pos].
  - replace (z * 2 ^ Zpos p~1) with (2 * ((z * 2 ^ Zpos p) * 2 ^ Zpos p))
      by (rewrite pow2_xI; lia).
    rewrite shr_1_double by (apply Z.mul_nonneg_nonneg; lia).
    rewrite IH by lia. by apply IH.
  - replace (z * 2 ^ Zpos p~0) with ((z * 2 ^ Zpos p) * 2 ^ Zpos p)
      by (rewrite pow2_xO; lia).
    rewrite IH by lia. by apply IH.
  - rewrite Z.pow_1_r. replace (z * 2) with (2 * z) by lia. by apply shr_1_double.
Qed.

(** Rounding a mantissa of 53 digits followed by [k] zero bits is exact. *)
Lemma binary_round_aux_exact q k e :
  0 < q -> Num.digits q = 53 -> 0 <= k -> -1074 <= e + k <= 971 ->
  binary_round_aux prec emax false (q * 2 ^ k) e loc_Exact
  = S754_finite false (Z.to_pos q) (e + k).
Proof.
  intros Hq Hd Hk He.
  assert (Hpos : 0 < q * 2 ^ k) by (apply Z.mul_pos_pos; lia).
  unfold binary_round_aux, shr_fexp.
  rewrite (Zdigits2_Dg _ Hpos), Dg_mul_pow2, Hd by lia.
  replace (fexp prec emax (53 + k + e) - e) with k
    by (unfold fexp, SpecFloat.emin, prec, emax; lia).
  assert (Hshr : shr (shr_record_of_loc (q * 2 ^ k) loc_Exact) e k = (Num.exact_record q, e + k)).
  { unfold shr. simpl shr_record_of_loc. destruct k as [|kp|kp]; try lia.
    - rewrite Z.pow_0_r, Z.mul_1_r, Z.add_0_r. reflexivity.
    - fold (Num.exact_record (q * 2 ^ Zpos kp)). rewrite iter_shr_exact by lia. reflexivity. }
  rewrite Hshr. simpl shr_m. simpl loc_of_shr_record. simpl round_nearest_even.
  rewrite (Zdigits2_Dg _ Hq), Hd.
  replace (fexp prec emax (53 + (e + k)) - (e + k)) with 0
    by (unfold fexp, SpecFloat.emin, prec, emax; lia).
  simpl shr. simpl shr_m.
  destruct q as [|m|m]; try lia. simpl.
  unfold emax, prec. destruct (Z.leb_spec (e + k) (1024 - 53)); [reflexivity|lia].
Qed.

Lemma shl_align_spec m e e' :
  Zpos (fst (shl_align m e e')) = Zpos m * 2 ^ (e - Z.min e e') /\
  snd (shl_align m e e') = Z.min e e'.
Proof.
  unfold shl_align. destruct (e' - e) as [|d|d] eqn:E; simpl.
  - replace (e - Z.min e e') with 0 by lia. split; lia.
  - replace (e - Z.min e e') with 0 by lia. split; lia.
  - rewrite Pos_iter_xO. replace (e - Z.min e e') with (Zpos d) by lia. split; lia.
Qed.

(** An integer mantissa of 53 digits followed by [k] zero bits is its own
    normal form. *)
Lemma binary_normalize_exact q k e :
  0 < q -> Num.digits q = 53 -> 0 <= k -> -1074 <= e + k <= 971 ->
  binary_normalize prec emax (q * 2 ^ k) e false
  = S754_finite false (Z.to_pos q) (e + k).
Proof.
  intros Hq Hd Hk He.
  assert (Hpos : 0 < q * 2 ^ k) by (apply Z.mul_pos_pos; lia).
  destruct (q * 2 ^ k) as [|M|M] eqn:EM; try lia.
  unfold binary_normalize, binary_round.
  pose proof (shl_align_spec M e (fexp prec emax (Zpos (digits2_pos M) + e))) as [Hm He'].
  destruct (shl_align M e _) as [mz ez]. simpl in Hm, He'.
  rewrite digits2_pos_log2, <- EM, Dg_mul_pow2, Hd in Hm, He' by lia.
  assert (Hmin : Z.min e (fexp prec emax (53 + k + e)) = e)
    by (unfold fexp, SpecFloat.emin, prec, emax; lia).
  rewrite Hmin in Hm, He'. subst ez.
  rewrite Z.sub_diag, Z.pow_0_r, Z.mul_1_r in Hm. rewrite Hm.
  by apply binary_round_aux_exact.
Qed.

(** The normal form of a positive integer of at most 53 digits. *)
Lemma SFint_small z :
  0 < z -> Num.digits z <= 53 ->
  Num.sf_of_Z z = S754_finite false (Z.to_pos (z * 2 ^ (53 - Num.digits z))) (Num.digits z - 53).
Proof.
  intros Hz Hd. pose proof (Dg_pos z Hz) as Hd1.
  destruct z as [|p|p]; try lia.
  unfold Num.sf_of_Z, binary_normalize, binary_round.
  pose proof (shl_align_spec p 0 (fexp prec emax (Zpos (digits2_pos p) + 0))) as [Hm He].
  destruct (shl_align p 0 _) as [mz ez]. simpl in Hm, He.
  rewrite digits2_pos_log2 in Hm, He.
  assert (Hmin : Z.min 0 (fexp prec emax (Num.digits (Zpos p) + 0)) = Num.digits (Zpos p) - 53)
    by (unfold fexp, SpecFloat.emin, prec, emax; lia).
  rewrite Hmin in Hm, He. subst ez.
  replace (0 - (Num.digits (Zpos p) - 53)) with (53 - Num.digits (Zpos p)) in Hm by lia.
  assert (Hq : 0 < Zpos mz) by lia.
  assert (HDq : Num.digits (Zpos mz) = 53) by (rewrite Hm, Dg_mul_pow2; lia).
  pose proof (binary_round_aux_exact (Zpos mz) 0 (Num.digits (Zpos p) - 53) Hq HDq
                ltac:(lia) ltac:(lia)) as Hr.
  rewrite Z.pow_0_r, Z.mul_1_r, Z.add_0_r in Hr. rewrite Hr. by rewrite Hm.
Qed.

Lemma SFint_one : Num.sf_of_Z 1 = S754_finite false 4503599627370496 (-52).
Proof. reflexivity. Qed.

(** Adding one to an integer below 2^53 - 1 is exact. *)
Lemma SFadd_one_exact n :
  0 <= n -> n + 1 < 2 ^ 53 ->
  SFadd prec emax (Num.sf_of_Z n) (Num.sf_of_Z 1) = Num.sf_of_Z (n + 1).
Proof.
  intros Hn Hlt.
  destruct (Z.eq_dec n 0) as [->|Hn0]; [reflexivity|].
  assert (Hd' : Num.digits (n + 1) <= 53).
  { pose proof (Dg_bounds (n + 1) ltac:(lia)) as [Hlow _].
    destruct (Z.le_gt_cases (Num.digits (n + 1)) 53) as [|Hgt]; [done|].
    assert (2 ^ 53 <= 2 ^ (Num.digits (n + 1) - 1)) by (apply Z.pow_le_mono_r; lia). lia. }
  assert (Hd : Num.digits n <= 53) by (pose proof (Dg_le_mono n (n + 1)); lia).
  pose proof (Dg_pos n ltac:(lia)) as Hd1.
  pose proof (Dg_pos (n + 1) ltac:(lia)) as Hd1'.
  rewrite (SFint_small n) by lia. rewrite (SFint_small (n + 1)) by lia.
  rewrite SFint_one. unfold SFadd.
  assert (Hqn : 0 < n * 2 ^ (53 - Num.digits n)) by (apply Z.mul_pos_pos; lia).
  set (qx := Z.to_pos (n * 2 ^ (53 - Num.digits n))).
  assert (Hqx : Zpos qx = n * 2 ^ (53 - Num.digits n)) by (unfold qx; lia).
  replace (Z.min (Num.digits n - 53) (-52)) with (-52) by lia.
  pose proof (shl_align_spec qx (Num.digits n - 53) (-52)) as [Hx _].
  pose proof (shl_align_spec 4503599627370496 (-52) (-52)) as [Hy _].
  replace (Num.digits n - 53 - Z.min (Num.digits n - 53) (-52)) with (Num.digits n - 1) in Hx by lia.
  simpl cond_Zopp. rewrite Hx, Hqx.
  change (Zpos (shl_align 4503599627370496 (-52) (-52)).1) with 4503599627370496.
  replace (n * 2 ^ (53 - Num.digits n) * 2 ^ (Num.digits n - 1) + 4503599627370496)
    with (((n + 1) * 2 ^ (53 - Num.digits (n + 1))) * 2 ^ (Num.digits (n + 1) - 1)).
  - rewrite binary_normalize_exact.
    + f_equal. lia.
    + apply Z.mul_pos_pos; lia.
    + rewrite Dg_mul_pow2; lia.
    + lia.
    + lia.
  - rewrite <- !Z.mul_assoc, <- !Z.pow_add_r by lia.
    replace (53 - Num.digits (n + 1) + (Num.digits (n + 1) - 1)) with 52 by lia.
    replace (53 - Num.digits n + (Num.digits n - 1)) with 52 by lia.
    change (2 ^ 52) with 4503599627370496. lia.
Qed.

Lemma of_nat_spec n :
  Z.of_nat n < 2 ^ 63 -> Prim2SF (Num.of_nat n) = Num.sf_of_Z (Z.of_nat n).
Proof.
  intros Hn. unfold Num.of_nat, Num.sf_of_Z.
  rewrite FloatAxioms.of_uint63_spec, Uint63.of_Z_spec, Z.mod_small; [done|].
  change Uint63.wB with (2 ^ 63). lia.
Qed.

(** On the count of a counter below 2^53 - 1, the addition of JS numbers
    [c + 1] is the successor. *)
Lemma of_nat_succ_exact n :
  Z.of_nat n + 1 < 2 ^ 53 -> (Num.of_nat n + 1)%float = Num.of_nat (S n).
Proof.
  intros Hn. apply FloatAxioms.Prim2SF_inj.
  rewrite FloatAxioms.add_spec, !of_nat_spec by lia.
  change (Prim2SF 1) with (Num.sf_of_Z 1). unfold SF64add.
  rewrite SFadd_one_exact by lia. f_equal. lia.
Qed.

End FloatFacts.

(** ** The configuration *)

Section Configuration.

Import Live.

Context (rt : Runtime).

Lemma readNumberEnv_finite raw fallback :
  Num.isFinite fallback = true -> Num.isFinite (readNumberEnv rt raw fallback) = true.
Proof.
  intros Hf. unfold readNumberEnv. destruct raw as [r|]; [|done].
  destruct (negb (truthy_str r)); [done|].
  by destruct (Num.isFinite (Number_of_string rt r)) eqn:E.
Qed.

(** Whatever the environment holds, every limit is a finite number. *)
Lemma LIVE_LINK_CONFIG_finite env : config_finite (LIVE_LINK_CONFIG rt env).
Proof. unfold config_finite, LIVE_LINK_CONFIG. simpl. repeat split; by apply readNumberEnv_finite. Qed.

Lemma config_finite_not_nan cfg :
  config_finite cfg ->
  is_nan (maxAbsCoord cfg) = false /\ is_nan (maxCoordDelta cfg) = false.
Proof.
  intros (_ & _ & _ & _ & _ & Ha & Hd). split; by apply FloatFacts.finite_not_nan.
Qed.

End Configuration.

(** ** The nonce comparison *)

Section NonceComparison.

Lemma xor_acc_zero a b acc :
  length a = length b ->
  xor_acc a b acc = 0 <-> acc = 0 /\ a = b.
Proof.
  revert b acc. induction a as [|x a IH]; intros [|y b] acc Hlen;
    simpl in *; try discriminate.
  - intuition.
  - injection Hlen as Hlen. rewrite (IH b _ Hlen), Z.lor_eq_0_iff.
    split.
    + intros [[-> Hxy] ->]. apply Z.lxor_eq in Hxy. by subst.
    + intros [-> [= -> ->]]. by rewrite Z.lxor_nilpotent.
Qed.

Lemma timingSafeEqual_spec a b :
  length a = length b -> timingSafeEqual a b = true <-> a = b.
Proof.
  intros Hlen. unfold timingSafeEqual. rewrite Z.eqb_eq, (xor_acc_zero a b 0 Hlen).
  tauto.
Qed.

(** The comparison of the handshake holds exactly when the two strings
    have the same UTF-8 bytes. *)
Lemma timingSafeEqualString_spec a b :
  Live.timingSafeEqualString a b = true <-> buffer_from_utf8 a = buffer_from_utf8 b.
Proof.
  unfold Live.timingSafeEqualString, byteLength.
  destruct (Nat.eqb_spec (length (buffer_from_utf8 a)) (length (buffer_from_utf8 b)))
    as [Hlen|Hlen]; simpl.
  - by apply timingSafeEqual_spec.
  - split; [discriminate|]. intros E. by rewrite E in Hlen.
Qed.

Lemma buffer_from_utf8_ascii s : ascii_string s -> buffer_from_utf8 s = s.
Proof.
  induction 1 as [|c s Hc _ IH]; simpl; [done|].
  destruct (Z.ltb_spec c 0x80); [|lia]. by rewrite IH.
Qed.

Lemma lor_marker_high K v : 0 <= K -> 7 <= Z.log2 K -> 0 <= v -> 0x80 <= Z.lor K v.
Proof.
  intros HK Hlog Hv.
  assert (0 <= Z.lor K v) as Hnn by (apply Z.lor_nonneg; lia).
  pose proof (Z.log2_lor K v HK Hv) as Hl.
  destruct (Z.eq_dec (Z.lor K v) 0) as [E|E].
  - rewrite E in Hl. simpl in Hl. lia.
  - pose proof (Z.log2_spec (Z.lor K v) ltac:(lia)) as [Hlow _].
    assert (2 ^ 7 <= 2 ^ Z.log2 (Z.lor K v)) by (apply Z.pow_le_mono_r; lia).
    change (2 ^ 7) with 128 in *. lia.
Qed.

(** A code unit outside ASCII starts with a byte outside ASCII. *)
Lemma buffer_from_utf8_head_high c rest :
  0x80 <= c ->
  exists b bs, buffer_from_utf8 (c :: rest) = b :: bs /\ 0x80 <= b.
Proof.
  intros Hc. simpl.
  destruct (Z.ltb_spec c 0x80); [lia|].
  assert (Hhi : forall K n, 0 <= K -> 7 <= Z.log2 K -> 0x80 <= Z.lor K (Z.shiftr c n)).
  { intros K n HK Hlog. apply lor_marker_high; try done. apply Z.shiftr_nonneg. lia. }
  destruct (c <? 0x800).
  { eexists _, _. split; [reflexivity|]. by apply Hhi. }
  destruct (is_high_surrogate c) eqn:Hs.
  { destruct rest as [|d rest']; [by eexists _, _|].
    destruct (is_low_surrogate d) eqn:Hd.
    - eexists _, _. split; [reflexivity|].
      apply lor_marker_high; try done. apply Z.shiftr_nonneg.
      unfold code_point, is_high_surrogate, is_low_surrogate in *.
      apply andb_true_iff in Hs as [Hs1 Hs2], Hd as [Hd1 Hd2].
      apply Z.leb_le in Hs1, Hs2, Hd1, Hd2.
      assert (0 <= Z.shiftl (c - 0xD800) 10) by (apply Z.shiftl_nonneg; lia).
      lia.
    - by eexists _, _. }
  destruct (is_low_surrogate c); [by eexists _, _|].
  eexists _, _. split; [reflexivity|]. by apply Hhi.
Qed.

(** Against an ASCII string, equal UTF-8 bytes mean equal strings: the
    challenge nonce is base64url text, so the comparison of the handshake
    is string equality. *)
Lemma buffer_from_utf8_ascii_inj a b :
  ascii_string b -> buffer_from_utf8 a = buffer_from_utf8 b -> a = b.
Proof.
  intros Hb. rewrite (buffer_from_utf8_ascii b Hb).
  revert b Hb. induction a as [|c rest IH]; intros b Hb E.
  - done.
  - destruct (Z.ltb_spec c 0x80) as [Hc|Hc].
    + simpl in E. destruct (Z.ltb_spec c 0x80); [|lia].
      destruct b as [|c' b']; [discriminate|]. injection E as -> E.
      apply Forall_cons in Hb as [_ Hb']. f_equal. by apply IH.
    + destruct (buffer_from_utf8_head_high c rest Hc) as (h & bs & Eh & Hh).
      rewrite Eh in E. subst b. apply Forall_cons in Hb as [Hlt _]. lia.
Qed.

Lemma timingSafeEqualString_ascii a b :
  ascii_string b -> Live.timingSafeEqualString a b = true <-> a = b.
Proof.
  intros Hb. rewrite timingSafeEqualString_spec. split.
  - by apply buffer_from_utf8_ascii_inj.
  - by intros ->.
Qed.

End NonceComparison.

(** ** The handshake *)

Section Handshake.

Import Sessions Live.

Context (rt : Runtime).

Lemma try_key_Some envelope key payload :
  try_key rt envelope key = Some payload <->
  exists plaintext j,
    Crypto.decryptAuthEnvelope rt envelope key = Ok plaintext /\
    JSON_parse rt plaintext = Some j /\
    Crypto.LiveLinkAuthPayloadSchema j = Some payload.
Proof.
  unfold try_key. split.
  - destruct (Crypto.decryptAuthEnvelope rt envelope key) as [pt|]; [|done].
    destruct (JSON_parse rt pt) as [j|] eqn:Ej; [|done]. intros H.
    by exists pt, j.
  - intros (pt & j & -> & -> & ->). done.
Qed.

(** The loop ends in success only at an entry of the keyring whose key
    authenticates the envelope. *)
Lemma key_trial_authed envelope nonce_ keyring v payload :
  fst (key_trial rt envelope nonce_ keyring) = TrialAuthed v payload ->
  exists entry,
    entry ∈ keyring /\ v = Keys.version entry /\
    authenticates rt envelope nonce_ (Keys.key entry) payload.
Proof.
  induction keyring as [|entry rest IH]; simpl; [done|].
  destruct (try_key rt envelope (Keys.key entry)) as [parsed|] eqn:Et.
  - destruct (timingSafeEqualString (Crypto.nonce parsed) nonce_) eqn:Eq; simpl; [|done].
    intros [= <- <-]. exists entry. split; [left|]. split; [done|].
    apply try_key_Some in Et as (pt & j & ? & ? & ?). by exists pt, j.
  - destruct (key_trial rt envelope nonce_ rest) as [o tried]. simpl in *.
    intros H. destruct (IH H) as (e & ? & ? & ?). exists e. split; [by right|done].
Qed.

(** A key the loop tried that opens the envelope to a payload with another
    nonce is where the loop ended, in a mismatch: it is the last key
    tried, and the keys after it in the keyring were not. *)
Lemma key_trial_tried_mismatch envelope nonce_ keyring entry payload :
  entry ∈ snd (key_trial rt envelope nonce_ keyring) ->
  try_key rt envelope (Keys.key entry) = Some payload ->
  timingSafeEqualString (Crypto.nonce payload) nonce_ = false ->
  exists pre post,
    keyring = pre ++ entry :: post /\
    Forall (fun e => try_key rt envelope (Keys.key e) = None) pre /\
    key_trial rt envelope nonce_ keyring = (TrialNonceMismatch, pre ++ [entry]).
Proof.
  intros Hin Ht Hneq. induction keyring as [|e rest IH]; simpl in *.
  { by apply elem_of_nil in Hin. }
  destruct (try_key rt envelope (Keys.key e)) as [parsed|] eqn:Ee.
  - assert (entry = e) as ->.
    { destruct (negb _); simpl in Hin; by apply list_elem_of_singleton in Hin. }
    rewrite Ee in Ht. injection Ht as ->. rewrite Hneq. simpl.
    exists [], rest. repeat split; try done.
  - destruct (key_trial rt envelope nonce_ rest) as [o tried] eqn:Ek. simpl in *.
    apply elem_of_cons in Hin as [->|Hin]; [congruence|].
    destruct (IH Hin) as (pre & post & -> & Hpre & [= -> ->]).
    exists (e :: pre), post. repeat split; try done. by constructor.
Qed.

(** A key that opens the envelope to a payload with another nonce is
    never passed over: the loop ends in a mismatch, at that key or at an
    earlier one like it, unless an earlier key authenticated first. *)
Lemma key_trial_not_exhausted envelope nonce_ keyring entry payload :
  entry ∈ keyring ->
  try_key rt envelope (Keys.key entry) = Some payload ->
  fst (key_trial rt envelope nonce_ keyring) <> TrialExhausted.
Proof.
  induction keyring as [|e rest IH]; [by intros ?%elem_of_nil|].
  intros Hin Ht. simpl.
  destruct (try_key rt envelope (Keys.key e)) as [parsed|] eqn:Ee.
  - by destruct (negb _).
  - apply elem_of_cons in Hin as [->|Hin]; [congruence|].
    specialize (IH Hin Ht). by destruct (key_trial rt envelope nonce_ rest).
Qed.

End Handshake.

Section HandshakeClaims.

Import Sessions Live.

Context (rt : Runtime) (cfg : Config).

(** [message] touches no session but the sender's. *)
Lemma message_other_sessions keyring p m now w i :
  i <> peer_id p ->
  sessions (fst (message rt cfg keyring p m now w)) !! i = sessions w !! i.
Proof.
  intros Hne. unfold message, handshake.
  repeat (match goal with
          | |- context [match ?x with _ => _ end] => destruct x
          end; simpl; try done);
    by rewrite lookup_insert_ne.
Qed.

(** The handshake branch, entered on a session that is not authorized. *)
Lemma message_challenging keyring p m now w session data :
  sessions w !! peer_id p = Some session ->
  state (auth session) = challenging ->
  Num.gt (Num.of_nat (msg_byteLength m)) (maxMessageBytes cfg) = false ->
  msg_json m = Some data ->
  is_ping data = false ->
  message rt cfg keyring p m now w = handshake rt keyring p session data w.
Proof. intros Hs Hst Hsz Hj Hp. unfold message. by rewrite Hs, Hsz, Hj, Hp, Hst. Qed.

(** C1: processing an inbound message turns a challenging session into an
    authorized one only if the session is the sender's and some entry of
    the keyring has a key under which the message's envelope decrypts to a
    JSON payload whose nonce passes the length-checked constant-time
    comparison with the session's stored nonce: their UTF-8 bytes are
    equal, and the two strings are equal when the stored nonce is ASCII
    text, as the base64url challenge is.  The version recorded is that
    entry's. *)
Theorem C1_authorized_only_by_keyring_key_and_nonce keyring p m now w w' evs i s s' :
  message rt cfg keyring p m now w = (w', evs) ->
  sessions w !! i = Some s ->
  state (auth s) = challenging ->
  sessions w' !! i = Some s' ->
  state (auth s') = authorized ->
  i = peer_id p /\
  exists data envelope entry payload,
    msg_json m = Some data /\
    Crypto.parseAuthEnvelope (envelopeCandidate data) = Some envelope /\
    entry ∈ keyring /\
    authenticates rt envelope (nonce (auth s)) (Keys.key entry) payload /\
    buffer_from_utf8 (Crypto.nonce payload) = buffer_from_utf8 (nonce (auth s)) /\
    (ascii_string (nonce (auth s)) -> Crypto.nonce payload = nonce (auth s)) /\
    version (auth s') = Some (Keys.version entry).
Proof.
  intros Hmsg Hs Hch Hs' Hauth.
  assert (Hsame : w' = w -> False).
  { intros ->. rewrite Hs in Hs'. injection Hs' as <-. congruence. }
  destruct (decide (i = peer_id p)) as [->|Hne].
  2: { pose proof (message_other_sessions keyring p m now w i Hne) as Ho.
       rewrite Hmsg in Ho. simpl in Ho. rewrite Ho, Hs in Hs'.
       injection Hs' as <-. congruence. }
  split; [done|].
  unfold message in Hmsg. rewrite Hs, Hch in Hmsg.
  destruct (Num.gt _ _); [injection Hmsg as <- _; by destruct Hsame|].
  destruct (msg_json m) as [data|]; [|injection Hmsg as <- _; by destruct Hsame].
  destruct (is_ping data); [injection Hmsg as <- _; by destruct Hsame|].
  unfold handshake in Hmsg.
  destruct (Crypto.parseAuthEnvelope (envelopeCandidate data)) as [envelope|] eqn:Ee;
    [|injection Hmsg as <- _; by destruct Hsame].
  destruct (fst (key_trial rt envelope (nonce (auth s)) keyring))
    as [v payload| |] eqn:Ek;
    try (injection Hmsg as <- _; by destruct Hsame).
  destruct (truthy_str v); simpl in Hmsg;
    [|injection Hmsg as <- _; by destruct Hsame].
  injection Hmsg as <- _. simpl in Hs'. rewrite lookup_insert_eq in Hs'.
  injection Hs' as <-.
  destruct (key_trial_authed rt envelope _ keyring v payload Ek)
    as (entry & Hin & -> & Ha).
  exists data, envelope, entry, payload.
  pose proof Ha as (pt & j & Hd & Hj & Hp & Heq).
  split; [done|]. split; [done|]. split; [done|]. split; [done|].
  split; [by apply timingSafeEqualString_spec|].
  split; [|done].
  intros Hascii. by apply (timingSafeEqualString_ascii _ _ Hascii).
Qed.

(** C5: if a key the loop over the keyring tries decrypts the envelope to
    a well-formed payload whose nonce differs from the session's, the
    loop stops at that key: it is the last key tried (the keys before it
    failed to decrypt or to parse, the keys after it are not tried,
    whatever they would have done), and the message is answered by
    closing the connection with the reason "Nonce mismatch", the session
    left as it was. *)
Theorem C5_nonce_mismatch_ends_key_trial
    keyring p m now w session data envelope entry payload :
  sessions w !! peer_id p = Some session ->
  state (auth session) = challenging ->
  Num.gt (Num.of_nat (msg_byteLength m)) (maxMessageBytes cfg) = false ->
  msg_json m = Some data ->
  is_ping data = false ->
  Crypto.parseAuthEnvelope (envelopeCandidate data) = Some envelope ->
  entry ∈ snd (key_trial rt envelope (nonce (auth session)) keyring) ->
  try_key rt envelope (Keys.key entry) = Some payload ->
  timingSafeEqualString (Crypto.nonce payload) (nonce (auth session)) = false ->
  (exists pre post,
     keyring = pre ++ entry :: post /\
     Forall (fun e => try_key rt envelope (Keys.key e) = None) pre /\
     key_trial rt envelope (nonce (auth session)) keyring
     = (TrialNonceMismatch, pre ++ [entry])) /\
  message rt cfg keyring p m now w
    = (w, [Close (peer_id p) 1008 (lit "Nonce mismatch")]).
Proof.
  intros Hs Hst Hsz Hj Hp He Hin Hentry Hneq.
  destruct (key_trial_tried_mismatch rt envelope _ keyring entry payload Hin Hentry Hneq)
    as (pre & post & Hk & Hpre & Htrial).
  split; [by exists pre, post|].
  rewrite (message_challenging _ p m now w session data Hs Hst Hsz Hj Hp).
  unfold handshake. by rewrite He, Htrial.
Qed.

End HandshakeClaims.

Section HandshakeWitnesses.

Import Sessions Live.

(** The fixture's challenge is answered under the second key. *)
Lemma C1_witness :
  peer_id Fixture.peer1 = peer_id Fixture.peer1 /\
  exists data envelope entry payload,
    Live.msg_json (Fixture.msg_of (Fixture.envelope_for 66 Fixture.nonce1)) = Some data /\
    Crypto.parseAuthEnvelope (Live.envelopeCandidate data) = Some envelope /\
    entry ∈ Fixture.keyring /\
    authenticates Fixture.runtime envelope
      (Sessions.nonce (Sessions.auth Fixture.session_open)) (Keys.key entry) payload /\
    buffer_from_utf8 (Crypto.nonce payload)
      = buffer_from_utf8 (Sessions.nonce (Sessions.auth Fixture.session_open)) /\
    (ascii_string (Sessions.nonce (Sessions.auth Fixture.session_open)) ->
     Crypto.nonce payload = Sessions.nonce (Sessions.auth Fixture.session_open)) /\
    Sessions.version (Sessions.auth Fixture.session_authorized)
      = Some (Keys.version entry).
Proof.
  apply (C1_authorized_only_by_keyring_key_and_nonce
           Fixture.runtime Fixture.cfg Fixture.keyring Fixture.peer1
           (Fixture.msg_of (Fixture.envelope_for 66 Fixture.nonce1)) 1001
           Fixture.world_open Fixture.world_authorized
           [Live.ClearTimeout 7;
            Live.Send (peer_id Fixture.peer1)
              (Live.cmd_msg "auth_ok" [(lit "version", JStr (lit "gd-2.207"))])]
           (peer_id Fixture.peer1) Fixture.session_open Fixture.session_authorized);
    vm_compute; reflexivity.
Defined.

(** The second key of three opens the envelope to another nonce: the third
    is not tried. *)
Lemma C5_witness :
  (exists pre post,
     Fixture.keyring3
     = pre ++ {| Keys.version := lit "gd-2.207"; Keys.key := Fixture.key_of 66 |} :: post /\
     Forall (fun e => try_key Fixture.runtime Fixture.stale_envelope (Keys.key e) = None)
       pre /\
     key_trial Fixture.runtime Fixture.stale_envelope
       (nonce (auth Fixture.session_open)) Fixture.keyring3
     = (TrialNonceMismatch,
        pre ++ [ {| Keys.version := lit "gd-2.207"; Keys.key := Fixture.key_of 66 |} ])) /\
  message Fixture.runtime Fixture.cfg Fixture.keyring3 Fixture.peer1
    (Fixture.msg_of (Fixture.envelope_for 66 (lit "c3RhbGU"))) 1001 Fixture.world_open
    = (Fixture.world_open, [Close (peer_id Fixture.peer1) 1008 (lit "Nonce mismatch")]).
Proof.
  apply (C5_nonce_mismatch_ends_key_trial
           Fixture.runtime Fixture.cfg Fixture.keyring3 Fixture.peer1
           (Fixture.msg_of (Fixture.envelope_for 66 (lit "c3RhbGU"))) 1001
           Fixture.world_open Fixture.session_open
           (Fixture.envelope_for 66 (lit "c3RhbGU"))
           Fixture.stale_envelope
           {| Keys.version := lit "gd-2.207"; Keys.key := Fixture.key_of 66 |}
           {| Crypto.nonce := lit "c3RhbGU" |});
    try (vm_compute; reflexivity).
  vm_compute. apply list_elem_of_further, list_elem_of_here.
Defined.

(** The keys tried are the first two of the three. *)
Example stale_nonce_scenario :
  key_trial Fixture.runtime Fixture.stale_envelope
    (nonce (auth Fixture.session_open)) Fixture.keyring3
  = (TrialNonceMismatch, Fixture.keyring).
Proof. vm_compute; reflexivity. Qed.

End HandshakeWitnesses.

(** ** The per-frame plausibility loop *)

Section Frames.

Import Sessions Live.

Context (cfg : Config).

Lemma frames_loop_app lc pre rest :
  frames_loop cfg lc (pre ++ rest) =
  match frames_loop cfg lc pre with
  | (c, None) => frames_loop cfg c rest
  | (c, Some reason) => (c, Some reason)
  end.
Proof.
  revert lc. induction pre as [|f pre IH]; intros lc; simpl; [done|].
  destruct (check_frame cfg lc f); by rewrite ?IH.
Qed.

(** A loop that ends in a kill was stopped by one frame; the baseline it
    leaves is the one the frames before that frame built. *)
Lemma frames_loop_killed lc fs c reason :
  frames_loop cfg lc fs = (c, Some reason) ->
  exists pre f post,
    fs = pre ++ f :: post /\
    frames_loop cfg lc pre = (c, None) /\
    check_frame cfg c f = FrameKill reason.
Proof.
  revert lc. induction fs as [|f fs IH]; intros lc; simpl; [done|].
  destruct (check_frame cfg lc f) as [|r|c0] eqn:Ef.
  - intros H. destruct (IH _ H) as (pre & g & post & -> & Hpre & Hg).
    exists (f :: pre), g, post. simpl. by rewrite Ef.
  - intros [= <- <-]. by exists [], f, fs.
  - intros H. destruct (IH _ H) as (pre & g & post & -> & Hpre & Hg).
    exists (f :: pre), g, post. simpl. by rewrite Ef.
Qed.

Lemma check_frame_kill_reason lc f reason :
  check_frame cfg lc f = FrameKill reason ->
  In reason ["Invalid coordinates"; "Impossible coordinates"; "Impossible movement"]%string.
Proof.
  unfold check_frame.
  repeat (match goal with
          | |- context [match ?x with _ => _ end] => destruct x
          end; try done);
    intros [= <-]; simpl; auto.
Qed.

(** A frame that passes sets the baseline to finite coordinates. *)
Lemma check_frame_pass_finite lc f c :
  check_frame cfg lc f = FramePass c -> coord_finite (Some c).
Proof.
  unfold check_frame.
  destruct (negb (is_object_like f)); [done|].
  destruct (prop (lit "x") f) as [[| |xv| | |]|]; try done;
    destruct (prop (lit "y") f) as [[| |yv| | |]|]; try done.
  destruct (Num.isFinite xv) eqn:Ex, (Num.isFinite yv) eqn:Ey; simpl; try done.
  destruct (_ || _); [done|].
  destruct lc as [l|]; [destruct (_ || _); [done|]|]; by intros [= <-].
Qed.

Lemma frames_loop_coord_finite lc fs :
  coord_finite lc -> coord_finite (fst (frames_loop cfg lc fs)).
Proof.
  revert lc. induction fs as [|f fs IH]; intros lc Hlc; simpl; [done|].
  destruct (check_frame cfg lc f) as [|r|c] eqn:Ef; simpl; auto.
  apply IH. by apply (check_frame_pass_finite lc f).
Qed.

(** C7: a frame with both coordinates present as finite numbers passes
    exactly when each axis is within the absolute bound and, when a
    baseline exists, within the delta bound of the baseline, the bounds
    included; a frame that passes becomes the baseline the next frame of
    the batch is checked against, and one that does not ends the loop
    with a kill.  The bounds are numbers (not NaN, as [readNumberEnv]
    ensures) and the baseline is finite (as every baseline the loop sets
    is). *)
Theorem C7_frame_passes_iff_within_bounds lc frame xv yv rest :
  prop (lit "x") frame = Some (JNum xv) ->
  prop (lit "y") frame = Some (JNum yv) ->
  Num.isFinite xv = true ->
  Num.isFinite yv = true ->
  is_nan (maxAbsCoord cfg) = false ->
  is_nan (maxCoordDelta cfg) = false ->
  coord_finite lc ->
  let c := {| x := xv; y := yv |} in
  (within_bounds cfg lc xv yv = true <-> check_frame cfg lc frame = FramePass c) /\
  (within_bounds cfg lc xv yv = true ->
     frames_loop cfg lc (frame :: rest) = frames_loop cfg (Some c) rest) /\
  (within_bounds cfg lc xv yv = false ->
     exists reason,
       check_frame cfg lc frame = FrameKill reason /\
       frames_loop cfg lc (frame :: rest) = (lc, Some reason)).
Proof.
  intros Hx Hy Hfx Hfy Hna Hnd Hlc c.
  assert (Hobj : is_object_like frame = true) by (by destruct frame).
  assert (Hcf : check_frame cfg lc frame =
                if within_bounds cfg lc xv yv then FramePass c
                else if Num.gt (PrimFloat.abs xv) (maxAbsCoord cfg)
                        || Num.gt (PrimFloat.abs yv) (maxAbsCoord cfg)
                     then FrameKill "Impossible coordinates"
                     else FrameKill "Impossible movement").
  { unfold check_frame, within_bounds. rewrite Hobj, Hx, Hy, Hfx, Hfy. simpl.
    pose proof (FloatFacts.finite_not_nan _ Hfx) as Hnx.
    pose proof (FloatFacts.finite_not_nan _ Hfy) as Hny.
    rewrite !FloatFacts.not_gt_le
      by (done || by apply FloatFacts.abs_not_nan).
    destruct (PrimFloat.abs xv <=? maxAbsCoord cfg)%float; simpl; [|done].
    destruct (PrimFloat.abs yv <=? maxAbsCoord cfg)%float; simpl; [|done].
    destruct lc as [l|]; [|done]. destruct Hlc as [Hlx Hly].
    rewrite !FloatFacts.not_gt_le
      by (done || by apply FloatFacts.abs_not_nan, FloatFacts.sub_finite_not_nan).
    destruct (PrimFloat.abs (xv - x l) <=? maxCoordDelta cfg)%float; simpl; [|done].
    by destruct (PrimFloat.abs (yv - y l) <=? maxCoordDelta cfg)%float. }
  repeat split.
  - intros Hw. by rewrite Hcf, Hw.
  - rewrite Hcf. destruct (within_bounds cfg lc xv yv); [done|].
    by destruct (_ || _).
  - intros Hw. simpl. by rewrite Hcf, Hw.
  - intros Hw. rewrite Hw in Hcf. simpl. rewrite Hcf.
    destruct (_ || _); by eexists.
Qed.

(** C9: a frame that is not an object (null, a boolean, a number, a
    string) is skipped: whatever the baseline, the loop over a batch with
    it is the loop over the batch without it, and so is the loop with a
    frame that lacks a coordinate in its place; it is counted by the
    batch-size check all the same, which is made on the length of the
    whole batch. *)
Theorem C9_non_object_frame_skipped_but_counted f :
  is_object_like f = false ->
  (forall lc, check_frame cfg lc f = FrameSkip) /\
  (forall lc pre post,
     frames_loop cfg lc (pre ++ f :: post) = frames_loop cfg lc (pre ++ post)) /\
  (forall g lc pre post,
     is_object_like g = true ->
     prop (lit "x") g = None \/ prop (lit "y") g = None ->
     frames_loop cfg lc (pre ++ f :: post) = frames_loop cfg lc (pre ++ g :: post)) /\
  (forall now t s pct pre post,
     let m := {| seq := s; current_pct := pct; frames := pre ++ f :: post |} in
     let m' := {| seq := s; current_pct := pct; frames := pre ++ post |} in
     length (frames m) = S (length (frames m')) /\
     (Num.gt (Num.of_nat (S (length (frames m')))) (maxFramesPerChunk cfg) = true ->
      exists reason,
        snd (validate_telemetry cfg now t m) = Some reason /\
        In reason ["Sequence mismatch"; "Invalid time delta"; "Speedhack (pct jump)";
                   "Too many frames"]%string) /\
     (Num.gt (Num.of_nat (S (length (frames m')))) (maxFramesPerChunk cfg) = false ->
      Num.gt (Num.of_nat (length (frames m'))) (maxFramesPerChunk cfg) = false ->
      validate_telemetry cfg now t m = validate_telemetry cfg now t m')).
Proof.
  intros Hf.
  assert (Hskip : forall lc, check_frame cfg lc f = FrameSkip).
  { intros lc. unfold check_frame. by rewrite Hf. }
  assert (Hdrop : forall lc pre post,
             frames_loop cfg lc (pre ++ f :: post) = frames_loop cfg lc (pre ++ post)).
  { intros lc pre post. rewrite !frames_loop_app.
    destruct (frames_loop cfg lc pre) as [c [r|]]; [done|].
    simpl. by rewrite Hskip. }
  repeat split.
  - done.
  - done.
  - intros g lc pre post Hg Hmiss. rewrite Hdrop, !frames_loop_app.
    destruct (frames_loop cfg lc pre) as [c [r|]]; [done|].
    simpl. unfold check_frame. rewrite Hg. simpl.
    destruct Hmiss as [-> | Hy]; [done|]. rewrite Hy.
    by destruct (prop (lit "x") g).
  - simpl. rewrite !length_app. simpl. lia.
  - simpl. intros Hgt. unfold validate_telemetry. simpl.
    destruct (Num.neq s (expectedSeq t)); [eexists; split; [done|simpl; auto]|].
    destruct (lastAt t) as [la|], (lastPct t) as [lp|];
      try (assert (length (pre ++ f :: post) = S (length (pre ++ post))) as ->
             by (rewrite !length_app; simpl; lia);
           rewrite Hgt; eexists; split; [done|simpl; auto 6]).
    unfold rate_check.
    destruct (_ <=? _)%float; [eexists; split; [done|simpl; auto]|].
    assert (length (pre ++ f :: post) = S (length (pre ++ post))) as ->
      by (rewrite !length_app; simpl; lia).
    destruct (Num.ge _ _); [destruct (Num.gt (pct - lp) _)|];
      rewrite ?Hgt; eexists; (split; [done|simpl; auto 6]).
  - simpl. intros Hle1 Hle0. unfold validate_telemetry. simpl.
    destruct (Num.neq s (expectedSeq t)); [done|].
    match goal with |- context [match ?r with Some _ => _ | None => _ end] =>
      destruct r as [reason|] end; [done|].
    assert (length (pre ++ f :: post) = S (length (pre ++ post))) as ->
      by (rewrite !length_app; simpl; lia).
    by rewrite Hle1, Hle0, Hdrop.
Qed.

End Frames.

Section FramesExamples.

Import Sessions Live.

(** A frame one delta bound away from the baseline (0, 0) passes and is
    the baseline of the frame after it. *)
Lemma C7_witness :
  let c := {| x := 20000; y := 0 |} in
  let lc := Some {| x := 0; y := 0 |} in
  (within_bounds Fixture.cfg lc 20000 0 = true <->
   check_frame Fixture.cfg lc (Fixture.frame_of 20000 0) = FramePass c) /\
  (within_bounds Fixture.cfg lc 20000 0 = true ->
   frames_loop Fixture.cfg lc [Fixture.frame_of 20000 0; Fixture.frame_of 40001 0]
   = frames_loop Fixture.cfg (Some c) [Fixture.frame_of 40001 0]) /\
  (within_bounds Fixture.cfg lc 20000 0 = false ->
   exists reason,
     check_frame Fixture.cfg lc (Fixture.frame_of 20000 0) = FrameKill reason /\
     frames_loop Fixture.cfg lc [Fixture.frame_of 20000 0; Fixture.frame_of 40001 0]
     = (lc, Some reason)).
Proof.
  apply (C7_frame_passes_iff_within_bounds Fixture.cfg
           (Some {| x := 0; y := 0 |}) (Fixture.frame_of 20000 0) 20000 0
           [Fixture.frame_of 40001 0]);
    try (vm_compute; reflexivity).
  split; vm_compute; reflexivity.
Defined.

(** The bounds are inclusive: 10,000,000 is a possible coordinate and
    10,000,001 is not. *)
Example coordinate_bound_inclusive :
  check_frame Fixture.cfg None (Fixture.frame_of 10000000 0)
    = FramePass {| x := 10000000; y := 0 |} /\
  check_frame Fixture.cfg None (Fixture.frame_of 10000001 0)
    = FrameKill "Impossible coordinates" /\
  check_frame Fixture.cfg None (Fixture.frame_of 0 (-10000001))
    = FrameKill "Impossible coordinates".
Proof. repeat split; vm_compute; reflexivity. Qed.

(** Consecutive frames of one batch: (0,0) then (20000,0) pass, (0,0) then
    (20001,0) end in a kill with the baseline left at (0,0); three frames
    20000 apart pass although the last is 40000 from the first. *)
Example coordinate_delta_within_batch :
  frames_loop Fixture.cfg None [Fixture.frame_of 0 0; Fixture.frame_of 20000 0]
    = (Some {| x := 20000; y := 0 |}, None) /\
  frames_loop Fixture.cfg None [Fixture.frame_of 0 0; Fixture.frame_of 20001 0]
    = (Some {| x := 0; y := 0 |}, Some "Impossible movement"%string) /\
  frames_loop Fixture.cfg None
    [Fixture.frame_of 0 0; Fixture.frame_of 20000 0; Fixture.frame_of 40000 0]
    = (Some {| x := 40000; y := 0 |}, None).
Proof. repeat split; vm_compute; reflexivity. Qed.

(** [null] among the frames. *)
Lemma C9_witness :
  (forall lc, check_frame Fixture.cfg lc JNull = FrameSkip) /\
  (forall lc pre post,
     frames_loop Fixture.cfg lc (pre ++ JNull :: post)
     = frames_loop Fixture.cfg lc (pre ++ post)) /\
  (forall g lc pre post,
     is_object_like g = true ->
     prop (lit "x") g = None \/ prop (lit "y") g = None ->
     frames_loop Fixture.cfg lc (pre ++ JNull :: post)
     = frames_loop Fixture.cfg lc (pre ++ g :: post)) /\
  (forall now t s pct pre post,
     let m := {| seq := s; current_pct := pct; frames := pre ++ JNull :: post |} in
     let m' := {| seq := s; current_pct := pct; frames := pre ++ post |} in
     length (frames m) = S (length (frames m')) /\
     (Num.gt (Num.of_nat (S (length (frames m')))) (maxFramesPerChunk Fixture.cfg) = true ->
      exists reason,
        snd (validate_telemetry Fixture.cfg now t m) = Some reason /\
        In reason ["Sequence mismatch"; "Invalid time delta"; "Speedhack (pct jump)";
                   "Too many frames"]%string) /\
     (Num.gt (Num.of_nat (S (length (frames m')))) (maxFramesPerChunk Fixture.cfg) = false ->
      Num.gt (Num.of_nat (length (frames m'))) (maxFramesPerChunk Fixture.cfg) = false ->
      validate_telemetry Fixture.cfg now t m = validate_telemetry Fixture.cfg now t m')).
Proof.
  apply (C9_non_object_frame_skipped_but_counted Fixture.cfg JNull).
  reflexivity.
Defined.

(** Six hundred frames are a batch; a [null] more and the batch is too
    large, although the [null] is not looked at. *)
Example null_frame_counts_toward_limit :
  let t := telemetry Fixture.session_authorized in
  let batch := repeat (Fixture.frame_of 1 1) 600 in
  snd (validate_telemetry Fixture.cfg 2000 t
         {| seq := 1; current_pct := 10; frames := batch |}) = None /\
  snd (validate_telemetry Fixture.cfg 2000 t
         {| seq := 1; current_pct := 10; frames := JNull :: batch |})
    = Some "Too many frames"%string.
Proof. split; vm_compute; reflexivity. Qed.

End FramesExamples.

(** ** The progress-rate check *)

Section Rate.

Import Sessions Live.

Context (cfg : Config).

(** With finite limits, finite percents and a finite elapsed time, the
    limit is a number, and not exceeding it is being at most it. *)
Lemma not_exceeding_is_le now la lp pct :
  let dtSec := ((now - la) / 1000)%float in
  let deltaPct := (pct - lp)%float in
  let maxAllowed := (maxPctBurst cfg + maxPctPerSecond cfg * dtSec)%float in
  config_finite cfg ->
  Num.isFinite pct = true -> Num.isFinite lp = true -> Num.isFinite dtSec = true ->
  Num.gt deltaPct maxAllowed = negb (deltaPct <=? maxAllowed)%float.
Proof.
  intros dtSec deltaPct maxAllowed (_ & _ & _ & Hr & Hb & _) Hp Hl Hdt.
  apply FloatFacts.not_gt_le.
  - by apply FloatFacts.sub_finite_not_nan.
  - apply FloatFacts.add_finite_not_nan; [done|].
    by apply FloatFacts.mul_finite_not_nan.
Qed.

(** C6 (amended): with a positive elapsed time, a negative percent delta
    passes the progress-rate check whatever the limits are; a delta that
    is zero or positive passes exactly when it does not exceed
    [maxPctBurst + maxPctPerSecond * dtSec] (a delta equal to that sum
    passes), and is a "Speedhack (pct jump)" kill when it does; with
    finite limits, percents and elapsed time, not exceeding the sum is
    being at most the sum. *)
Theorem C6_rate_check_by_delta now la lp pct :
  let dtSec := ((now - la) / 1000)%float in
  let deltaPct := (pct - lp)%float in
  let maxAllowed := (maxPctBurst cfg + maxPctPerSecond cfg * dtSec)%float in
  (0 <? dtSec)%float = true ->
  ((deltaPct <? 0)%float = true -> rate_check cfg now la lp pct = None) /\
  ((0 <=? deltaPct)%float = true ->
     (rate_check cfg now la lp pct = None <-> Num.gt deltaPct maxAllowed = false) /\
     (Num.gt deltaPct maxAllowed = true ->
        rate_check cfg now la lp pct = Some "Speedhack (pct jump)"%string) /\
     ((deltaPct =? maxAllowed)%float = true -> rate_check cfg now la lp pct = None) /\
     (config_finite cfg -> Num.isFinite pct = true -> Num.isFinite lp = true ->
      Num.isFinite dtSec = true ->
      (rate_check cfg now la lp pct = None <-> (deltaPct <=? maxAllowed)%float = true))).
Proof.
  intros dtSec deltaPct maxAllowed Hdt.
  assert (Hle : (dtSec <=? 0)%float = false) by (by apply FloatFacts.lt_not_ge in Hdt).
  unfold rate_check. fold dtSec. rewrite Hle. fold deltaPct. fold maxAllowed.
  split.
  - intros Hneg. by rewrite (FloatFacts.lt_not_ge _ _ Hneg).
  - intros Hpos. unfold Num.ge. rewrite Hpos.
    assert (Hle' : config_finite cfg -> Num.isFinite pct = true ->
                   Num.isFinite lp = true -> Num.isFinite dtSec = true ->
                   Num.gt deltaPct maxAllowed = negb (deltaPct <=? maxAllowed)%float)
      by apply not_exceeding_is_le.
    destruct (Num.gt deltaPct maxAllowed) eqn:Hgt.
    + split; [done|]. split; [done|]. split.
      * intros Heq. apply FloatFacts.eq_not_gt in Heq. congruence.
      * intros Hc Hfp Hfl Hfd. specialize (Hle' Hc Hfp Hfl Hfd).
        destruct (deltaPct <=? maxAllowed)%float; simpl in Hle'; [discriminate|done].
    + split; [done|]. split; [done|]. split; [done|].
      intros Hc Hfp Hfl Hfd. specialize (Hle' Hc Hfp Hfl Hfd).
      destruct (deltaPct <=? maxAllowed)%float; simpl in Hle'; [done|discriminate].
Qed.

(** The check is the one the handler makes once a baseline exists. *)
Lemma validate_telemetry_rate now t m la lp reason :
  Num.neq (seq m) (expectedSeq t) = false ->
  lastAt t = Some la -> lastPct t = Some lp ->
  rate_check cfg now la lp (current_pct m) = Some reason ->
  validate_telemetry cfg now t m
  = (with_expectedSeq (expectedSeq t + 1)%float t, Some reason).
Proof.
  intros Hseq Hla Hlp Hr. unfold validate_telemetry. rewrite Hseq. simpl.
  by rewrite Hla, Hlp, Hr.
Qed.

End Rate.

Section RateExamples.

Import Sessions Live.

(** Under the default limits (burst 5, 20 per second) and 100 ms after
    the baseline, a rise of 7 is the boundary. *)
Lemma C6_witness :
  ((17 - 10 <? 0)%float = true -> rate_check Fixture.cfg 2100 2000 10 17 = None) /\
  ((0 <=? 17 - 10)%float = true ->
     (rate_check Fixture.cfg 2100 2000 10 17 = None <->
      Num.gt (17 - 10)
        (maxPctBurst Fixture.cfg + maxPctPerSecond Fixture.cfg * ((2100 - 2000) / 1000))
      = false) /\
     (Num.gt (17 - 10)
        (maxPctBurst Fixture.cfg + maxPctPerSecond Fixture.cfg * ((2100 - 2000) / 1000))
      = true ->
      rate_check Fixture.cfg 2100 2000 10 17 = Some "Speedhack (pct jump)"%string) /\
     ((17 - 10 =? maxPctBurst Fixture.cfg
                  + maxPctPerSecond Fixture.cfg * ((2100 - 2000) / 1000))%float = true ->
      rate_check Fixture.cfg 2100 2000 10 17 = None) /\
     (config_finite Fixture.cfg -> Num.isFinite 17 = true -> Num.isFinite 10 = true ->
      Num.isFinite ((2100 - 2000) / 1000) = true ->
      (rate_check Fixture.cfg 2100 2000 10 17 = None <->
       (17 - 10 <=? maxPctBurst Fixture.cfg
                    + maxPctPerSecond Fixture.cfg * ((2100 - 2000) / 1000))%float = true))).
Proof.
  apply (C6_rate_check_by_delta Fixture.cfg 2100 2000 10 17).
  vm_compute; reflexivity.
Defined.

(** burst 5, rate 20 per second: after 100 ms a rise of exactly 7 passes,
    a rise of 8 does not; after 1 s the boundary is 25; a fall from 40 to
    5 passes. *)
Example rate_boundary_default_config :
  rate_check Fixture.cfg 2100 2000 10 17 = None /\
  rate_check Fixture.cfg 2100 2000 10 18 = Some "Speedhack (pct jump)"%string /\
  rate_check Fixture.cfg 3000 2000 10 35 = None /\
  rate_check Fixture.cfg 3000 2000 10 36 = Some "Speedhack (pct jump)"%string /\
  rate_check Fixture.cfg 2001 2000 40 5 = None /\
  rate_check Fixture.cfg 2000 2000 40 5 = Some "Invalid time delta"%string.
Proof. repeat split; vm_compute; reflexivity. Qed.

(** C6 as stated fails: the limits are whatever finite numbers the
    environment gives, and with [LIVE_LINK_MAX_PCT_BURST=-10] a delta of
    zero, 100 ms after the baseline, exceeds [-10 + 20 * 0.1] and is a
    kill, where the statement has a zero delta always pass. *)
Lemma C6_counterexample :
  maxPctBurst Fixture.cfg_negative_burst = (-10)%float /\
  maxPctPerSecond Fixture.cfg_negative_burst = 20%float /\
  (0 <? (2100 - 2000) / 1000)%float = true /\
  (10 - 10 =? 0)%float = true /\
  rate_check Fixture.cfg_negative_burst 2100 2000 10 10
    = Some "Speedhack (pct jump)"%string.
Proof. repeat split; vm_compute; reflexivity. Qed.

End RateExamples.

(** ** Telemetry messages on an authorized session *)

Section Telemetry.

Import Sessions Live.

Context (rt : Runtime) (cfg : Config).

Lemma validate_telemetry_sequence now t m :
  (if (seq m =? expectedSeq t)%float
   then expectedSeq (fst (validate_telemetry cfg now t m)) = (expectedSeq t + 1)%float
   else validate_telemetry cfg now t m = (t, Some "Sequence mismatch"%string)).
Proof.
  unfold validate_telemetry, Num.neq.
  destruct (seq m =? expectedSeq t)%float; simpl; [|done].
  match goal with |- context [match ?r with Some _ => _ | None => _ end] =>
    destruct r as [reason|] end; [done|].
  destruct (Num.gt _ _); [done|].
  by destruct (frames_loop _ _ _).
Qed.

(** Where a kill leaves the baselines: at the sequence and rate steps
    they are untouched; from the batch-size step on, the time and percent
    baselines are already those of this message. *)
Lemma validate_telemetry_killed now t m t' reason :
  validate_telemetry cfg now t m = (t', Some reason) ->
  (In reason ["Sequence mismatch"; "Invalid time delta"; "Speedhack (pct jump)"]%string /\
   lastAt t' = lastAt t /\ lastPct t' = lastPct t /\ lastCoord t' = lastCoord t)
  \/
  (lastAt t' = Some now /\ lastPct t' = Some (current_pct m) /\
   ((reason = "Too many frames"%string /\ lastCoord t' = lastCoord t)
    \/ (exists pre f post,
          frames m = pre ++ f :: post /\
          frames_loop cfg (lastCoord t) pre = (lastCoord t', None) /\
          check_frame cfg (lastCoord t') f = FrameKill reason /\
          In reason ["Invalid coordinates"; "Impossible coordinates";
                     "Impossible movement"]%string))).
Proof.
  unfold validate_telemetry.
  destruct (Num.neq (seq m) (expectedSeq t)).
  { intros [= <- <-]. left. simpl. auto. }
  simpl.
  destruct (lastAt t) as [la|] eqn:Hla, (lastPct t) as [lp|] eqn:Hlp; simpl.
  1: destruct (rate_check cfg now la lp (current_pct m)) as [r|] eqn:Hr.
  1: { intros [= <- <-]. left. simpl. rewrite Hla, Hlp. repeat split; try done.
       unfold rate_check in Hr.
       destruct (_ <=? _)%float; [injection Hr as <-; simpl; auto|].
       destruct (Num.ge _ _); [|done]. destruct (Num.gt _ _); [|done].
       injection Hr as <-. simpl. auto. }
  all: destruct (Num.gt (Num.of_nat (length (frames m))) (maxFramesPerChunk cfg));
    [ intros [= <- <-]; right; simpl; auto
    | simpl;
      destruct (frames_loop cfg (lastCoord t) (frames m)) as [c k] eqn:Hloop;
      intros [= <- ->]; right; simpl; repeat split; try done; right;
      destruct (frames_loop_killed cfg _ _ _ _ Hloop) as (pre & f & post & ? & ? & Hf);
      exists pre, f, post; repeat split; try done;
      by apply (check_frame_kill_reason cfg c f) ].
Qed.

(** The coordinate baseline stays finite, whatever the message. *)
Lemma validate_telemetry_coord_finite now t m :
  coord_finite (lastCoord t) ->
  coord_finite (lastCoord (fst (validate_telemetry cfg now t m))).
Proof.
  intros Hc. unfold validate_telemetry.
  destruct (Num.neq _ _); [done|]. simpl.
  match goal with |- context [match ?r with Some _ => _ | None => _ end] =>
    destruct r as [reason|] end; [done|].
  destruct (Num.gt _ _); [done|].
  pose proof (frames_loop_coord_finite cfg (lastCoord t) (frames m) Hc) as Hl.
  by destruct (frames_loop cfg (lastCoord t) (frames m)).
Qed.

(** The telemetry branch, entered on an authorized session. *)
Lemma message_authorized keyring p m now w session data :
  sessions w !! peer_id p = Some session ->
  state (auth session) = authorized ->
  Num.gt (Num.of_nat (msg_byteLength m)) (maxMessageBytes cfg) = false ->
  msg_json m = Some data ->
  is_ping data = false ->
  message rt cfg keyring p m now w =
  ({| sessions :=
        <[peer_id p :=
            with_telemetry (fst (handle_telemetry cfg now (telemetry session) data)) session]>
          (sessions w);
      contexts := contexts w |},
   match snd (handle_telemetry cfg now (telemetry session) data) with
   | Some reason => killAndClose p reason
   | None => []
   end).
Proof.
  intros Hs Hst Hsz Hj Hp. unfold message. rewrite Hs, Hsz, Hj, Hp, Hst.
  by destruct (handle_telemetry cfg now (telemetry session) data).
Qed.

Lemma not_killed_nil p : ~ killed p [].
Proof. unfold killed. by intros H%elem_of_nil. Qed.

Lemma not_killed_pong p now : ~ killed p (sendJson p (cmd_msg "pong" [(lit "t", JNum now)])).
Proof.
  unfold killed, sendJson. intros H%list_elem_of_singleton.
  injection H as H. vm_compute in H. discriminate.
Qed.

Lemma killed_killAndClose p reason : killed p (killAndClose p reason).
Proof. unfold killed, killAndClose, sendJson. simpl. left. Qed.

(** C2 (amended): when a message to an authorized session is answered by a
    kill, the kill names one reason.  At the size, JSON, shape, sequence
    and progress-rate steps the three baselines are as before the
    message.  At the batch-size and per-frame steps [lastAt] and
    [lastPct] are already those of this message (they are written after
    the progress-rate step); [lastCoord] is unchanged at the batch-size
    step, and at a failing frame it is the baseline left by the frames
    before that frame. *)
Theorem C2_baselines_at_a_kill keyring p m now w session w' evs :
  sessions w !! peer_id p = Some session ->
  state (auth session) = authorized ->
  message rt cfg keyring p m now w = (w', evs) ->
  killed p evs ->
  exists session' reason,
    sessions w' !! peer_id p = Some session' /\
    evs = killAndClose p reason /\
    let t := telemetry session in
    let t' := telemetry session' in
    (In reason ["Message too large"; "Invalid JSON"; "Bad telemetry";
                "Sequence mismatch"; "Invalid time delta";
                "Speedhack (pct jump)"]%string /\
     lastAt t' = lastAt t /\ lastPct t' = lastPct t /\ lastCoord t' = lastCoord t)
    \/
    (exists data tm,
       msg_json m = Some data /\ TelemetrySchema data = Some tm /\
       lastAt t' = Some now /\ lastPct t' = Some (current_pct tm) /\
       ((reason = "Too many frames"%string /\ lastCoord t' = lastCoord t)
        \/ (exists pre f post,
              frames tm = pre ++ f :: post /\
              frames_loop cfg (lastCoord t) pre = (lastCoord t', None) /\
              check_frame cfg (lastCoord t') f = FrameKill reason /\
              In reason ["Invalid coordinates"; "Impossible coordinates";
                         "Impossible movement"]%string))).
Proof.
  intros Hs Hst Hmsg Hk.
  destruct (Num.gt (Num.of_nat (msg_byteLength m)) (maxMessageBytes cfg)) eqn:Hsz.
  { unfold message in Hmsg. rewrite Hs, Hsz in Hmsg. injection Hmsg as <- <-.
    exists session, "Message too large"%string. repeat split; try done.
    left. simpl. auto. }
  destruct (msg_json m) as [data|] eqn:Hj.
  2: { unfold message in Hmsg. rewrite Hs, Hsz, Hj in Hmsg. injection Hmsg as <- <-.
       exists session, "Invalid JSON"%string. repeat split; try done.
       left. simpl. auto. }
  destruct (is_ping data) eqn:Hp.
  { unfold message in Hmsg. rewrite Hs, Hsz, Hj, Hp in Hmsg. injection Hmsg as <- <-.
    by apply not_killed_pong in Hk. }
  rewrite (message_authorized keyring p m now w session data Hs Hst Hsz Hj Hp) in Hmsg.
  injection Hmsg as <- <-.
  unfold handle_telemetry in *.
  destruct (TelemetrySchema data) as [tm|] eqn:Htm.
  2: { eexists. exists "Bad telemetry"%string. simpl. rewrite lookup_insert_eq.
       repeat split; try done. left. simpl. auto. }
  destruct (validate_telemetry cfg now (telemetry session) tm) as [t' [reason|]] eqn:Hv;
    simpl in *; [|by apply not_killed_nil in Hk].
  eexists. exists reason. rewrite lookup_insert_eq. repeat split; try done.
  destruct (validate_telemetry_killed now _ tm t' reason Hv)
    as [(Hin & ? & ? & ?)|(? & ? & Hrest)].
  - left. repeat split; try done. simpl in *. tauto.
  - right. exists data, tm. repeat split; done.
Qed.

(** C3 (amended): [open] creates the session with [expectedSeq] 1; a
    message that gets as far as the sequence check with the expected
    [seq] adds 1 to [expectedSeq] there and then ([expectedSeq++], the
    addition of JS numbers, which on a count below 2^53 - 1 is the next
    count), whatever the later steps decide; with another [seq] it is a "Sequence mismatch" kill
    that leaves the telemetry state as it was; a message that does not
    get that far leaves it as it was too.  In particular an accepted
    telemetry message (no kill, no reply) adds exactly 1. *)
Theorem C3_expectedSeq_steps keyring p m now w session w' evs :
  sessions w !! peer_id p = Some session ->
  message rt cfg keyring p m now w = (w', evs) ->
  (forall nonce_ t0 timer w0,
     exists s0,
       sessions (fst (open cfg keyring p nonce_ t0 timer w0)) !! peer_id p = Some s0 /\
       expectedSeq (telemetry s0) = Num.of_nat 1) /\
  (forall n,
     expectedSeq (telemetry session) = Num.of_nat n -> Z.of_nat n + 1 < 2 ^ 53 ->
     (expectedSeq (telemetry session) + 1)%float = Num.of_nat (S n)) /\
  exists session',
    sessions w' !! peer_id p = Some session' /\
    (forall tm,
       reaches_sequence_check cfg session m tm ->
       if (seq tm =? expectedSeq (telemetry session))%float
       then expectedSeq (telemetry session')
            = (expectedSeq (telemetry session) + 1)%float
       else evs = killAndClose p "Sequence mismatch" /\
            telemetry session' = telemetry session) /\
    ((forall tm, ~ reaches_sequence_check cfg session m tm) ->
     telemetry session' = telemetry session) /\
    (state (auth session) = authorized -> evs = [] ->
     expectedSeq (telemetry session') = (expectedSeq (telemetry session) + 1)%float).
Proof.
  intros Hs Hmsg. split.
  { intros nonce_ t0 timer w0. unfold open.
    destruct (length keyring =? 0)%nat; simpl; rewrite lookup_insert_eq; by eexists. }
  split.
  { intros n -> Hn. by apply FloatFacts.of_nat_succ_exact. }
  assert (Hsame : w' = w -> (evs <> [] \/ state (auth session) = challenging) ->
            (forall tm, ~ reaches_sequence_check cfg session m tm) ->
            exists session',
              sessions w' !! peer_id p = Some session' /\
              (forall tm,
                 reaches_sequence_check cfg session m tm ->
                 if (seq tm =? expectedSeq (telemetry session))%float
                 then expectedSeq (telemetry session')
                      = (expectedSeq (telemetry session) + 1)%float
                 else evs = killAndClose p "Sequence mismatch" /\
                      telemetry session' = telemetry session) /\
              ((forall tm, ~ reaches_sequence_check cfg session m tm) ->
               telemetry session' = telemetry session) /\
              (state (auth session) = authorized -> evs = [] ->
               expectedSeq (telemetry session')
               = (expectedSeq (telemetry session) + 1)%float)).
  { intros -> Hev Hnr. exists session. repeat split; try done.
    - intros tm Hr. by destruct (Hnr tm).
    - intros Ha He. destruct Hev; congruence. }
  destruct (Num.gt (Num.of_nat (msg_byteLength m)) (maxMessageBytes cfg)) eqn:Hsz.
  { unfold message in Hmsg. rewrite Hs, Hsz in Hmsg. injection Hmsg as <- <-.
    apply Hsame; [done|by left|]. intros tm (_ & Hn & _). congruence. }
  destruct (msg_json m) as [data|] eqn:Hj.
  2: { unfold message in Hmsg. rewrite Hs, Hsz, Hj in Hmsg. injection Hmsg as <- <-.
       apply Hsame; [done|by left|]. intros tm (_ & _ & d & Hd & _). congruence. }
  destruct (is_ping data) eqn:Hp.
  { unfold message in Hmsg. rewrite Hs, Hsz, Hj, Hp in Hmsg. injection Hmsg as <- <-.
    apply Hsame; [done|by left|].
    intros tm (_ & _ & d & Hd & Hnp & _). congruence. }
  destruct (state (auth session)) eqn:Hst.
  { (* handshake *)
    rewrite (message_challenging rt cfg keyring p m now w session data Hs Hst Hsz Hj Hp)
      in Hmsg.
    assert (Hnr : forall tm, ~ reaches_sequence_check cfg session m tm).
    { intros tm (Ha & _). congruence. }
    unfold handshake in Hmsg.
    destruct (Crypto.parseAuthEnvelope _) as [envelope|];
      [|injection Hmsg as <- <-; apply Hsame; [done|by right|done]].
    destruct (fst (key_trial rt envelope _ keyring)) as [v pl| |];
      try (injection Hmsg as <- <-; apply Hsame; [done|by right|done]).
    destruct (truthy_str v); simpl in Hmsg;
      [|injection Hmsg as <- <-; apply Hsame; [done|by right|done]].
    injection Hmsg as <- <-. eexists. simpl. rewrite lookup_insert_eq.
    repeat split; try done. intros tm Hr. by destruct (Hnr tm). }
  rewrite (message_authorized keyring p m now w session data Hs Hst Hsz Hj Hp) in Hmsg.
  injection Hmsg as <- <-. unfold handle_telemetry.
  destruct (TelemetrySchema data) as [tm|] eqn:Htm; simpl.
  2: { eexists. rewrite lookup_insert_eq. repeat split; try done.
       intros tm (_ & _ & d & Hd & _ & Hd'). congruence. }
  pose proof (validate_telemetry_sequence now (telemetry session) tm) as Hseq.
  eexists. rewrite lookup_insert_eq. split; [done|]. simpl.
  repeat split.
  - intros tm' (_ & _ & d & Hd & _ & Hd'). assert (tm' = tm) as -> by congruence.
    destruct (seq tm =? expectedSeq (telemetry session))%float; [done|].
    by rewrite Hseq.
  - intros Hnr. destruct (Hnr tm). repeat split; try done. by exists data.
  - intros _ He.
    destruct (seq tm =? expectedSeq (telemetry session))%float; [done|].
    rewrite Hseq in He. discriminate.
Qed.

End Telemetry.

Section TelemetryExamples.

Import Sessions Live.

(** A frame beyond the absolute bound in the first telemetry message: the
    kill comes after the time and percent baselines were written. *)
Lemma C2_witness :
  exists session' reason,
    sessions (fst (message Fixture.runtime Fixture.cfg Fixture.keyring Fixture.peer1
                     Fixture.telemetry_jump 2000 Fixture.world_authorized))
      !! peer_id Fixture.peer1 = Some session' /\
    killAndClose Fixture.peer1 "Impossible movement" = killAndClose Fixture.peer1 reason /\
    let t := telemetry Fixture.session_authorized in
    let t' := telemetry session' in
    (In reason ["Message too large"; "Invalid JSON"; "Bad telemetry";
                "Sequence mismatch"; "Invalid time delta";
                "Speedhack (pct jump)"]%string /\
     lastAt t' = lastAt t /\ lastPct t' = lastPct t /\ lastCoord t' = lastCoord t)
    \/
    (exists data tm,
       msg_json Fixture.telemetry_jump = Some data /\ TelemetrySchema data = Some tm /\
       lastAt t' = Some 2000%float /\ lastPct t' = Some (current_pct tm) /\
       ((reason = "Too many frames"%string /\ lastCoord t' = lastCoord t)
        \/ (exists pre f post,
              frames tm = pre ++ f :: post /\
              frames_loop Fixture.cfg (lastCoord t) pre = (lastCoord t', None) /\
              check_frame Fixture.cfg (lastCoord t') f = FrameKill reason /\
              In reason ["Invalid coordinates"; "Impossible coordinates";
                         "Impossible movement"]%string))).
Proof.
  apply (C2_baselines_at_a_kill Fixture.runtime Fixture.cfg Fixture.keyring
           Fixture.peer1 Fixture.telemetry_jump 2000 Fixture.world_authorized
           Fixture.session_authorized).
  - vm_compute; reflexivity.
  - reflexivity.
  - vm_compute; reflexivity.
  - apply killed_killAndClose.
Defined.

(** C2 as stated fails: the first telemetry message of an authorized
    session, with a frame beyond the absolute bound, is answered by a
    kill, and the session's [lastAt] and [lastPct], undefined before the
    message, are those of the message after it. *)
Lemma C2_counterexample :
  state (auth Fixture.session_authorized) = authorized /\
  sessions Fixture.world_authorized !! peer_id Fixture.peer1
    = Some Fixture.session_authorized /\
  lastAt (telemetry Fixture.session_authorized) = None /\
  lastPct (telemetry Fixture.session_authorized) = None /\
  (let r := message Fixture.runtime Fixture.cfg Fixture.keyring Fixture.peer1
              Fixture.telemetry_out_of_bounds 2000 Fixture.world_authorized in
   snd r = killAndClose Fixture.peer1 "Impossible coordinates" /\
   lastAt (telemetry (Fixture.session_in (fst r))) = Some 2000%float /\
   lastPct (telemetry (Fixture.session_in (fst r))) = Some 10%float /\
   lastCoord (telemetry (Fixture.session_in (fst r))) = None).
Proof. repeat split; vm_compute; reflexivity. Qed.

(** Three messages with [seq] 1, 2, 3 are accepted in order. *)
Lemma C3_witness :
  (forall nonce_ t0 timer w0,
     exists s0,
       sessions (fst (open Fixture.cfg Fixture.keyring Fixture.peer1 nonce_ t0 timer w0))
         !! peer_id Fixture.peer1 = Some s0 /\
       expectedSeq (telemetry s0) = Num.of_nat 1) /\
  (forall n,
     expectedSeq (telemetry Fixture.session_authorized) = Num.of_nat n ->
     Z.of_nat n + 1 < 2 ^ 53 ->
     (expectedSeq (telemetry Fixture.session_authorized) + 1)%float = Num.of_nat (S n)) /\
  exists session',
    sessions (fst (message Fixture.runtime Fixture.cfg Fixture.keyring Fixture.peer1
                     (fst (Fixture.telemetry_ok 1 2000 10)) 2000 Fixture.world_authorized))
      !! peer_id Fixture.peer1 = Some session' /\
    (forall tm,
       reaches_sequence_check Fixture.cfg Fixture.session_authorized
         (fst (Fixture.telemetry_ok 1 2000 10)) tm ->
       if (seq tm =? expectedSeq (telemetry Fixture.session_authorized))%float
       then expectedSeq (telemetry session')
            = (expectedSeq (telemetry Fixture.session_authorized) + 1)%float
       else [] = killAndClose Fixture.peer1 "Sequence mismatch" /\
            telemetry session' = telemetry Fixture.session_authorized) /\
    ((forall tm, ~ reaches_sequence_check Fixture.cfg Fixture.session_authorized
                     (fst (Fixture.telemetry_ok 1 2000 10)) tm) ->
     telemetry session' = telemetry Fixture.session_authorized) /\
    (state (auth Fixture.session_authorized) = authorized -> @nil Event = [] ->
     expectedSeq (telemetry session')
     = (expectedSeq (telemetry Fixture.session_authorized) + 1)%float).
Proof.
  apply (C3_expectedSeq_steps Fixture.runtime Fixture.cfg Fixture.keyring
           Fixture.peer1 (fst (Fixture.telemetry_ok 1 2000 10)) 2000
           Fixture.world_authorized Fixture.session_authorized);
    vm_compute; reflexivity.
Defined.

(** [seq] 1, 2, 3 are accepted in order and leave [expectedSeq] at 4; 1, 3
    and 1, 1 and 2 are killed at the offending message. *)
Example sequence_scenarios :
  let run ms := Fixture.deliver ms Fixture.world_authorized in
  snd (run [Fixture.telemetry_ok 1 2000 10; Fixture.telemetry_ok 2 3000 20;
            Fixture.telemetry_ok 3 4000 30]) = [] /\
  expectedSeq (telemetry (Fixture.session_in
    (fst (run [Fixture.telemetry_ok 1 2000 10; Fixture.telemetry_ok 2 3000 20;
               Fixture.telemetry_ok 3 4000 30])))) = 4%float /\
  snd (run [Fixture.telemetry_ok 1 2000 10; Fixture.telemetry_ok 3 3000 20])
    = killAndClose Fixture.peer1 "Sequence mismatch" /\
  snd (run [Fixture.telemetry_ok 1 2000 10; Fixture.telemetry_ok 1 3000 20])
    = killAndClose Fixture.peer1 "Sequence mismatch" /\
  snd (run [Fixture.telemetry_ok 2 2000 10])
    = killAndClose Fixture.peer1 "Sequence mismatch".
Proof. repeat split; vm_compute; reflexivity. Qed.

(** C3 as stated fails: a message with the expected [seq] that is killed
    at a later step (here a frame 20001 from the one before it) has
    already added 1 to [expectedSeq]. *)
Lemma C3_counterexample :
  state (auth Fixture.session_authorized) = authorized /\
  sessions Fixture.world_authorized !! peer_id Fixture.peer1
    = Some Fixture.session_authorized /\
  expectedSeq (telemetry Fixture.session_authorized) = 1%float /\
  (let r := message Fixture.runtime Fixture.cfg Fixture.keyring Fixture.peer1
              Fixture.telemetry_jump 2000 Fixture.world_authorized in
   snd r = killAndClose Fixture.peer1 "Impossible movement" /\
   expectedSeq (telemetry (Fixture.session_in (fst r))) = 2%float).
Proof. repeat split; vm_compute; reflexivity. Qed.

End TelemetryExamples.

(** ** The envelope parser *)

Section Envelope.

Lemma truthy_str_nonempty s : truthy_str s = true <-> s <> [].
Proof. by destruct s. Qed.

Lemma string_min1_Some v : is_Some (Zod.string_min1 v) <-> is_nonempty_string v.
Proof.
  unfold is_nonempty_string. split.
  - destruct v as [| | |s| |]; simpl; try by intros [? [=]].
    destruct (truthy_str s) eqn:E; [|by intros [? [=]]].
    intros _. exists s. split; [done|]. by apply truthy_str_nonempty.
  - intros (s & -> & Hs). simpl. apply truthy_str_nonempty in Hs. by rewrite Hs.
Qed.

Lemma string_any_Some v : is_Some (Zod.string_any v) <-> is_string v.
Proof.
  unfold is_string. split.
  - destruct v; simpl; try by intros [? [=]]. by eexists.
  - by intros (s & ->).
Qed.

Lemma required_Some {A} (schema : JSON -> option A) o :
  is_Some (Zod.required schema o) <-> exists v, o = Some v /\ is_Some (schema v).
Proof.
  destruct o as [v|]; simpl.
  - split; [by exists v|]. by intros (? & [= <-] & ?).
  - split; [by intros [? [=]]|]. by intros (? & [=] & _).
Qed.

Lemma optional_Some {A} (schema : JSON -> option A) o :
  is_Some (Zod.optional schema o) <-> absent_or (fun v => is_Some (schema v)) o.
Proof.
  destruct o as [v|]; simpl; [|done].
  destruct (schema v); simpl; [done|]. split; by intros [? [=]].
Qed.

Lemma absent_or_iff (P Q : JSON -> Prop) o :
  (forall v, P v <-> Q v) -> absent_or P o <-> absent_or Q o.
Proof. intros H. destruct o; simpl; [apply H|done]. Qed.

(** C4 (amended): [parseAuthEnvelope] succeeds exactly on an object with a
    non-empty string [iv] in which each of [data], [ciphertext] and [tag]
    is absent or a non-empty string and [alg] is absent or a string
    (other properties are tolerated).  It does not ask for a ciphertext:
    an envelope with neither [data] nor [ciphertext] parses, and is only
    refused by [decryptAuthEnvelope], under every key, as a missing
    ciphertext; an envelope with both parses, and is decrypted as if it
    had [data] alone. *)
Theorem C4_parseAuthEnvelope_accepts_shape v :
  (is_Some (Crypto.parseAuthEnvelope v) <-> envelope_shape v) /\
  (forall e rt key,
     Crypto.parseAuthEnvelope v = Some e ->
     (Crypto.data e = None -> Crypto.ciphertext e = None ->
      Crypto.decryptAuthEnvelope rt e key = Err Crypto.MissingCiphertext) /\
     (is_Some (Crypto.data e) ->
      Crypto.decryptAuthEnvelope rt e key
      = Crypto.decryptAuthEnvelope rt (without_ciphertext e) key)).
Proof.
  split.
  - unfold Crypto.parseAuthEnvelope, Crypto.AuthEnvelopeSchema, envelope_shape.
    destruct v as [| | | | |fields];
      try (split; [by intros [? [=]]|by intros (? & [=] & _)]).
    pose proof (required_Some Zod.string_min1 (get_field (lit "iv") fields)) as Hiv.
    pose proof (optional_Some Zod.string_min1 (get_field (lit "data") fields)) as Hd.
    pose proof (optional_Some Zod.string_min1 (get_field (lit "ciphertext") fields)) as Hc.
    pose proof (optional_Some Zod.string_min1 (get_field (lit "tag") fields)) as Ht.
    pose proof (optional_Some Zod.string_any (get_field (lit "alg") fields)) as Ha.
    rewrite (absent_or_iff _ _ _ string_min1_Some) in Hd.
    rewrite (absent_or_iff _ _ _ string_min1_Some) in Hc.
    rewrite (absent_or_iff _ _ _ string_min1_Some) in Ht.
    rewrite (absent_or_iff _ _ _ string_any_Some) in Ha.
    split.
    + intros Hsome. exists fields. split; [done|].
      destruct (Zod.required _ _); [|by destruct Hsome as [? [=]]].
      destruct (Zod.optional _ (get_field (lit "data") fields));
        [|by destruct Hsome as [? [=]]].
      destruct (Zod.optional _ (get_field (lit "ciphertext") fields));
        [|by destruct Hsome as [? [=]]].
      destruct (Zod.optional _ (get_field (lit "tag") fields));
        [|by destruct Hsome as [? [=]]].
      destruct (Zod.optional _ (get_field (lit "alg") fields));
        [|by destruct Hsome as [? [=]]].
      repeat split.
      * destruct Hiv as [Hiv _]. destruct (Hiv ltac:(done)) as (i & ? & ?).
        exists i. split; [done|]. by apply string_min1_Some.
      * by apply Hd.
      * by apply Hc.
      * by apply Ht.
      * by apply Ha.
    + intros (fields' & [= <-] & (i & Hi & Hne) & Hd' & Hc' & Ht' & Ha').
      apply Hd in Hd' as [? ->]. apply Hc in Hc' as [? ->].
      apply Ht in Ht' as [? ->]. apply Ha in Ha' as [? ->].
      assert (is_Some (Zod.required Zod.string_min1 (get_field (lit "iv") fields)))
        as [? ->]; [|done].
      apply Hiv. exists i. split; [done|]. by apply string_min1_Some.
  - intros e rt key _. split.
    + intros Hd Hc. unfold Crypto.decryptAuthEnvelope. by rewrite Hd, Hc.
    + intros [d Hd]. unfold Crypto.decryptAuthEnvelope, without_ciphertext. simpl.
      by rewrite Hd.
Qed.

End Envelope.

Section EnvelopeExamples.

Import Sessions Live.

(** C4 as stated fails both ways: an envelope with neither ciphertext
    property parses, and so does one with both; the first is refused only
    in the loop over the keys, so the connection is closed as
    "Unauthorized" and not as "Bad auth envelope"; and an envelope with
    exactly one ciphertext property fails to parse when its [tag] is not
    a string. *)
Lemma C4_counterexample :
  Crypto.parseAuthEnvelope (JObj [(lit "iv", JStr (lit "AAAA"))])
    = Some {| Crypto.iv := lit "AAAA"; Crypto.data := None;
              Crypto.ciphertext := None; Crypto.tag := None; Crypto.alg := None |} /\
  Crypto.parseAuthEnvelope
    (JObj [(lit "iv", JStr (lit "AAAA")); (lit "data", JStr (lit "BBBB"));
           (lit "ciphertext", JStr (lit "CCCC"))])
    = Some {| Crypto.iv := lit "AAAA"; Crypto.data := Some (lit "BBBB");
              Crypto.ciphertext := Some (lit "CCCC"); Crypto.tag := None;
              Crypto.alg := None |} /\
  Crypto.parseAuthEnvelope
    (JObj [(lit "iv", JStr (lit "AAAA")); (lit "data", JStr (lit "BBBB"));
           (lit "tag", JNum 5)])
    = None /\
  message Fixture.runtime Fixture.cfg Fixture.keyring Fixture.peer1
    (Fixture.msg_of (JObj [(lit "iv", JStr (lit "AAAA"))])) 1001 Fixture.world_open
    = (Fixture.world_open, closeUnauthorized Fixture.peer1 "Unauthorized").
Proof. repeat split; vm_compute; reflexivity. Qed.

End EnvelopeExamples.

(** ** Opening and closing a connection *)

Section OpenClose.

Import Sessions Live Hooks.

Context (rt : Runtime) (cfg : Config).

(** No hook but [close] of the same connection removes a session. *)
Lemma dispatch_keeps_session keyring c w i :
  ~ closes i c ->
  is_Some (sessions w !! i) ->
  is_Some (sessions (fst (dispatch rt cfg keyring c w)) !! i).
Proof.
  intros Hc Hi. destruct c as [p n t0 tm|p m now|p|p e]; simpl in *.
  - unfold open. destruct (length keyring =? 0)%nat; simpl;
      (destruct (decide (peer_id p = i)) as [<-|Hne];
       [by rewrite lookup_insert_eq|by rewrite lookup_insert_ne]).
  - destruct (decide (i = peer_id p)) as [->|Hne].
    + destruct Hi as [s Hs]. unfold message, handshake. rewrite Hs.
      repeat (match goal with
              | |- context [match ?x with _ => _ end] => destruct x
              end; simpl; try done);
        by rewrite ?lookup_insert_eq, ?Hs.
    + by rewrite message_other_sessions.
  - unfold close. destruct (sessions w !! peer_id p); simpl; [|done].
    by rewrite lookup_delete_ne.
  - done.
Qed.

Lemma run_keeps_session keyring cs w i :
  Forall (fun c => ~ closes i c) cs ->
  is_Some (sessions w !! i) ->
  is_Some (sessions (fst (run rt cfg keyring cs w)) !! i).
Proof.
  intros Hcs. revert w. induction Hcs as [|c cs Hc _ IH]; intros w Hi; simpl; [done|].
  pose proof (dispatch_keeps_session keyring c w i Hc Hi) as H1.
  destruct (dispatch rt cfg keyring c w) as [w1 evs1]. simpl in H1.
  specialize (IH w1 H1). by destruct (run rt cfg keyring cs w1).
Qed.

(** C10: [open] puts the session into the store whatever the keyring is,
    so also when the keyring is empty and the connection is refused: the
    refusal arms the deadline, logs, and closes the connection as "Server
    misconfigured", sends nothing (no challenge), and leaves the session
    in the store, where it stays through every later call of a hook other
    than [close] of that connection, which removes it. *)
Theorem C10_refused_session_stays_until_close p nonce_ now timer w :
  let refused := open cfg [] p nonce_ now timer w in
  (forall keyring,
     exists s,
       sessions (fst (open cfg keyring p nonce_ now timer w)) !! peer_id p = Some s /\
       state (auth s) = challenging /\ nonce (auth s) = nonce_) /\
  snd refused
    = [SetTimeout timer (handshakeTimeoutMs cfg); Log LogNoKeysConfigured;
       Close (peer_id p) 1008 (lit "Server misconfigured")] /\
  Forall (fun e => ~ is_send e) (snd refused) /\
  (forall cs,
     Forall (fun c => ~ closes (peer_id p) c) cs ->
     is_Some (sessions (fst (run rt cfg [] cs (fst refused))) !! peer_id p)) /\
  sessions (fst (close p (fst refused))) !! peer_id p = None.
Proof.
  intros refused. repeat split.
  - intros keyring. unfold open.
    destruct (length keyring =? 0)%nat; simpl; rewrite lookup_insert_eq; by eexists.
  - repeat constructor; by intros [].
  - intros cs Hcs. apply run_keeps_session; [done|].
    unfold refused, open. simpl. by rewrite lookup_insert_eq.
  - unfold refused, open, close. simpl. rewrite lookup_insert_eq. simpl.
    by rewrite lookup_delete_eq.
Qed.

End OpenClose.

Section OpenCloseExamples.

Import Sessions Live Hooks.

(** With no key configured, a peer that connects, pings, answers the
    challenge it never got and sends telemetry gets a pong and two more
    refusals, and its session is in the store until [close]. *)
Example refused_connection_scenario :
  let calls :=
    [CallOpen Fixture.peer1 Fixture.nonce1 1000 7;
     CallMessage Fixture.peer1 (Fixture.msg_of (cmd_msg "ping" [])) 1001;
     CallMessage Fixture.peer1 (Fixture.msg_of (Fixture.envelope_for 66 Fixture.nonce1)) 1002;
     CallMessage Fixture.peer1 (fst (Fixture.telemetry_ok 1 1003 10)) 1003] in
  let r := run Fixture.runtime Fixture.cfg [] calls empty_world in
  sessions (fst r) !! peer_id Fixture.peer1 = Some Fixture.session_open /\
  snd r = [SetTimeout 7 5000; Log LogNoKeysConfigured;
           Close (peer_id Fixture.peer1) 1008 (lit "Server misconfigured");
           Send (peer_id Fixture.peer1) (cmd_msg "pong" [(lit "t", JNum 1001)]);
           Close (peer_id Fixture.peer1) 1008 (lit "Unauthorized");
           Close (peer_id Fixture.peer1) 1008 (lit "Bad auth envelope")] /\
  sessions (fst (run Fixture.runtime Fixture.cfg [] (calls ++ [CallClose Fixture.peer1])
                   empty_world)) !! peer_id Fixture.peer1 = None.
Proof. repeat split; vm_compute; reflexivity. Qed.

End OpenCloseExamples.

(** ** The keyring builder *)

Section Keyring.

Import Keys KeySpec.

Lemma str_eqb_true a b : str_eqb a b = true <-> a = b.
Proof. unfold str_eqb. apply bool_decide_eq_true. Qed.

Lemma str_eqb_false a b : str_eqb a b = false <-> a <> b.
Proof. unfold str_eqb. apply bool_decide_eq_false. Qed.

Lemma get_field_None k (m : StrMap JSON) : get_field k m = None <-> k ∉ m.*1.
Proof.
  induction m as [|[k' v'] m IH]; simpl.
  - split; [intros _; apply not_elem_of_nil|done].
  - rewrite not_elem_of_cons. destruct (str_eqb k k') eqn:E.
    + apply str_eqb_true in E. split; [done|]. intros [? _]. done.
    + apply str_eqb_false in E. rewrite IH. tauto.
Qed.

Lemma map_set_keys_absent {V} k (v : V) (m : StrMap V) :
  k ∉ m.*1 -> map_set k v m = m ++ [(k, v)].
Proof.
  induction m as [|[k' v'] m IH]; simpl; [done|].
  rewrite not_elem_of_cons. intros [Hne Hm].
  apply str_eqb_false in Hne. rewrite Hne. by rewrite IH.
Qed.

Lemma map_set_keys_present {V} k (v : V) (m : StrMap V) :
  k ∈ m.*1 -> (map_set k v m).*1 = m.*1.
Proof.
  induction m as [|[k' v'] m IH]; simpl; [by intros ?%elem_of_nil|].
  destruct (str_eqb k k') eqn:E.
  - apply str_eqb_true in E as ->. done.
  - apply str_eqb_false in E. rewrite elem_of_cons. intros [?|Hin]; [done|].
    csimpl. f_equal. by apply IH.
Qed.

Lemma map_set_NoDup {V} k (v : V) (m : StrMap V) :
  NoDup m.*1 -> NoDup (map_set k v m).*1.
Proof.
  intros Hm. destruct (decide (k ∈ m.*1)) as [Hin|Hout].
  - by rewrite map_set_keys_present.
  - rewrite (map_set_keys_absent k v m Hout), fmap_app. simpl.
    apply NoDup_app. split; [done|]. split; [|apply NoDup_singleton].
    intros x Hx ->%list_elem_of_singleton. done.
Qed.

Lemma map_of_entries_NoDup {V} (entries : list (jsstring * V)) :
  NoDup (map_of_entries entries).*1.
Proof.
  unfold map_of_entries.
  assert (H : forall m : StrMap V, NoDup m.*1 ->
            NoDup (fold_left (fun m kv => map_set (fst kv) (snd kv) m) entries m).*1).
  { induction entries as [|[k v] es IH]; intros m Hm; simpl; [done|].
    apply IH. by apply map_set_NoDup. }
  apply H. constructor.
Qed.

Lemma loadFromEnv_NoDup rt raw env : loadFromEnv rt raw = Ok env -> NoDup env.*1.
Proof.
  unfold loadFromEnv. destruct raw as [r|]; [|intros [= <-]; constructor].
  destruct (negb (truthy_str r)); [intros [= <-]; constructor|].
  destruct (JSON_parse rt r) as [[| | | | |fields]|]; try done.
  intros [= <-]. apply map_of_entries_NoDup.
Qed.

(** Overriding with an environment that starts with a version the map
    does not have changes nothing. *)
Lemma map_override_skip k v env (m : StrMap JSON) :
  k ∉ m.*1 -> List.map (override ((k, v) :: env)) m = List.map (override env) m.
Proof.
  induction m as [|[k' v'] m IH]; simpl; [done|].
  rewrite not_elem_of_cons. intros [Hne Hm]. rewrite IH by done.
  unfold override at 1 3. simpl.
  assert (str_eqb k' k = false) as -> by (apply str_eqb_false; congruence).
  done.
Qed.

Lemma map_override_set k v env (m : StrMap JSON) :
  NoDup m.*1 -> k ∈ m.*1 -> k ∉ env.*1 ->
  List.map (override env) (map_set k v m) = List.map (override ((k, v) :: env)) m.
Proof.
  intros Hm Hin Henv. induction m as [|[k' v'] m IH]; simpl;
    [by apply elem_of_nil in Hin|].
  simpl in Hm. apply NoDup_cons in Hm as [Hk' Hm].
  destruct (str_eqb k k') eqn:E.
  - apply str_eqb_true in E as <-. simpl. rewrite map_override_skip by done.
    f_equal. unfold override. simpl.
    assert (str_eqb k k = true) as -> by (by apply str_eqb_true).
    apply get_field_None in Henv. by rewrite Henv.
  - apply str_eqb_false in E. simpl. simpl in Hin. apply elem_of_cons in Hin as [?|Hin]; [done|].
    rewrite IH by done. f_equal. unfold override. simpl.
    assert (str_eqb k' k = false) as -> by (apply str_eqb_false; congruence).
    done.
Qed.

Lemma filter_is_new_ext (s1 s2 : StrMap JSON) env :
  (forall k, k ∈ env.*1 -> (k ∈ s1.*1 <-> k ∈ s2.*1)) ->
  List.filter (is_new s1) env = List.filter (is_new s2) env.
Proof.
  induction env as [|[k v] env IH]; intros H; simpl; [done|].
  rewrite IH by (intros k' Hk'; apply H; simpl; by right).
  assert (is_new s1 (k, v) = is_new s2 (k, v)) as ->; [|done].
  unfold is_new. simpl. specialize (H k ltac:(simpl; by left)).
  destruct (get_field k s1) eqn:E1, (get_field k s2) eqn:E2; try done.
  - apply get_field_None in E2. destruct E2. apply H.
    destruct (decide (k ∈ s1.*1)) as [|Hn]; [done|].
    apply get_field_None in Hn. congruence.
  - apply get_field_None in E1. destruct E1. apply H.
    destruct (decide (k ∈ s2.*1)) as [|Hn]; [done|].
    apply get_field_None in Hn. congruence.
Qed.

Lemma merged_spec_step k v static env :
  NoDup static.*1 -> k ∉ env.*1 ->
  merged_spec (map_set k v static) env = merged_spec static ((k, v) :: env).
Proof.
  intros Hs Henv. unfold merged_spec.
  destruct (decide (k ∈ static.*1)) as [Hin|Hout].
  - rewrite map_override_set by done. f_equal. simpl.
    assert (is_new static (k, v) = false) as ->.
    { unfold is_new. simpl. destruct (get_field k static) eqn:E; [done|].
      by apply get_field_None in E. }
    apply filter_is_new_ext. intros k' _. by rewrite map_set_keys_present.
  - rewrite (map_set_keys_absent k v static Hout), map_app, map_override_skip by done.
    rewrite <- app_assoc. f_equal. simpl.
    assert (is_new static (k, v) = true) as ->.
    { unfold is_new. simpl. apply get_field_None in Hout. by rewrite Hout. }
    f_equal.
    + unfold override. simpl. apply get_field_None in Henv. by rewrite Henv.
    + apply filter_is_new_ext. intros k' Hk'. rewrite fmap_app, elem_of_app. simpl.
      rewrite list_elem_of_singleton. split; [|by left].
      intros [?|Heq]; [done|]. subst k'. done.
Qed.

(** The loop of [set] calls builds the merged map of the specification. *)
Lemma merge_merged_spec static env :
  NoDup static.*1 -> NoDup env.*1 -> merge static env = merged_spec static env.
Proof.
  unfold merge. revert static. induction env as [|[k v] env IH]; intros static Hs He.
  - simpl. unfold merged_spec. simpl. rewrite app_nil_r.
    induction static as [|[k v] st IHs]; simpl; [done|].
    simpl in Hs. apply NoDup_cons in Hs as [_ Hs]. by rewrite <- IHs.
  - simpl in He. apply NoDup_cons in He as [Hk He]. simpl.
    rewrite IH by (done || by apply map_set_NoDup).
    by apply merged_spec_step.
Qed.

(** 64 hex digits decode to 32 bytes. *)
Lemma buffer_from_hex_length n s :
  length s = (2 * n)%nat ->
  forallb (fun c => bool_decide (is_Some (hex_digit c))) s = true ->
  length (buffer_from_hex s) = n.
Proof.
  revert s. induction n as [|n IH]; intros s Hlen Hhex.
  - by destruct s.
  - destruct s as [|h [|l rest]]; simpl in Hlen; try lia.
    simpl in Hhex. apply andb_true_iff in Hhex as [Hh Hhex].
    apply andb_true_iff in Hhex as [Hl Hhex].
    apply bool_decide_eq_true in Hh as [a Ha], Hl as [b Hb].
    simpl. rewrite Ha, Hb. simpl. f_equal. apply IH; [lia|done].
Qed.

Lemma isHexSha256_decodes s : isHexSha256 s = true -> length (buffer_from_hex s) = 32%nat.
Proof.
  unfold isHexSha256. intros [Hlen Hhex]%andb_true_iff.
  apply Nat.eqb_eq in Hlen. by apply buffer_from_hex_length.
Qed.

(** *** The handler's decoder against the decoding rule *)

(** The hex digits of the handler's test are those of the table, with the
    same values. *)
Lemma hex_value_hex_digit c : hex_value c = hex_digit c.
Proof.
  unfold hex_value.
  assert (hex_digits = [48; 49; 50; 51; 52; 53; 54; 55; 56; 57;
                        97; 98; 99; 100; 101; 102]) as -> by reflexivity.
  assert (hex_digits_upper = [48; 49; 50; 51; 52; 53; 54; 55; 56; 57;
                              65; 66; 67; 68; 69; 70]) as -> by reflexivity.
  assert ((0x30 <= c <= 0x39 \/ 0x61 <= c <= 0x66 \/ 0x41 <= c <= 0x46) \/
          ~ (0x30 <= c <= 0x39 \/ 0x61 <= c <= 0x66 \/ 0x41 <= c <= 0x46)) as [Hin|Hout]
    by lia.
  - assert (c = 48 \/ c = 49 \/ c = 50 \/ c = 51 \/ c = 52 \/ c = 53 \/ c = 54 \/
            c = 55 \/ c = 56 \/ c = 57 \/ c = 97 \/ c = 98 \/ c = 99 \/ c = 100 \/
            c = 101 \/ c = 102 \/ c = 65 \/ c = 66 \/ c = 67 \/ c = 68 \/ c = 69 \/
            c = 70) as Hc by lia.
    repeat (destruct Hc as [->|Hc]; [reflexivity|]). by subst.
  - unfold hex_digit. simpl.
    repeat match goal with
           | |- context [c =? ?d] => rewrite (proj2 (Z.eqb_neq c d)) by lia
           end.
    simpl.
    repeat match goal with
           | |- context [(?a <=? ?b)] => destruct (Z.leb_spec a b)
           end; simpl; (done || lia).
Qed.

Lemma is_hex64_isHexSha256 s : is_hex64 s = isHexSha256 s.
Proof.
  unfold is_hex64, isHexSha256. f_equal.
  induction s as [|c s IH]; simpl; [done|].
  rewrite IH, hex_value_hex_digit. by destruct (hex_digit c).
Qed.

(** On a text of hex digits the handler's decoder gives the bytes the text
    spells. *)
Lemma buffer_from_hex_hex_bytes n s :
  (length s <= n)%nat ->
  forallb (fun c => bool_decide (is_Some (hex_digit c))) s = true ->
  buffer_from_hex s = hex_bytes s.
Proof.
  revert s. induction n as [|n IH]; intros s Hlen Hhex.
  - destruct s; [done|simpl in Hlen; lia].
  - destruct s as [|h [|l rest]]; try done.
    simpl in Hhex. apply andb_true_iff in Hhex as [Hh Hhex].
    apply andb_true_iff in Hhex as [Hl Hhex].
    apply bool_decide_eq_true in Hh as [a Ha], Hl as [b Hb].
    simpl. rewrite !hex_value_hex_digit, Ha, Hb. simpl. f_equal.
    apply IH; [simpl in Hlen; lia|done].
Qed.

(** The white space of [trim] is that of the table. *)
Lemma is_white_is_space c : is_white c = is_space c.
Proof.
  unfold is_white. destruct (is_space c) eqn:E.
  - unfold is_space in E.
    rewrite !orb_true_iff, !andb_true_iff, !Z.leb_le, !Z.eqb_eq in E.
    assert (c = 0x0009 \/ c = 0x000A \/ c = 0x000B \/ c = 0x000C \/ c = 0x000D \/
            c = 0x0020 \/ c = 0x00A0 \/ c = 0x1680 \/ c = 0x2000 \/ c = 0x2001 \/
            c = 0x2002 \/ c = 0x2003 \/ c = 0x2004 \/ c = 0x2005 \/ c = 0x2006 \/
            c = 0x2007 \/ c = 0x2008 \/ c = 0x2009 \/ c = 0x200A \/ c = 0x2028 \/
            c = 0x2029 \/ c = 0x202F \/ c = 0x205F \/ c = 0x3000 \/ c = 0xFEFF) as Hc
      by lia.
    repeat (destruct Hc as [->|Hc]; [reflexivity|]). by subst.
  - apply bool_decide_eq_false. unfold white_space. intros Hin.
    repeat (apply elem_of_cons in Hin as [->|Hin]; [discriminate|]).
    by apply elem_of_nil in Hin.
Qed.

Lemma trim_start_leading s : trim_start s = drop (leading s) s.
Proof.
  induction s as [|c s IH]; simpl; [done|].
  rewrite is_white_is_space. by destruct (is_space c).
Qed.

(** [trim] is the text without the white space around it. *)
Lemma trim_strip s : trim s = strip s.
Proof.
  unfold trim, strip. cbv zeta. rewrite (trim_start_leading s).
  generalize (drop (leading s) s). intros t.
  by rewrite trim_start_leading, List.skipn_rev, rev_involutive.
Qed.

(** The handler's two regular expressions against membership in the
    text. *)
Lemma url_safe_tests t :
  test_any Crypto.is_dash_or_underscore t && negb (test_any Crypto.is_plus_or_slash t)
  = url_safe t.
Proof.
  assert (forall a b, test_any (fun c => (c =? a) || (c =? b)) t = true <-> a ∈ t \/ b ∈ t)
    as Hany.
  { intros a b. unfold test_any. rewrite existsb_exists. split.
    - intros (c & Hc & [->%Z.eqb_eq| ->%Z.eqb_eq]%orb_true_iff);
        apply list_elem_of_In in Hc; auto.
    - intros [H|H]; apply list_elem_of_In in H; eexists; (split; [done|]);
        rewrite Z.eqb_refl; by rewrite ?orb_true_r. }
  assert (test_any Crypto.is_dash_or_underscore t = true <-> 0x2D ∈ t \/ 0x5F ∈ t) as Hd
    by apply (Hany 0x2D 0x5F).
  assert (test_any Crypto.is_plus_or_slash t = true <-> 0x2B ∈ t \/ 0x2F ∈ t) as Hp
    by apply (Hany 0x2B 0x2F).
  unfold url_safe. symmetry.
  destruct (test_any Crypto.is_dash_or_underscore t),
           (test_any Crypto.is_plus_or_slash t); simpl.
  - apply bool_decide_eq_false. tauto.
  - apply bool_decide_eq_true. split; [tauto|]. split; intros H.
    + assert (false = true) by tauto. done.
    + assert (false = true) by tauto. done.
  - apply bool_decide_eq_false. intros [H _]. assert (false = true) by tauto. done.
  - apply bool_decide_eq_false. intros [H _]. assert (false = true) by tauto. done.
Qed.

Context (rt : Runtime).

(** The handler's [decodeBase64Like] is case (b) of the rule. *)
Lemma decodeBase64Like_rule s :
  Crypto.decodeBase64Like rt s = buffer_from_base64 rt (url_safe (strip s)) (strip s).
Proof. unfold Crypto.decodeBase64Like. by rewrite url_safe_tests, trim_strip. Qed.

(** [parseKey] followed by the length test of [buildKeyring] is the
    decoding of the specification, and its complaint is the one logged. *)
Lemma parseKey_decode_key value :
  match parseKey rt value with
  | Ok parsedKey =>
      key_error value = InvalidKeyLength /\
      if negb (byteLength parsedKey =? 32)%nat then decode_key rt value = None
      else decode_key rt value = Some parsedKey
  | Err e => decode_key rt value = None /\ e = key_error value
  end.
Proof.
  unfold parseKey, decode_key, key_error, byteLength.
  destruct value as [| | |s|items|]; try done.
  - rewrite is_hex64_isHexSha256, <- decodeBase64Like_rule.
    destruct (isHexSha256 s) eqn:Eh.
    + pose proof Eh as [Hlen Hall]%andb_true_iff. apply Nat.eqb_eq in Hlen.
      rewrite <- (buffer_from_hex_hex_bytes 64 s) by (done || lia).
      rewrite (isHexSha256_decodes s Eh). done.
    + destruct (length (Crypto.decodeBase64Like rt s) =? 32)%nat eqn:El; simpl; [|done].
      by rewrite El.
  - destruct (hex_candidate (JArr items)) as [s|]; [|done].
    rewrite is_hex64_isHexSha256. by destruct (isHexSha256 s).
Qed.

Lemma decode_key_length value b : decode_key rt value = Some b -> length b = 32%nat.
Proof.
  unfold decode_key. destruct value as [| | |s| |]; try done.
  destruct (length _ =? 32)%nat eqn:E; [|done]. intros [= <-]. by apply Nat.eqb_eq.
Qed.

Lemma collect_spec merged :
  collect rt merged = (valid_entries rt merged, rejected_entries rt merged).
Proof.
  induction merged as [|[v k] rest IH]; simpl; [done|].
  rewrite IH. unfold valid_entries, rejected_entries. simpl.
  pose proof (parseKey_decode_key k) as Hk.
  destruct (parseKey rt k) as [parsedKey|e].
  - destruct Hk as [Hke Hk].
    destruct (negb (byteLength parsedKey =? 32)%nat); rewrite Hk; simpl; [|done].
    by rewrite Hke.
  - destruct Hk as [-> ->]. done.
Qed.

(** C8: when the environment's map loads, [buildKeyring] returns the
    valid entries of the static map merged with it: the merged map is the
    static entries in their order, an environment entry replacing the
    key of a static entry of the same version in its place, followed by
    the environment's other entries in their order.  An entry is valid
    when its value is a string that decodes to exactly 32 bytes by the
    rule of the specification, which [KeySpec] writes on its own: a text
    of 64 hex digits, in either case, spells its bytes; any other text is
    read as base64 without the white space around it, URL-safe when it has
    [-] or [_] and neither [+] nor [/].  Every key returned is the
    decoding of its entry and has 32 bytes; each entry that is not valid
    (one whose value is not a string too) is left out and logged, in
    order, and the build goes on: every merged entry is either returned
    or logged. *)
Theorem C8_buildKeyring_merges_and_validates static raw env :
  NoDup static.*1 ->
  loadFromEnv rt raw = Ok env ->
  exists keyring logs,
    buildKeyring_from rt static raw = Ok (keyring, logs) /\
    merge static env = merged_spec static env /\
    keyring = valid_entries rt (merged_spec static env) /\
    logs = rejected_entries rt (merged_spec static env) /\
    Forall (fun e =>
              length (key e) = 32%nat /\
              exists value,
                (version e, value) ∈ merged_spec static env /\
                decode_key rt value = Some (key e)) keyring /\
    (length keyring + length logs = length (merged_spec static env))%nat.
Proof.
  intros Hs Hload.
  pose proof (loadFromEnv_NoDup rt raw env Hload) as He.
  pose proof (merge_merged_spec static env Hs He) as Hm.
  exists (valid_entries rt (merged_spec static env)),
         (rejected_entries rt (merged_spec static env)).
  split; [|split; [done|split; [done|split; [done|split]]]].
  - unfold buildKeyring_from. by rewrite Hload, collect_spec, Hm.
  - unfold valid_entries. generalize (merged_spec static env).
    intros merged. induction merged as [|[v k] rest IH]; simpl; [constructor|].
    assert (Forall (fun e =>
                      length (key e) = 32%nat /\
                      exists value,
                        (version e, value) ∈ (v, k) :: rest /\
                        decode_key rt value = Some (key e))
              (omap (fun kv =>
                       match decode_key rt (snd kv) with
                       | Some b => Some {| version := fst kv; key := b |}
                       | None => None
                       end) rest)) as IH'.
    { eapply Forall_impl; [exact IH|]. intros e (Hl & value & Hin & Hd).
      split; [done|]. exists value. split; [by right|done]. }
    destruct (decode_key rt k) as [b|] eqn:Ed; simpl; [|done].
    constructor; [|done]. simpl. split; [by apply (decode_key_length k)|].
    exists k. split; [left|done].
  - unfold valid_entries, rejected_entries. generalize (merged_spec static env).
    intros merged. induction merged as [|[v k] rest IH]; [done|].
    cbn [omap list_omap fst snd]. destruct (decode_key rt k); cbn [length]; lia.
Qed.

End Keyring.

Section KeyringExamples.

Import Keys KeySpec.

(** The environment replaces the key of [gd-2.206] in its place and adds
    [gd-2.207] at the end; the short key of [gd-2.100] is logged and left
    out. *)
Example buildKeyring_scenario :
  buildKeyring_from Fixture.runtime Fixture.static_keys (Some Fixture.env_keys_json)
  = Ok ([ {| version := lit "gd-2.206";
             key := [0x00; 0x11; 0x22; 0x33; 0x44; 0x55; 0x66; 0x77;
                     0x88; 0x99; 0xaa; 0xbb; 0xcc; 0xdd; 0xee; 0xff;
                     0xff; 0xee; 0xdd; 0xcc; 0xbb; 0xaa; 0x99; 0x88;
                     0x77; 0x66; 0x55; 0x44; 0x33; 0x22; 0x11; 0x00] |};
          {| version := lit "gd-2.207";
             key := lit "fedcba9876543210-edcba9876543210" |} ],
        [ LogInvalidHashKey (lit "gd-2.100") InvalidKeyLength ]) /\
  buildKeyring Fixture.runtime None = Ok ([], []).
Proof. split; vm_compute; reflexivity. Qed.

(** Values that are not keys are logged with what the handler complains
    of: the array that holds 64 hex digits passes the hex test and is
    taken for a key of one byte, the number has no [trim], the padded hex
    text is read as base64 and has 64 bytes under the small runtime. *)
Example rejected_values_scenario :
  collect Fixture.runtime Inputs.odd_keys
  = ([], [ LogInvalidHashKey (lit "gd-2.300") InvalidKeyLength;
           LogInvalidHashKey (lit "gd-2.301") KeyNotAString;
           LogInvalidHashKey (lit "gd-2.302") InvalidKeyLength ]) /\
  valid_entries Fixture.runtime Inputs.odd_keys = [] /\
  rejected_entries Fixture.runtime Inputs.odd_keys
  = snd (collect Fixture.runtime Inputs.odd_keys).
Proof. repeat split; vm_compute; reflexivity. Qed.

Lemma C8_witness :
  exists keyring logs,
    buildKeyring_from Fixture.runtime Fixture.static_keys (Some Fixture.env_keys_json)
      = Ok (keyring, logs) /\
    merge Fixture.static_keys Inputs.env_keys
    = merged_spec Fixture.static_keys Inputs.env_keys /\
    keyring = valid_entries Fixture.runtime
                (merged_spec Fixture.static_keys Inputs.env_keys) /\
    logs = rejected_entries Fixture.runtime
             (merged_spec Fixture.static_keys Inputs.env_keys) /\
    Forall (fun e =>
              length (key e) = 32%nat /\
              exists value,
                (version e, value) ∈ merged_spec Fixture.static_keys Inputs.env_keys /\
                decode_key Fixture.runtime value = Some (key e)) keyring /\
    (length keyring + length logs
     = length (merged_spec Fixture.static_keys Inputs.env_keys))%nat.
Proof.
  apply (C8_buildKeyring_merges_and_validates Fixture.runtime Fixture.static_keys
           (Some Fixture.env_keys_json) Inputs.env_keys).
  - apply (bool_decide_eq_true_1 _). vm_compute; reflexivity.
  - vm_compute; reflexivity.
Defined.

End KeyringExamples.

(** ** More of the handler: configuration and nonce comparison *)

Section MoreConfiguration.

Import Live.

Context (rt : Runtime).

Lemma readNumberEnv_limit_is raw fallback :
  limit_is rt raw fallback (readNumberEnv rt raw fallback).
Proof.
  unfold limit_is, readNumberEnv. split.
  - intros r -> Hr Hf. destruct r as [|c r]; [done|]. simpl. by rewrite Hf.
  - intros [->|[->|(r & -> & Hf)]]; try done.
    destruct (negb (truthy_str r)); [done|]. by rewrite Hf.
Qed.

(** X1: each limit of [LIVE_LINK_CONFIG] is read from its own environment
    variable with its own default (5000, 262144, 600, 20, 5, 10000000,
    20000): it is the [Number] of the variable whenever the variable is set
    to a non-empty text whose [Number] is finite, and the default in every
    other case (unset, empty, not a number, infinite).  So whatever the
    environment holds every limit is a finite number, and an environment
    whose variables are all unset or empty gives the defaults. *)
Theorem LIVE_LINK_CONFIG_finite_or_fallback env :
  Forall (fun '(name, fallback, limit) =>
            Num.isFinite fallback = true /\
            limit_is rt (env name) fallback (limit (LIVE_LINK_CONFIG rt env)))
    config_surface /\
  config_finite (LIVE_LINK_CONFIG rt env) /\
  ((forall name, env name = None \/ env name = Some []) ->
   LIVE_LINK_CONFIG rt env
   = {| handshakeTimeoutMs := 5000; maxMessageBytes := 262144;
        maxFramesPerChunk := 600; maxPctPerSecond := 20; maxPctBurst := 5;
        maxAbsCoord := 10000000; maxCoordDelta := 20000 |}).
Proof.
  split; [|split].
  - unfold config_surface.
    repeat (constructor; [split; [reflexivity|apply readNumberEnv_limit_is]|]).
    constructor.
  - apply LIVE_LINK_CONFIG_finite.
  - intros Henv. unfold LIVE_LINK_CONFIG.
    assert (forall name fallback, readNumberEnv rt (env name) fallback = fallback) as E.
    { intros name fallback. by destruct (Henv name) as [-> | ->]. }
    by rewrite !E.
Qed.

End MoreConfiguration.

Section MoreNonceComparison.

Import Live.

(** X2: [timingSafeEqualString] holds exactly when the two strings have the
    same UTF-8 bytes: strings whose encodings differ in length are unequal
    without a comparison of bytes, the comparison is reflexive and
    symmetric, and against an ASCII string (as the base64url nonce of
    [open] is) it is equality of strings. *)
Theorem timingSafeEqualString_compares_utf8_bytes a b :
  (timingSafeEqualString a b = true <-> buffer_from_utf8 a = buffer_from_utf8 b) /\
  (length (buffer_from_utf8 a) <> length (buffer_from_utf8 b) ->
   timingSafeEqualString a b = false) /\
  timingSafeEqualString a a = true /\
  timingSafeEqualString a b = timingSafeEqualString b a /\
  (ascii_string b -> (timingSafeEqualString a b = true <-> a = b)).
Proof.
  split; [apply timingSafeEqualString_spec|]. split.
  { intros Hlen. unfold timingSafeEqualString, byteLength.
    by destruct (Nat.eqb_spec (length (buffer_from_utf8 a)) (length (buffer_from_utf8 b))). }
  split; [by apply timingSafeEqualString_spec|]. split.
  { destruct (timingSafeEqualString a b) eqn:Eab, (timingSafeEqualString b a) eqn:Eba;
      try done.
    - apply timingSafeEqualString_spec in Eab. symmetry in Eab.
      apply timingSafeEqualString_spec in Eab. congruence.
    - apply timingSafeEqualString_spec in Eba. symmetry in Eba.
      apply timingSafeEqualString_spec in Eba. congruence. }
  apply timingSafeEqualString_ascii.
Qed.

End MoreNonceComparison.

(** ** More of the envelope codec: [decryptAuthEnvelope] *)

Section MoreCrypto.

Import Crypto.

Context (rt : Runtime).

(** An error other than the decipher's is raised before the key is used. *)
Lemma decryptAuthEnvelope_error_any_key envelope key key' e :
  decryptAuthEnvelope rt envelope key = Err e ->
  e <> CipherFailure ->
  decryptAuthEnvelope rt envelope key' = Err e.
Proof.
  unfold decryptAuthEnvelope, decryptAes256Gcm, decryptAes256Cbc.
  destruct (nullish_or (data envelope) (ciphertext envelope)) as [c|]; [|done].
  destruct (negb (truthy_str c)); [done|]. cbv zeta.
  destruct (_ || _).
  - destruct (negb (byteLength _ =? 16)%nat); [done|].
    destruct (_ || _); [done|].
    destruct (aes256gcm_decrypt rt key _ _ _); [done|]. by intros [= <-].
  - destruct (negb (byteLength _ =? 16)%nat); [done|].
    destruct (aes256cbc_decrypt rt key _ _); [done|]. by intros [= <-].
Qed.

(** X3: when [decryptAuthEnvelope] returns a plaintext, the ciphertext
    ([data], or [ciphertext] when there is no [data]) is a non-empty string,
    and either the envelope has a tag that decodes to 16 bytes, its IV
    decodes to 12 to 32 bytes and the plaintext is what AES-256-GCM gives
    under the key, or the envelope has no tag, its [alg] does not contain
    "gcm" in any case, its IV decodes to exactly 16 bytes and the plaintext
    is what AES-256-CBC gives. *)
Theorem decryptAuthEnvelope_success_mode envelope key plaintext :
  decryptAuthEnvelope rt envelope key = Ok plaintext ->
  exists c,
    nullish_or (data envelope) (ciphertext envelope) = Some c /\ c <> [] /\
    ((exists t plain,
        tag envelope = Some t /\ t <> [] /\
        length (decodeBase64Like rt t) = 16%nat /\
        (12 <= length (decodeBase64Like rt (iv envelope)) <= 32)%nat /\
        aes256gcm_decrypt rt key (decodeBase64Like rt (iv envelope))
          (decodeBase64Like rt c) (decodeBase64Like rt t) = Some plain /\
        plaintext = buffer_to_utf8 rt plain)
     \/
     (exists plain,
        (tag envelope = None \/ tag envelope = Some []) /\
        includes (toLowerCase (default [] (alg envelope))) (lit "gcm") = false /\
        length (decodeBase64Like rt (iv envelope)) = 16%nat /\
        aes256cbc_decrypt rt key (decodeBase64Like rt (iv envelope))
          (decodeBase64Like rt c) = Some plain /\
        plaintext = buffer_to_utf8 rt plain)).
Proof.
  unfold decryptAuthEnvelope, decryptAes256Gcm, decryptAes256Cbc, byteLength.
  destruct (nullish_or (data envelope) (ciphertext envelope)) as [c|]; [|done].
  destruct c as [|c0 c]; [done|]. simpl negb. cbv iota zeta.
  intros H. exists (c0 :: c). split; [done|]. split; [done|].
  destruct (tag envelope) as [[|t0 t]|] eqn:Et; simpl in H.
  - destruct (includes _ _) eqn:Eg; [done|]. simpl in H.
    destruct (Nat.eqb_spec (length (decodeBase64Like rt (iv envelope))) 16); [|done].
    simpl in H.
    destruct (aes256cbc_decrypt rt key _ _) as [plain|] eqn:Ec; [|done].
    injection H as <-. right. exists plain. split; [by right|done].
  - left.
    destruct (Nat.eqb_spec (length (decodeBase64Like rt (t0 :: t))) 16); [|done].
    simpl in H.
    destruct (Nat.ltb_spec (length (decodeBase64Like rt (iv envelope))) 12); [done|].
    destruct (Nat.ltb_spec 32 (length (decodeBase64Like rt (iv envelope)))); [done|].
    simpl in H.
    destruct (aes256gcm_decrypt rt key _ _ _) as [plain|] eqn:Ec; [|done].
    injection H as <-. exists (t0 :: t), plain.
    split; [done|]. split; [done|]. split; [done|]. split; [lia|]. done.
  - destruct (includes _ _) eqn:Eg; [done|]. simpl in H.
    destruct (Nat.eqb_spec (length (decodeBase64Like rt (iv envelope))) 16); [|done].
    simpl in H.
    destruct (aes256cbc_decrypt rt key _ _) as [plain|] eqn:Ec; [|done].
    injection H as <-. right. exists plain. split; [by left|done].
Qed.

(** X4: an error of [decryptAuthEnvelope] other than the decipher's own
    (no ciphertext, a tag that is not 16 bytes, an IV of the wrong length)
    does not depend on the key: under every key the same envelope gives
    the same error, so it tells nothing about a key. *)
Theorem decryptAuthEnvelope_format_error_ignores_key envelope key key' e :
  e <> CipherFailure ->
  (decryptAuthEnvelope rt envelope key = Err e <->
   decryptAuthEnvelope rt envelope key' = Err e).
Proof.
  intros He. split; intros H; by eapply decryptAuthEnvelope_error_any_key.
Qed.

End MoreCrypto.

Section MoreCryptoWitnesses.

Import Crypto.

(** The GCM envelope opens under the second key. *)
Lemma decryptAuthEnvelope_success_mode_witness :
  exists c,
    nullish_or (data Inputs.gcm_envelope) (ciphertext Inputs.gcm_envelope) = Some c /\
    c <> [] /\
    ((exists t plain,
        tag Inputs.gcm_envelope = Some t /\ t <> [] /\
        length (decodeBase64Like Fixture.runtime t) = 16%nat /\
        (12 <= length (decodeBase64Like Fixture.runtime (iv Inputs.gcm_envelope)) <= 32)%nat /\
        aes256gcm_decrypt Fixture.runtime (Fixture.key_of 66)
          (decodeBase64Like Fixture.runtime (iv Inputs.gcm_envelope))
          (decodeBase64Like Fixture.runtime c) (decodeBase64Like Fixture.runtime t)
        = Some plain /\
        Fixture.nonce_json Fixture.nonce1 = buffer_to_utf8 Fixture.runtime plain)
     \/
     (exists plain,
        (tag Inputs.gcm_envelope = None \/ tag Inputs.gcm_envelope = Some []) /\
        includes (toLowerCase (default [] (alg Inputs.gcm_envelope))) (lit "gcm") = false /\
        length (decodeBase64Like Fixture.runtime (iv Inputs.gcm_envelope)) = 16%nat /\
        aes256cbc_decrypt Fixture.runtime (Fixture.key_of 66)
          (decodeBase64Like Fixture.runtime (iv Inputs.gcm_envelope))
          (decodeBase64Like Fixture.runtime c) = Some plain /\
        Fixture.nonce_json Fixture.nonce1 = buffer_to_utf8 Fixture.runtime plain)).
Proof.
  apply (decryptAuthEnvelope_success_mode Fixture.runtime Inputs.gcm_envelope
           (Fixture.key_of 66) (Fixture.nonce_json Fixture.nonce1)).
  vm_compute. reflexivity.
Defined.

(** GCM named without a tag: the same error under both keys. *)
Lemma decryptAuthEnvelope_format_error_ignores_key_witness :
  decryptAuthEnvelope Fixture.runtime Inputs.untagged_gcm_envelope (Fixture.key_of 65)
    = Err InvalidGcmTagLength <->
  decryptAuthEnvelope Fixture.runtime Inputs.untagged_gcm_envelope (Fixture.key_of 66)
    = Err InvalidGcmTagLength.
Proof.
  apply (decryptAuthEnvelope_format_error_ignores_key Fixture.runtime
           Inputs.untagged_gcm_envelope (Fixture.key_of 65) (Fixture.key_of 66)
           InvalidGcmTagLength).
  discriminate.
Defined.

End MoreCryptoWitnesses.

(** ** More of the handshake branch of [message] *)

Section MoreHandshake.

Import Sessions Live.

Context (rt : Runtime) (cfg : Config).

(** The loop tries every key when none opens the envelope. *)
Lemma key_trial_all_fail envelope nonce_ keyring :
  Forall (fun e => try_key rt envelope (Keys.key e) = None) keyring ->
  key_trial rt envelope nonce_ keyring = (TrialExhausted, keyring).
Proof.
  induction 1 as [|e rest He _ IH]; simpl; [done|]. by rewrite He, IH.
Qed.

(** The loop stops at the first key that opens the envelope. *)
Lemma key_trial_first_match envelope nonce_ pre entry post payload :
  Forall (fun e => try_key rt envelope (Keys.key e) = None) pre ->
  try_key rt envelope (Keys.key entry) = Some payload ->
  key_trial rt envelope nonce_ (pre ++ entry :: post)
  = (if timingSafeEqualString (Crypto.nonce payload) nonce_
     then TrialAuthed (Keys.version entry) payload
     else TrialNonceMismatch,
     pre ++ [entry]).
Proof.
  intros Hpre Ht. induction Hpre as [|e rest He _ IH]; simpl.
  - rewrite Ht. by destruct (timingSafeEqualString _ _).
  - by rewrite He, IH.
Qed.

(** X5: a challenge answered under a key of the keyring is accepted: when
    the keys before an entry fail to open the envelope, the entry's key
    opens it to a payload whose nonce passes the comparison with the
    session's, and the entry's version is not empty, the session becomes
    authorized under that version with its nonce unchanged and its deadline
    handle dropped, the peer's context is marked authorized, the deadline
    timer is cleared and [auth_ok] with the version is sent. No later entry
    matters. *)
Theorem first_matching_key_authorizes
    pre entry post p m now w session data envelope payload :
  sessions w !! peer_id p = Some session ->
  state (auth session) = challenging ->
  Num.gt (Num.of_nat (msg_byteLength m)) (maxMessageBytes cfg) = false ->
  msg_json m = Some data ->
  is_ping data = false ->
  Crypto.parseAuthEnvelope (envelopeCandidate data) = Some envelope ->
  Forall (fun e => try_key rt envelope (Keys.key e) = None) pre ->
  try_key rt envelope (Keys.key entry) = Some payload ->
  timingSafeEqualString (Crypto.nonce payload) (nonce (auth session)) = true ->
  Keys.version entry <> [] ->
  message rt cfg (pre ++ entry :: post) p m now w
  = ({| sessions :=
          <[peer_id p :=
              with_auth {| state := authorized; nonce := nonce (auth session);
                           version := Some (Keys.version entry);
                           handshakeTimer := None |} session]> (sessions w);
        contexts := alter mark_context (peer_id p) (contexts w) |},
     clear_timer (auth session)
     ++ [Send (peer_id p)
           (JObj [(lit "cmd", JStr (lit "auth_ok"));
                  (lit "version", JStr (Keys.version entry))])]).
Proof.
  intros Hs Hst Hsz Hj Hp He Hpre Ht Heq Hv.
  rewrite (message_challenging rt cfg _ p m now w session data Hs Hst Hsz Hj Hp).
  unfold handshake. rewrite He, (key_trial_first_match _ _ _ _ _ _ Hpre Ht), Heq.
  simpl fst. cbv iota. by destruct (Keys.version entry).
Qed.

(** X6: an entry of the keyring whose version is the empty string never
    authorizes: when its key is the first to open the envelope, and the
    nonce matches, the handshake still closes the connection with
    "Unauthorized" and leaves the session as it was; the entries after it
    are not tried. *)
Theorem empty_version_never_authorizes
    pre entry post p m now w session data envelope payload :
  sessions w !! peer_id p = Some session ->
  state (auth session) = challenging ->
  Num.gt (Num.of_nat (msg_byteLength m)) (maxMessageBytes cfg) = false ->
  msg_json m = Some data ->
  is_ping data = false ->
  Crypto.parseAuthEnvelope (envelopeCandidate data) = Some envelope ->
  Forall (fun e => try_key rt envelope (Keys.key e) = None) pre ->
  try_key rt envelope (Keys.key entry) = Some payload ->
  timingSafeEqualString (Crypto.nonce payload) (nonce (auth session)) = true ->
  Keys.version entry = [] ->
  snd (key_trial rt envelope (nonce (auth session)) (pre ++ entry :: post))
    = pre ++ [entry] /\
  message rt cfg (pre ++ entry :: post) p m now w
  = (w, [Close (peer_id p) 1008 (lit "Unauthorized")]).
Proof.
  intros Hs Hst Hsz Hj Hp He Hpre Ht Heq Hv.
  rewrite (message_challenging rt cfg _ p m now w session data Hs Hst Hsz Hj Hp).
  unfold handshake. rewrite He, (key_trial_first_match _ _ _ _ _ _ Hpre Ht), Heq.
  simpl. by rewrite Hv.
Qed.

(** X7: an envelope that passes the schema and is malformed for decryption
    (no usable ciphertext, GCM with a tag that is not 16 bytes, an IV of
    the wrong length) is not told apart from a wrong key: every key of the
    keyring is tried, and the connection is closed with "Unauthorized",
    the session left as it was. *)
Theorem malformed_envelope_exhausts_keyring
    keyring p m now w session data envelope key0 e :
  sessions w !! peer_id p = Some session ->
  state (auth session) = challenging ->
  Num.gt (Num.of_nat (msg_byteLength m)) (maxMessageBytes cfg) = false ->
  msg_json m = Some data ->
  is_ping data = false ->
  Crypto.parseAuthEnvelope (envelopeCandidate data) = Some envelope ->
  Crypto.decryptAuthEnvelope rt envelope key0 = Err e ->
  e <> Crypto.CipherFailure ->
  key_trial rt envelope (nonce (auth session)) keyring = (TrialExhausted, keyring) /\
  message rt cfg keyring p m now w
  = (w, [Close (peer_id p) 1008 (lit "Unauthorized")]).
Proof.
  intros Hs Hst Hsz Hj Hp He Hd Hne.
  assert (key_trial rt envelope (nonce (auth session)) keyring = (TrialExhausted, keyring))
    as Hk.
  { apply key_trial_all_fail, Forall_forall. intros entry _. unfold try_key.
    by rewrite (decryptAuthEnvelope_error_any_key rt envelope key0 (Keys.key entry) e Hd Hne). }
  split; [done|].
  rewrite (message_challenging rt cfg _ p m now w session data Hs Hst Hsz Hj Hp).
  unfold handshake. by rewrite He, Hk.
Qed.

(** The outcomes of the handshake. *)
Lemma handshake_outcomes keyring p session data w now :
  (fst (handshake rt keyring p session data w) = w /\
   challenging_reply p now (snd (handshake rt keyring p session data w)))
  \/
  (exists v,
     v <> [] /\
     (exists entry, entry ∈ keyring /\ Keys.version entry = v) /\
     handshake rt keyring p session data w
     = ({| sessions :=
             <[peer_id p := with_auth (authorize v (auth session)) session]> (sessions w);
           contexts := alter mark_context (peer_id p) (contexts w) |},
        clear_timer (auth session)
        ++ sendJson p (cmd_msg "auth_ok" [(lit "version", JStr v)]))).
Proof.
  unfold handshake.
  destruct (Crypto.parseAuthEnvelope (envelopeCandidate data)) as [envelope|];
    [|left; split; [done|constructor]].
  destruct (fst (key_trial rt envelope (nonce (auth session)) keyring))
    as [v payload| |] eqn:Ek; try (left; split; [done|constructor]).
  destruct v as [|c v]; simpl; [left; split; [done|constructor]|].
  right. exists (c :: v). split; [done|]. split; [|done].
  destruct (key_trial_authed rt envelope _ keyring _ payload Ek) as (entry & Hin & Hv & _).
  by exists entry.
Qed.

(** X8: what a peer that is not authorized can get from a message: either
    nothing changes and the answer is one of six (the kill with "Message
    too large" or "Invalid JSON", a pong, or a close with "Bad auth
    envelope", "Nonce mismatch" or "Unauthorized"), or its session becomes
    authorized under the non-empty version of an entry of the keyring and
    the answer is [auth_ok]. No message of a peer that is not authorized
    reaches the telemetry checks or changes the telemetry state. *)
Theorem challenging_message_outcomes keyring p m now w session :
  sessions w !! peer_id p = Some session ->
  state (auth session) = challenging ->
  (fst (message rt cfg keyring p m now w) = w /\
   challenging_reply p now (snd (message rt cfg keyring p m now w)))
  \/
  (exists entry,
     entry ∈ keyring /\ Keys.version entry <> [] /\
     message rt cfg keyring p m now w
     = ({| sessions :=
             <[peer_id p :=
                 with_auth {| state := authorized; nonce := nonce (auth session);
                              version := Some (Keys.version entry);
                              handshakeTimer := None |} session]> (sessions w);
           contexts := alter mark_context (peer_id p) (contexts w) |},
        clear_timer (auth session)
        ++ [Send (peer_id p)
              (JObj [(lit "cmd", JStr (lit "auth_ok"));
                     (lit "version", JStr (Keys.version entry))])])).
Proof.
  intros Hs Hst. unfold message. rewrite Hs, Hst.
  destruct (Num.gt _ _); [left; split; [done|constructor]|].
  destruct (msg_json m) as [data|]; [|left; split; [done|constructor]].
  destruct (is_ping data); [left; split; [done|constructor]|].
  destruct (handshake_outcomes keyring p session data w now)
    as [?|(v & Hv & (entry & Hin & <-) & ->)]; [by left|].
  right. by exists entry.
Qed.

(** X9: the envelope may be sent bare or wrapped in an object under
    [payload]: for a session that is not authorized, a message whose JSON
    is [{payload: E, ...}] is answered as the message [E] is, when [E] is
    an object with no [payload] of its own and neither is a ping. *)
Theorem wrapped_envelope_same_as_bare keyring p m m' now w session fields wrapper :
  sessions w !! peer_id p = Some session ->
  state (auth session) = challenging ->
  Num.gt (Num.of_nat (msg_byteLength m)) (maxMessageBytes cfg) = false ->
  Num.gt (Num.of_nat (msg_byteLength m')) (maxMessageBytes cfg) = false ->
  msg_json m = Some (JObj fields) ->
  msg_json m' = Some (JObj wrapper) ->
  get_field (lit "payload") wrapper = Some (JObj fields) ->
  get_field (lit "payload") fields = None ->
  is_ping (JObj fields) = false ->
  is_ping (JObj wrapper) = false ->
  message rt cfg keyring p m' now w = message rt cfg keyring p m now w.
Proof.
  intros Hs Hst Hsz Hsz' Hj Hj' Hw Hf Hp Hp'.
  rewrite (message_challenging rt cfg _ p m now w session _ Hs Hst Hsz Hj Hp).
  rewrite (message_challenging rt cfg _ p m' now w session _ Hs Hst Hsz' Hj' Hp').
  unfold handshake, envelopeCandidate. simpl. by rewrite Hw, Hf.
Qed.

End MoreHandshake.

Section MoreHandshakeWitnesses.

Import Sessions Live.

(** The fixture's challenge, answered under the second key of two. *)
Lemma first_matching_key_authorizes_witness :
  message Fixture.runtime Fixture.cfg ([Inputs.entryA] ++ Inputs.entryB :: [])
    Fixture.peer1 Inputs.answer 1001 Fixture.world_open
  = ({| sessions :=
          <[peer_id Fixture.peer1 :=
              with_auth {| state := authorized;
                           nonce := nonce (auth Fixture.session_open);
                           version := Some (Keys.version Inputs.entryB);
                           handshakeTimer := None |} Fixture.session_open]>
            (sessions Fixture.world_open);
        contexts := alter mark_context (peer_id Fixture.peer1)
                      (contexts Fixture.world_open) |},
     clear_timer (auth Fixture.session_open)
     ++ [Send (peer_id Fixture.peer1)
           (JObj [(lit "cmd", JStr (lit "auth_ok"));
                  (lit "version", JStr (Keys.version Inputs.entryB))])]).
Proof.
  apply (first_matching_key_authorizes Fixture.runtime Fixture.cfg
           [Inputs.entryA] Inputs.entryB [] Fixture.peer1 Inputs.answer 1001
           Fixture.world_open Fixture.session_open
           (Fixture.envelope_for 66 Fixture.nonce1) Inputs.answer_envelope
           {| Crypto.nonce := Fixture.nonce1 |});
    try (vm_compute; reflexivity).
  - repeat constructor.
  - discriminate.
Defined.

(** The same answer when the key is configured under the empty version. *)
Lemma empty_version_never_authorizes_witness :
  snd (key_trial Fixture.runtime Inputs.answer_envelope
         (nonce (auth Fixture.session_open))
         ([Inputs.entryA] ++ Inputs.unnamed_entry :: [Inputs.entryB]))
    = [Inputs.entryA] ++ [Inputs.unnamed_entry] /\
  message Fixture.runtime Fixture.cfg
    ([Inputs.entryA] ++ Inputs.unnamed_entry :: [Inputs.entryB])
    Fixture.peer1 Inputs.answer 1001 Fixture.world_open
  = (Fixture.world_open, [Close (peer_id Fixture.peer1) 1008 (lit "Unauthorized")]).
Proof.
  apply (empty_version_never_authorizes Fixture.runtime Fixture.cfg
           [Inputs.entryA] Inputs.unnamed_entry [Inputs.entryB]
           Fixture.peer1 Inputs.answer 1001
           Fixture.world_open Fixture.session_open
           (Fixture.envelope_for 66 Fixture.nonce1) Inputs.answer_envelope
           {| Crypto.nonce := Fixture.nonce1 |});
    try (vm_compute; reflexivity).
  repeat constructor.
Defined.

(** GCM named, no tag sent. *)
Lemma malformed_envelope_exhausts_keyring_witness :
  key_trial Fixture.runtime Inputs.untagged_gcm_envelope
    (nonce (auth Fixture.session_open)) Fixture.keyring
  = (TrialExhausted, Fixture.keyring) /\
  message Fixture.runtime Fixture.cfg Fixture.keyring Fixture.peer1
    (Fixture.msg_of Inputs.untagged_gcm_json) 1001 Fixture.world_open
  = (Fixture.world_open, [Close (peer_id Fixture.peer1) 1008 (lit "Unauthorized")]).
Proof.
  apply (malformed_envelope_exhausts_keyring Fixture.runtime Fixture.cfg
           Fixture.keyring Fixture.peer1 (Fixture.msg_of Inputs.untagged_gcm_json) 1001
           Fixture.world_open Fixture.session_open Inputs.untagged_gcm_json
           Inputs.untagged_gcm_envelope (Fixture.key_of 65) Crypto.InvalidGcmTagLength);
    try (vm_compute; reflexivity).
  discriminate.
Defined.

(** The outcomes for the fixture's peer before it has answered. *)
Lemma challenging_message_outcomes_witness :
  (fst (message Fixture.runtime Fixture.cfg Fixture.keyring Fixture.peer1
          Inputs.answer 1001 Fixture.world_open) = Fixture.world_open /\
   challenging_reply Fixture.peer1 1001
     (snd (message Fixture.runtime Fixture.cfg Fixture.keyring Fixture.peer1
             Inputs.answer 1001 Fixture.world_open)))
  \/
  (exists entry,
     entry ∈ Fixture.keyring /\ Keys.version entry <> [] /\
     message Fixture.runtime Fixture.cfg Fixture.keyring Fixture.peer1
       Inputs.answer 1001 Fixture.world_open
     = ({| sessions :=
             <[peer_id Fixture.peer1 :=
                 with_auth {| state := authorized;
                              nonce := nonce (auth Fixture.session_open);
                              version := Some (Keys.version entry);
                              handshakeTimer := None |} Fixture.session_open]>
               (sessions Fixture.world_open);
           contexts := alter mark_context (peer_id Fixture.peer1)
                         (contexts Fixture.world_open) |},
        clear_timer (auth Fixture.session_open)
        ++ [Send (peer_id Fixture.peer1)
              (JObj [(lit "cmd", JStr (lit "auth_ok"));
                     (lit "version", JStr (Keys.version entry))])])).
Proof.
  apply (challenging_message_outcomes Fixture.runtime Fixture.cfg Fixture.keyring
           Fixture.peer1 Inputs.answer 1001 Fixture.world_open Fixture.session_open);
    vm_compute; reflexivity.
Defined.

(** The fixture's answer, bare and wrapped. *)
Lemma wrapped_envelope_same_as_bare_witness :
  message Fixture.runtime Fixture.cfg Fixture.keyring Fixture.peer1
    Inputs.wrapped_answer 1001 Fixture.world_open
  = message Fixture.runtime Fixture.cfg Fixture.keyring Fixture.peer1
      Inputs.answer 1001 Fixture.world_open.
Proof.
  apply (wrapped_envelope_same_as_bare Fixture.runtime Fixture.cfg Fixture.keyring
           Fixture.peer1 Inputs.answer Inputs.wrapped_answer 1001
           Fixture.world_open Fixture.session_open
           [(lit "iv", JStr (lit "0123456789abcdef"));
            (lit "data", JStr (66 :: Fixture.nonce_json Fixture.nonce1))]
           [(lit "payload", Fixture.envelope_for 66 Fixture.nonce1)]);
    vm_compute; reflexivity.
Defined.

End MoreHandshakeWitnesses.

(** ** More of the hooks: the life of a session *)

Section SessionLife.

Import Sessions Live Hooks.

Context (rt : Runtime) (cfg : Config).

(** X10: a ping that fits the size limit is answered by a pong that carries
    the server's clock, whether the session is authorized or not, and
    changes nothing: not the session, not its sequence number, not its
    baselines.  Any number of pings, from any peers, leaves the state as it
    was. *)
Theorem ping_changes_nothing keyring w :
  (forall p m now session,
     sessions w !! peer_id p = Some session ->
     is_ping_call cfg (CallMessage p m now) ->
     message rt cfg keyring p m now w
     = (w, [Send (peer_id p) (JObj [(lit "cmd", JStr (lit "pong")); (lit "t", JNum now)])])) /\
  (forall cs, Forall (is_ping_call cfg) cs -> fst (run rt cfg keyring cs w) = w).
Proof.
  split.
  - intros p m now session Hs (Hsz & data & Hj & Hp). unfold message.
    by rewrite Hs, Hsz, Hj, Hp.
  - intros cs Hcs. induction Hcs as [|c cs Hc _ IH]; simpl; [done|].
    assert (fst (dispatch rt cfg keyring c w) = w) as Hd.
    { destruct c as [| p m now | |]; try done. destruct Hc as (Hsz & data & Hj & Hp).
      simpl. unfold message. destruct (sessions w !! peer_id p); [|done].
      by rewrite Hsz, Hj, Hp. }
    destruct (dispatch rt cfg keyring c w) as [w1 evs1]. simpl in Hd. subst w1.
    by destruct (run rt cfg keyring cs w).
Qed.

Lemma kept_refl s : kept s s.
Proof. by unfold kept. Qed.

Lemma kept_trans s1 s2 s3 : kept s1 s2 -> kept s2 s3 -> kept s1 s3.
Proof.
  intros (? & ? & ? & ? & ? & H12) (? & ? & ? & ? & ? & H23).
  unfold kept. repeat split; try congruence.
  intros Ha. rewrite <- (H12 Ha). apply H23. by rewrite (H12 Ha).
Qed.

Lemma message_kept keyring p m now w s :
  sessions w !! peer_id p = Some s ->
  exists s',
    sessions (fst (message rt cfg keyring p m now w)) !! peer_id p = Some s' /\ kept s s'.
Proof.
  intros Hs. unfold message. rewrite Hs.
  destruct (Num.gt _ _); [exists s; split; [done|apply kept_refl]|].
  destruct (msg_json m) as [data|]; [|exists s; split; [done|apply kept_refl]].
  destruct (is_ping data); [exists s; split; [done|apply kept_refl]|].
  destruct (state (auth s)) eqn:Hst.
  - destruct (handshake_outcomes rt keyring p s data w now)
      as [[-> _]|(v & _ & _ & ->)]; [exists s; split; [done|apply kept_refl]|].
    simpl. rewrite lookup_insert_eq. eexists. split; [done|].
    unfold kept. simpl. repeat split; try done. congruence.
  - destruct (handle_telemetry cfg now (telemetry s) data) as [t' k]. simpl.
    rewrite lookup_insert_eq. eexists. split; [done|]. by unfold kept.
Qed.

Lemma dispatch_kept keyring c w i s :
  ~ opens i c -> ~ closes i c ->
  sessions w !! i = Some s ->
  exists s', sessions (fst (dispatch rt cfg keyring c w)) !! i = Some s' /\ kept s s'.
Proof.
  intros Ho Hc Hs. destruct c as [p n t0 tm|p m now|p|p e]; simpl in *.
  - exists s. split; [|apply kept_refl]. unfold open.
    destruct (length keyring =? 0)%nat; simpl; by rewrite lookup_insert_ne.
  - destruct (decide (i = peer_id p)) as [->|Hne].
    + by apply message_kept.
    + exists s. split; [|apply kept_refl]. by rewrite message_other_sessions.
  - exists s. split; [|apply kept_refl]. unfold close.
    destruct (sessions w !! peer_id p); simpl; [|done]. by rewrite lookup_delete_ne.
  - exists s. split; [done|apply kept_refl].
Qed.

(** X11: while a connection is neither opened again nor closed, whatever
    messages arrive on it or on others, its session stays in the store with
    the same id, peer, creation time and challenge nonce; and once it is
    authorized its authentication state is never changed again: not the
    state, not the version, and no kill revokes it. *)
Theorem session_identity_and_authorization_kept keyring cs w i s :
  sessions w !! i = Some s ->
  Forall (fun c => ~ opens i c /\ ~ closes i c) cs ->
  exists s',
    sessions (fst (run rt cfg keyring cs w)) !! i = Some s' /\
    id s' = id s /\ peer s' = peer s /\ createdAt s' = createdAt s /\
    remoteAddress s' = remoteAddress s /\
    nonce (auth s') = nonce (auth s) /\
    (state (auth s) = authorized -> auth s' = auth s).
Proof.
  intros Hs Hcs. change (exists s', sessions (fst (run rt cfg keyring cs w)) !! i = Some s'
                                    /\ kept s s').
  revert w s Hs. induction Hcs as [|c cs [Ho Hc] _ IH]; intros w s Hs; simpl.
  - exists s. split; [done|apply kept_refl].
  - destruct (dispatch_kept keyring c w i s Ho Hc Hs) as (s1 & Hs1 & Hk1).
    destruct (dispatch rt cfg keyring c w) as [w1 evs1]. simpl in Hs1.
    destruct (IH w1 s1 Hs1) as (s2 & Hs2 & Hk2).
    destruct (run rt cfg keyring cs w1) as [w2 evs2]. simpl in *.
    exists s2. split; [done|]. by apply (kept_trans s s1 s2).
Qed.

(** X12: [close] forgets the session of the connection and only that: a
    second [close] does nothing, a message that arrives after it is
    answered by closing with "No session" and changes nothing, and the
    sessions of the other connections are untouched. *)
Theorem close_forgets_the_session keyring p w :
  sessions (fst (close p w)) !! peer_id p = None /\
  close p (fst (close p w)) = (fst (close p w), []) /\
  (forall m now,
     message rt cfg keyring p m now (fst (close p w))
     = (fst (close p w), [Close (peer_id p) 1008 (lit "No session")])) /\
  (forall i, i <> peer_id p -> sessions (fst (close p w)) !! i = sessions w !! i).
Proof.
  assert (sessions (fst (close p w)) !! peer_id p = None) as Hnone.
  { unfold close. destruct (sessions w !! peer_id p) eqn:Hs; simpl; [|done].
    by rewrite lookup_delete_eq. }
  split; [done|]. split; [|split].
  - unfold close at 1. by rewrite Hnone.
  - intros m now. unfold message. by rewrite Hnone.
  - intros i Hne. unfold close. destruct (sessions w !! peer_id p); simpl; [|done].
    by rewrite lookup_delete_ne.
Qed.

End SessionLife.

(** ** More of the hooks: what is true of every stored session *)

Section WorldInvariant.

Import Sessions Live Hooks.

Context (rt : Runtime) (cfg : Config).

Lemma TelemetrySchema_finite data tm :
  TelemetrySchema data = Some tm -> Num.isFinite (current_pct tm) = true.
Proof.
  unfold TelemetrySchema. destruct data as [| | | | |fields]; try done.
  destruct (Zod.optional _ _); [|done].
  destruct (Zod.required Zod.number_int_nonnegative _); [|done].
  destruct (Zod.required Zod.number_finite _) as [pct|] eqn:Ep; [|done].
  destruct (Zod.required Zod.array_unknown _); [|done].
  intros [= <-]. simpl.
  unfold Zod.required in Ep. destruct (get_field (lit "current_pct") fields) as [v|]; [|done].
  unfold Zod.number_finite in Ep. destruct (Zod.number v) as [n|]; [|done].
  destruct (Num.isFinite n) eqn:En; [|done]. by injection Ep as <-.
Qed.

(** The time and percent baselines after a message are those before it or
    those of the message. *)
Lemma validate_telemetry_baselines now t m :
  (lastAt (fst (validate_telemetry cfg now t m)) = lastAt t /\
   lastPct (fst (validate_telemetry cfg now t m)) = lastPct t)
  \/
  (lastAt (fst (validate_telemetry cfg now t m)) = Some now /\
   lastPct (fst (validate_telemetry cfg now t m)) = Some (current_pct m)).
Proof.
  unfold validate_telemetry.
  destruct (Num.neq _ _); [by left|]. simpl.
  match goal with |- context [match ?r with Some _ => _ | None => _ end] =>
    destruct r as [reason|] end; [by left|].
  destruct (Num.gt _ _); [by right|].
  destruct (frames_loop cfg (lastCoord t) (frames m)). by right.
Qed.

Lemma handle_telemetry_keeps_ok now t data :
  coord_finite (lastCoord t) ->
  (forall pct, lastPct t = Some pct -> Num.isFinite pct = true) ->
  (lastAt t = None <-> lastPct t = None) ->
  coord_finite (lastCoord (fst (handle_telemetry cfg now t data))) /\
  (forall pct, lastPct (fst (handle_telemetry cfg now t data)) = Some pct ->
               Num.isFinite pct = true) /\
  (lastAt (fst (handle_telemetry cfg now t data)) = None <->
   lastPct (fst (handle_telemetry cfg now t data)) = None).
Proof.
  intros Hc Hp Hn. unfold handle_telemetry.
  destruct (TelemetrySchema data) as [m|] eqn:Em; [|done].
  split; [by apply validate_telemetry_coord_finite|].
  destruct (validate_telemetry_baselines now t m) as [[-> ->]|[-> ->]]; [done|].
  split; [|done]. intros pct [= <-]. by apply (TelemetrySchema_finite data).
Qed.

Lemma open_world_ok keyring p nonce_ now timer w :
  world_ok keyring w -> world_ok keyring (fst (open cfg keyring p nonce_ now timer w)).
Proof.
  intros Hw i s. unfold open.
  assert (forall (A B : World * list Event) (b : bool),
            fst A = fst B -> fst (if b then A else B) = fst A) as Hif
    by (by intros A B [] E).
  rewrite Hif by done. simpl.
  destruct (decide (i = peer_id p)) as [->|Hne].
  - rewrite !lookup_insert_eq. intros [= <-]. eexists. split; [done|].
    unfold session_ok. simpl. by repeat split.
  - rewrite !lookup_insert_ne by done. apply Hw.
Qed.

Lemma message_world_ok keyring p m now w :
  world_ok keyring w -> world_ok keyring (fst (message rt cfg keyring p m now w)).
Proof.
  intros Hw. unfold message.
  destruct (sessions w !! peer_id p) as [session|] eqn:Hs; [|done].
  destruct (Num.gt _ _); [done|].
  destruct (msg_json m) as [data|]; [|done].
  destruct (is_ping data); [done|].
  destruct (Hw _ _ Hs) as (c & Hc & Hid & Hpeer & Hcn & Hca & Hst & Hcoord & Hpct & Hnone).
  destruct (state (auth session)) eqn:Est.
  - destruct (handshake_outcomes rt keyring p session data w now)
      as [[-> _]|(v & Hv & (entry & Hin & Hev) & ->)]; [done|].
    intros i s. simpl.
    destruct (decide (i = peer_id p)) as [->|Hne].
    + rewrite lookup_insert_eq, lookup_alter_eq, Hc. intros [= <-]. eexists.
      split; [done|]. unfold session_ok. simpl.
      split; [done|]. split; [done|]. split; [done|]. split; [done|].
      split; [split; [done|]; exists entry; by subst v|].
      split; [done|]. split; [done|]. done.
    + rewrite lookup_insert_ne, lookup_alter_ne by done. apply Hw.
  - destruct (handle_telemetry_keeps_ok now (telemetry session) data Hcoord Hpct Hnone)
      as (Hc' & Hp' & Hn').
    destruct (handle_telemetry cfg now (telemetry session) data) as [t' k]. simpl in *.
    intros i s. simpl.
    destruct (decide (i = peer_id p)) as [->|Hne].
    + rewrite lookup_insert_eq. intros [= <-]. exists c. split; [done|].
      unfold session_ok. simpl. rewrite Est.
      exact (conj Hid (conj Hpeer (conj Hcn (conj Hca
               (conj Hst (conj Hc' (conj Hp' Hn'))))))).
    + rewrite lookup_insert_ne by done. apply Hw.
Qed.

Lemma dispatch_world_ok keyring c w :
  world_ok keyring w -> world_ok keyring (fst (dispatch rt cfg keyring c w)).
Proof.
  intros Hw. destruct c as [p n t0 tm|p m now|p|p e]; simpl.
  - by apply open_world_ok.
  - by apply message_world_ok.
  - unfold close. destruct (sessions w !! peer_id p); [|done]. simpl.
    intros i s. simpl. destruct (decide (i = peer_id p)) as [->|Hne].
    + by rewrite lookup_delete_eq.
    + rewrite lookup_delete_ne by done. apply Hw.
  - done.
Qed.

(** X13: after any sequence of calls of the hooks on the empty store, every
    stored session is consistent: it is stored under its own id and that of
    its peer; the peer's context carries its nonce and says authorized
    exactly when the session is; a session that is not authorized has no
    version, still holds its deadline handle and has seen no telemetry
    (sequence number 1, no baselines); an authorized session holds no
    deadline handle and its version is the non-empty version of an entry
    of the keyring; the coordinate and percent baselines are finite
    numbers, and the time and percent baselines are set together. *)
Theorem stored_sessions_are_consistent keyring cs i s :
  sessions (fst (run rt cfg keyring cs empty_world)) !! i = Some s ->
  exists c,
    contexts (fst (run rt cfg keyring cs empty_world)) !! i = Some c /\
    session_ok keyring i s c.
Proof.
  revert i s. change (world_ok keyring (fst (run rt cfg keyring cs empty_world))).
  assert (forall w, world_ok keyring w -> world_ok keyring (fst (run rt cfg keyring cs w)))
    as H.
  { induction cs as [|c cs IH]; intros w Hw; simpl; [done|].
    pose proof (dispatch_world_ok keyring c w Hw) as H1.
    destruct (dispatch rt cfg keyring c w) as [w1 evs1]. simpl in H1.
    specialize (IH w1 H1). by destruct (run rt cfg keyring cs w1). }
  apply H. intros i s. simpl. by rewrite lookup_empty.
Qed.

(** The deadline timer of a connection, between its [open] and its
    [close]: either the session holds the handle and it was never cleared,
    or the session is authorized, holds none, and it was cleared once. *)
Lemma messages_clear_once keyring p timer msgs w s n :
  Forall (message_of p) msgs ->
  sessions w !! peer_id p = Some s ->
  (state (auth s) = challenging /\ handshakeTimer (auth s) = Some timer /\ n = 0%nat) \/
  (state (auth s) = authorized /\ handshakeTimer (auth s) = None /\ n = 1%nat) ->
  exists s',
    sessions (fst (run rt cfg keyring msgs w)) !! peer_id p = Some s' /\
    ((state (auth s') = challenging /\ handshakeTimer (auth s') = Some timer /\
      (n + count_clear timer (snd (run rt cfg keyring msgs w)))%nat = 0%nat) \/
     (state (auth s') = authorized /\ handshakeTimer (auth s') = None /\
      (n + count_clear timer (snd (run rt cfg keyring msgs w)))%nat = 1%nat)).
Proof.
  intros Hmsgs. revert w s n.
  induction Hmsgs as [|c msgs Hc _ IH]; intros w s n Hs Hinv; simpl.
  { exists s. split; [done|]. rewrite Nat.add_0_r. done. }
  destruct c as [|q m now| |]; try done. simpl in Hc. subst q. simpl.
  assert (exists s1,
            sessions (fst (message rt cfg keyring p m now w)) !! peer_id p = Some s1 /\
            ((state (auth s1) = challenging /\ handshakeTimer (auth s1) = Some timer /\
              (n + count_clear timer (snd (message rt cfg keyring p m now w)))%nat = 0%nat) \/
             (state (auth s1) = authorized /\ handshakeTimer (auth s1) = None /\
              (n + count_clear timer (snd (message rt cfg keyring p m now w)))%nat = 1%nat)))
    as (s1 & Hs1 & Hinv1).
  { unfold message. rewrite Hs.
    destruct (Num.gt _ _); [exists s; split; [done|]; simpl; by rewrite Nat.add_0_r|].
    destruct (msg_json m) as [data|];
      [|exists s; split; [done|]; simpl; by rewrite Nat.add_0_r].
    destruct (is_ping data); [exists s; split; [done|]; simpl; by rewrite Nat.add_0_r|].
    destruct Hinv as [(Hst & Ht & ->)|(Hst & Ht & ->)]; rewrite Hst.
    - destruct (handshake_outcomes rt keyring p s data w now)
        as [[Hw Hr]|(v & _ & _ & ->)].
      + rewrite Hw. exists s. split; [done|]. left. split; [done|]. split; [done|].
        by destruct Hr.
      + simpl. rewrite lookup_insert_eq. eexists. split; [done|]. right. simpl.
        split; [done|]. split; [done|]. unfold clear_timer. rewrite Ht. simpl.
        by rewrite Z.eqb_refl.
    - destruct (handle_telemetry cfg now (telemetry s) data) as [t' k]. simpl.
      rewrite lookup_insert_eq. eexists. split; [done|]. right. simpl.
      split; [done|]. split; [done|]. by destruct k. }
  destruct (message rt cfg keyring p m now w) as [w1 evs1]. simpl in Hs1, Hinv1.
  destruct (IH w1 s1 _ Hs1 Hinv1) as (s' & Hs' & Hinv').
  destruct (run rt cfg keyring msgs w1) as [w2 evs2]. simpl in *.
  exists s'. split; [done|].
  assert (forall a b, count_clear timer (a ++ b)
                      = (count_clear timer a + count_clear timer b)%nat) as Happ.
  { intros a b. induction a as [|[] a IHa]; simpl; try done. rewrite IHa. lia. }
  rewrite Happ, Nat.add_assoc. done.
Qed.

(** X14: the deadline timer that [open] arms is cleared exactly once over
    the life of a connection: in a trace that is the [open] of a peer, any
    messages of that peer and its [close], the timer is cleared once, by
    the handshake when it succeeds and by [close] otherwise, whatever the
    keyring and the messages are. *)
Theorem deadline_timer_cleared_once keyring p nonce_ now timer msgs w :
  Forall (message_of p) msgs ->
  count_clear timer
    (snd (run rt cfg keyring (CallOpen p nonce_ now timer :: msgs ++ [CallClose p]) w))
  = 1%nat.
Proof.
  intros Hmsgs.
  assert (forall a b, count_clear timer (a ++ b)
                      = (count_clear timer a + count_clear timer b)%nat) as Happ.
  { intros a b. induction a as [|[] a IHa]; simpl; try done. rewrite IHa. lia. }
  assert (forall cs1 cs2 w0,
            run rt cfg keyring (cs1 ++ cs2) w0
            = (fst (run rt cfg keyring cs2 (fst (run rt cfg keyring cs1 w0))),
               snd (run rt cfg keyring cs1 w0)
               ++ snd (run rt cfg keyring cs2 (fst (run rt cfg keyring cs1 w0))))) as Hrun.
  { induction cs1 as [|c cs1 IH]; intros cs2 w0; simpl.
    - by destruct (run rt cfg keyring cs2 w0).
    - destruct (dispatch rt cfg keyring c w0) as [w1 evs1]. rewrite IH.
      destruct (run rt cfg keyring cs1 w1) as [w2 evs2]. simpl.
      by rewrite app_assoc. }
  cbn [run dispatch].
  set (opened := open cfg keyring p nonce_ now timer w).
  assert (exists s0, sessions (fst opened) !! peer_id p = Some s0 /\
                     state (auth s0) = challenging /\
                     handshakeTimer (auth s0) = Some timer /\
                     count_clear timer (snd opened) = 0%nat) as (s0 & Hs0 & Hst0 & Ht0 & Hc0).
  { unfold opened, open. destruct (length keyring =? 0)%nat; simpl;
      rewrite lookup_insert_eq; eexists; done. }
  destruct opened as [w1 evs1]. simpl in Hs0, Hc0.
  rewrite Hrun.
  destruct (messages_clear_once keyring p timer msgs w1 s0 0 Hmsgs Hs0
              ltac:(left; done)) as (s' & Hs' & Hinv).
  destruct (run rt cfg keyring msgs w1) as [w2 evs2]. simpl in *.
  unfold close. rewrite Hs'. simpl. rewrite !Happ, Hc0. simpl.
  unfold clear_timer.
  destruct Hinv as [(_ & -> & Hn)|(_ & -> & Hn)]; simpl.
  - rewrite Z.eqb_refl. lia.
  - lia.
Qed.

End WorldInvariant.

Section SessionLifeWitnesses.

Import Sessions Live Hooks.

(** The authorized fixture session through a killed telemetry message and
    an error of the transport. *)
Lemma session_identity_and_authorization_kept_witness :
  exists s',
    sessions (fst (run Fixture.runtime Fixture.cfg Fixture.keyring
                     [CallMessage Fixture.peer1 Fixture.telemetry_out_of_bounds 2000;
                      CallError Fixture.peer1 (lit "reset")]
                     Fixture.world_authorized)) !! peer_id Fixture.peer1 = Some s' /\
    id s' = id Fixture.session_authorized /\
    peer s' = peer Fixture.session_authorized /\
    createdAt s' = createdAt Fixture.session_authorized /\
    remoteAddress s' = remoteAddress Fixture.session_authorized /\
    nonce (auth s') = nonce (auth Fixture.session_authorized) /\
    (state (auth Fixture.session_authorized) = authorized ->
     auth s' = auth Fixture.session_authorized).
Proof.
  apply (session_identity_and_authorization_kept Fixture.runtime Fixture.cfg
           Fixture.keyring
           [CallMessage Fixture.peer1 Fixture.telemetry_out_of_bounds 2000;
            CallError Fixture.peer1 (lit "reset")]
           Fixture.world_authorized (peer_id Fixture.peer1) Fixture.session_authorized).
  - vm_compute. reflexivity.
  - repeat (constructor; [split; intros []|]). constructor.
Defined.

(** The fixture's peer after it connected and answered the challenge. *)
Lemma stored_sessions_are_consistent_witness :
  exists c,
    contexts (fst (run Fixture.runtime Fixture.cfg Fixture.keyring
                     [CallOpen Fixture.peer1 Fixture.nonce1 1000 7;
                      CallMessage Fixture.peer1 Inputs.answer 1001]
                     empty_world)) !! peer_id Fixture.peer1 = Some c /\
    session_ok Fixture.keyring (peer_id Fixture.peer1) Fixture.session_authorized c.
Proof.
  apply (stored_sessions_are_consistent Fixture.runtime Fixture.cfg Fixture.keyring
           [CallOpen Fixture.peer1 Fixture.nonce1 1000 7;
            CallMessage Fixture.peer1 Inputs.answer 1001]
           (peer_id Fixture.peer1) Fixture.session_authorized).
  vm_compute. reflexivity.
Defined.

(** The fixture's peer connects, answers the challenge and leaves. *)
Lemma deadline_timer_cleared_once_witness :
  count_clear 7
    (snd (run Fixture.runtime Fixture.cfg Fixture.keyring
            (CallOpen Fixture.peer1 Fixture.nonce1 1000 7
             :: [CallMessage Fixture.peer1 Inputs.answer 1001]
             ++ [CallClose Fixture.peer1])
            empty_world))
  = 1%nat.
Proof.
  apply (deadline_timer_cleared_once Fixture.runtime Fixture.cfg Fixture.keyring
           Fixture.peer1 Fixture.nonce1 1000 7
           [CallMessage Fixture.peer1 Inputs.answer 1001] empty_world).
  repeat constructor.
Defined.

End SessionLifeWitnesses.

(** ** More of the keyring builder *)

Section MoreKeys.

Import Keys KeySpec.

Lemma hex_digit_hex_char d : 0 <= d < 16 -> hex_digit (hex_char d) = Some d.
Proof.
  intros Hd. unfold hex_char, hex_digit.
  destruct (Z.ltb_spec d 10).
  - destruct (Z.leb_spec 0x30 (0x30 + d)), (Z.leb_spec (0x30 + d) 0x39); simpl;
      try lia. f_equal. lia.
  - destruct (Z.leb_spec 0x30 (0x61 + (d - 10))), (Z.leb_spec (0x61 + (d - 10)) 0x39);
      simpl; try lia.
    destruct (Z.leb_spec 0x61 (0x61 + (d - 10))), (Z.leb_spec (0x61 + (d - 10)) 0x66);
      simpl; try lia. f_equal. lia.
Qed.

(** A code unit that lower-cases to a hex digit is that digit in either
    case. *)
Lemma hex_digit_any_case c d : 0 <= d < 16 -> lower c = hex_char d -> hex_digit c = Some d.
Proof.
  intros Hd. unfold lower, hex_char, hex_digit.
  destruct (Z.leb_spec 0x41 c), (Z.leb_spec c 0x5A); simpl;
    destruct (Z.ltb_spec d 10); intros E;
    destruct (Z.leb_spec 0x30 c), (Z.leb_spec c 0x39); simpl; try lia;
    try (f_equal; lia);
    destruct (Z.leb_spec 0x61 c), (Z.leb_spec c 0x66); simpl; try lia;
    try (f_equal; lia);
    destruct (Z.leb_spec c 0x46); simpl; try lia; f_equal; lia.
Qed.

Lemma hex_text_decodes key s :
  bytes_ok key -> toLowerCase s = hex_encode key ->
  buffer_from_hex s = key /\ length s = (2 * length key)%nat /\
  forallb (fun c => bool_decide (is_Some (hex_digit c))) s = true.
Proof.
  intros Hk. revert s. induction Hk as [|b key Hb _ IH]; intros s E.
  - destruct s; [done|discriminate].
  - destruct s as [|h [|l rest]]; try discriminate.
    simpl in E. injection E as Eh El Erest.
    destruct (IH rest Erest) as (Hdec & Hlen & Hall).
    assert (0 <= b / 16 < 16) as Hhi
      by (split; [apply Z.div_pos; lia|apply Z.div_lt_upper_bound; lia]).
    assert (0 <= b mod 16 < 16) as Hlo by (apply Z.mod_pos_bound; lia).
    pose proof (hex_digit_any_case h _ Hhi Eh) as Hh.
    pose proof (hex_digit_any_case l _ Hlo El) as Hl.
    simpl. rewrite Hh, Hl, Hdec, Hlen, Hall. simpl.
    split; [|split; [lia|done]].
    f_equal. pose proof (Z.div_mod b 16 ltac:(lia)). lia.
Qed.

Context (rt : Runtime).

(** X15: a key written as hex is read back exactly: for every key of 32
    bytes, [parseKey] on its hex text, in lower case, upper case or any
    mix, gives the key itself; the text is recognised as hex and is never
    handed to the base64 decoder, so the result does not depend on it. *)
Theorem parseKey_reads_hex_keys_in_any_case key s :
  length key = 32%nat ->
  bytes_ok key ->
  toLowerCase s = hex_encode key ->
  isHexSha256 s = true /\
  parseKey rt (JStr s) = Ok key /\
  parseKey rt (JStr (hex_encode key)) = Ok key.
Proof.
  intros Hlen Hk Es.
  assert (forall s', toLowerCase s' = hex_encode key ->
                     isHexSha256 s' = true /\ parseKey rt (JStr s') = Ok key) as H.
  { intros s' E. destruct (hex_text_decodes key s' Hk E) as (Hdec & Hl & Hall).
    assert (isHexSha256 s' = true) as Hhex.
    { unfold isHexSha256. rewrite Hl, Hlen, Hall. done. }
    split; [done|]. unfold parseKey. by rewrite Hhex, Hdec. }
  destruct (H s Es) as [H1 H2]. split; [done|]. split; [done|].
  apply H. unfold toLowerCase, hex_encode. clear.
  induction key as [|b key IH]; simpl; [done|].
  assert (forall d, lower (hex_char d) = hex_char d) as Hlow.
  { intros d. unfold lower, hex_char. destruct (Z.ltb_spec d 10).
    - destruct (Z.leb_spec 0x41 (0x30 + d)), (Z.leb_spec (0x30 + d) 0x5A); simpl; lia.
    - destruct (Z.leb_spec 0x41 (0x61 + (d - 10))),
               (Z.leb_spec (0x61 + (d - 10)) 0x5A); simpl; lia. }
  by rewrite !Hlow, IH.
Qed.

Lemma merge_NoDup static env : NoDup static.*1 -> NoDup (merge static env).*1.
Proof.
  unfold merge. revert static. induction env as [|[k v] env IH]; intros static Hs; simpl.
  - done.
  - apply IH. by apply map_set_NoDup.
Qed.

Lemma entries_versions merged :
  NoDup merged.*1 ->
  NoDup (version <$> valid_entries rt merged) /\
  (forall e, e ∈ valid_entries rt merged -> version e ∈ merged.*1) /\
  (forall v err, LogInvalidHashKey v err ∈ rejected_entries rt merged ->
                 v ∈ merged.*1 /\ v ∉ version <$> valid_entries rt merged).
Proof.
  unfold valid_entries, rejected_entries.
  induction merged as [|[v k] rest IH]; intros Hm.
  - split; [constructor|]. split; [by intros e ?%elem_of_nil|].
    by intros v err ?%elem_of_nil.
  - simpl in Hm. apply NoDup_cons in Hm as [Hv Hrest].
    destruct (IH Hrest) as (Hnd & Hin & Hlog).
    cbn [omap list_omap fst snd]. destruct (decode_key rt k) as [b|]; csimpl.
    + split; [|split].
      * apply NoDup_cons. split; [|done].
        intros (e & Ev & He)%list_elem_of_fmap. apply Hin in He. simpl in Ev.
        by rewrite <- Ev in He.
      * intros e [->|He]%elem_of_cons; [left|right; by apply Hin].
      * intros v' err Hl. destruct (Hlog v' err Hl) as [Hv' Hout].
        split; [by right|]. rewrite not_elem_of_cons. split; [|done].
        intros ->. done.
    + split; [done|]. split.
      * intros e He. right. by apply Hin.
      * intros v' err [[= -> ->]|Hl]%elem_of_cons.
        -- split; [left|]. intros (e & Ev & He)%list_elem_of_fmap.
           apply Hin in He. by rewrite <- Ev in He.
        -- destruct (Hlog v' err Hl). split; [by right|done].
Qed.

(** X16: a version names one key: in the keyring [buildKeyring] returns no
    two entries have the same version (an entry of the environment
    replaces the static entry of its version, it is not added to it), so
    the version reported by [auth_ok] identifies the key that was used;
    and a version that was logged as invalid is not in the keyring. *)
Theorem keyring_versions_are_unique static raw keyring logs :
  NoDup static.*1 ->
  buildKeyring_from rt static raw = Ok (keyring, logs) ->
  NoDup (version <$> keyring) /\
  (forall e1 e2, e1 ∈ keyring -> e2 ∈ keyring -> version e1 = version e2 -> e1 = e2) /\
  (forall v err, LogInvalidHashKey v err ∈ logs -> v ∉ version <$> keyring).
Proof.
  intros Hs. unfold buildKeyring_from.
  destruct (loadFromEnv rt raw) as [env|] eqn:Hload; [|done].
  rewrite collect_spec. intros [= <- <-].
  destruct (entries_versions (merge static env) (merge_NoDup static env Hs))
    as (Hnd & _ & Hlog).
  split; [done|]. split; [|intros v err Hl; by apply (Hlog v err)].
  revert Hnd. generalize (valid_entries rt (merge static env)). intros l.
  induction l as [|e l IH]; intros Hnd e1 e2 H1 H2 Hv.
  { by apply elem_of_nil in H1. }
  csimpl in Hnd. apply NoDup_cons in Hnd as [He Hl].
  apply elem_of_cons in H1 as [->|H1]; apply elem_of_cons in H2 as [->|H2].
  - done.
  - destruct He. rewrite Hv. by apply list_elem_of_fmap_2.
  - destruct He. rewrite <- Hv. by apply list_elem_of_fmap_2.
  - by apply IH.
Qed.

(** X17: [buildKeyring] throws only on the environment variable: when it is
    set to a non-empty text that [JSON.parse] rejects, or that parses to a
    value that is not an object.  An unset or empty variable never throws
    and gives the valid entries of the static map alone; an invalid key
    never throws. *)
Theorem buildKeyring_throws_on_bad_environment_only static raw :
  match buildKeyring_from rt static raw with
  | Err EnvSyntaxError =>
      exists r, raw = Some r /\ r <> [] /\ JSON_parse rt r = None
  | Err EnvNotAnObject =>
      exists r v,
        raw = Some r /\ r <> [] /\ JSON_parse rt r = Some v /\
        forall fields, v <> JObj fields
  | Ok (keyring, logs) =>
      (raw = None \/ raw = Some [] \/
       exists r fields, raw = Some r /\ r <> [] /\ JSON_parse rt r = Some (JObj fields)) /\
      (raw = None \/ raw = Some [] ->
       keyring = valid_entries rt static /\ logs = rejected_entries rt static)
  end.
Proof.
  unfold buildKeyring_from, loadFromEnv.
  destruct raw as [[|c r]|]; simpl.
  - rewrite collect_spec. split; [by right; left|done].
  - destruct (JSON_parse rt (c :: r)) as [v|] eqn:Ep.
    + destruct v as [| | | | |fields];
        try (exists (c :: r); eexists; split; [done|]; split; [done|]; split; [done|];
             by intros fields).
      rewrite collect_spec. split.
      * right; right. by exists (c :: r), fields.
      * intros [?|?]; discriminate.
    + by exists (c :: r).
  - rewrite collect_spec. split; [by left|done].
Qed.

End MoreKeys.

Section MoreKeysWitnesses.

Import Keys KeySpec.

(** The fixture's key, spelled in mixed case. *)
Lemma parseKey_reads_hex_keys_in_any_case_witness :
  isHexSha256 Fixture.hex_key = true /\
  parseKey Fixture.runtime (JStr Fixture.hex_key) = Ok Inputs.key_bytes /\
  parseKey Fixture.runtime (JStr (hex_encode Inputs.key_bytes)) = Ok Inputs.key_bytes.
Proof.
  apply (parseKey_reads_hex_keys_in_any_case Fixture.runtime Inputs.key_bytes
           Fixture.hex_key).
  - reflexivity.
  - unfold Inputs.key_bytes, bytes_ok. repeat (constructor; [lia|]). constructor.
  - vm_compute. reflexivity.
Defined.

(** The keyring of the fixture's static map and environment. *)
Lemma keyring_versions_are_unique_witness :
  NoDup (version <$> Inputs.built_keyring) /\
  (forall e1 e2,
     e1 ∈ Inputs.built_keyring -> e2 ∈ Inputs.built_keyring ->
     version e1 = version e2 -> e1 = e2) /\
  (forall v err,
     LogInvalidHashKey v err ∈ Inputs.built_logs ->
     v ∉ version <$> Inputs.built_keyring).
Proof.
  apply (keyring_versions_are_unique Fixture.runtime Fixture.static_keys
           (Some Fixture.env_keys_json) Inputs.built_keyring Inputs.built_logs).
  - apply (bool_decide_eq_true_1 _). vm_compute; reflexivity.
  - vm_compute; reflexivity.
Defined.

End MoreKeysWitnesses.

(** ** More of the telemetry branch: the clock *)

Module ClockFacts.

Lemma leb_zero_nonpositive f : SFleb f (S754_zero false) = nonpositive f.
Proof. destruct f as [s|s| |s m e]; try done; by destruct s. Qed.

Lemma binary_round_aux_nonpositive mx ex lx :
  0 <= mx -> nonpositive (binary_round_aux prec emax true mx ex lx) = true.
Proof.
  intros H. unfold binary_round_aux.
  pose proof (FloatFacts.shr_fexp_nonneg prec emax mx ex lx H) as H1.
  destruct (shr_fexp prec emax mx ex lx) as [mrs' e'].
  simpl in H1.
  pose proof (FloatFacts.shr_fexp_nonneg prec emax _ e' loc_Exact
                (FloatFacts.round_nearest_even_nonneg _ (loc_of_shr_record mrs') H1)) as H2.
  destruct (shr_fexp prec emax _ e' loc_Exact) as [mrs'' e''].
  simpl in H2. destruct (shr_m mrs''); try done.
  by destruct (_ <=? _).
Qed.

Lemma binary_normalize_nonpositive m e :
  m <= 0 -> nonpositive (binary_normalize prec emax m e false) = true.
Proof.
  intros H. destruct m as [|p|p]; [done|lia|]. simpl.
  unfold binary_round. destruct (shl_align _ _ _).
  by apply binary_round_aux_nonpositive.
Qed.

(** Dividing by a positive number keeps a number at or below zero. *)
Lemma div_positive_nonpositive f my ey :
  nonpositive f = true ->
  nonpositive (SFdiv prec emax f (S754_finite false my ey)) = true.
Proof.
  destruct f as [s|s| |s mx ex]; simpl; try done.
  - intros ->. done.
  - intros ->. simpl.
    unfold SFdiv_core_binary.
    match goal with |- context [Z.div_eucl ?a ?b] =>
      pose proof (Z.div_pos a b) as Hq; unfold Z.div in Hq;
      destruct (Z.div_eucl a b) as [q r] eqn:E
    end.
    apply binary_round_aux_nonpositive. apply Hq; [|lia].
    match goal with |- 0 <= match ?s with _ => _ end => destruct s end; try lia.
    apply Z.shiftl_nonneg. lia.
Qed.

(** Of two numbers in normal form, the one with the smaller exponent is
    the smaller. *)
Lemma bounded_exponent_lt m1 e1 m2 e2 :
  bounded prec emax m1 e1 = true -> bounded prec emax m2 e2 = true ->
  e1 < e2 -> Zpos m1 < Zpos m2 * 2 ^ (e2 - e1).
Proof.
  unfold bounded, canonical_mantissa, fexp, emin.
  intros [H1 _]%andb_prop [H2 _]%andb_prop Hlt.
  apply Z.eqb_eq in H1, H2. rewrite FloatFacts.digits2_pos_log2 in H1, H2.
  change prec with 53 in *. change emax with 1024 in *.
  pose proof (FloatFacts.Dg_bounds (Zpos m1) ltac:(lia)) as [_ Hm1].
  pose proof (FloatFacts.Dg_bounds (Zpos m2) ltac:(lia)) as [Hm2 _].
  pose proof (FloatFacts.Dg_pos (Zpos m1) ltac:(lia)) as Hd1.
  assert (Num.digits (Zpos m1) <= 53) as Hd1' by lia.
  assert (Num.digits (Zpos m2) = 53) as Hd2 by lia.
  rewrite Hd2 in Hm2.
  assert (2 ^ Num.digits (Zpos m1) <= 2 ^ 53) by (apply Z.pow_le_mono_r; lia).
  assert (2 ^ 1 <= 2 ^ (e2 - e1)) by (apply Z.pow_le_mono_r; lia).
  change (2 ^ (53 - 1)) with 4503599627370496 in Hm2.
  change (2 ^ 53) with 9007199254740992 in *. change (2 ^ 1) with 2 in *.
  nia.
Qed.

Lemma sub_nonpositive A B :
  SpecFloat.valid_binary prec emax A = true ->
  SpecFloat.valid_binary prec emax B = true ->
  Num.sf_finite A = true -> Num.sf_finite B = true ->
  SFleb A B = true ->
  nonpositive (SFsub prec emax A B) = true.
Proof.
  destruct A as [sa|sa| |sa ma ea], B as [sb|sb| |sb mb eb]; try done.
  - intros _ _ _ _ _. by destruct sa, sb.
  - intros _ _ _ _. unfold SFleb. simpl. by destruct sb.
  - intros _ _ _ _. unfold SFleb. simpl. by destruct sa.
  - intros Ha Hb _ _ Hle. simpl in Ha, Hb. unfold SFsub.
    apply binary_normalize_nonpositive.
    destruct (FloatFacts.shl_align_spec ma ea (Z.min ea eb)) as [-> _].
    destruct (FloatFacts.shl_align_spec mb eb (Z.min ea eb)) as [-> _].
    assert (0 < Zpos ma * 2 ^ (ea - Z.min ea (Z.min ea eb)))
      by (apply Z.mul_pos_pos; [lia|apply Z.pow_pos_nonneg; lia]).
    assert (0 < Zpos mb * 2 ^ (eb - Z.min eb (Z.min ea eb)))
      by (apply Z.mul_pos_pos; [lia|apply Z.pow_pos_nonneg; lia]).
    unfold SFleb in Hle. simpl in Hle.
    destruct sa, sb; simpl; try lia; try done.
    + (* both negative *)
      destruct (Z.compare_spec ea eb) as [->|Hlt|Hgt].
      * rewrite !Z.min_id, Z.sub_diag, !Z.mul_1_r.
        change (Pos.compare_cont Eq ma mb) with (Pos.compare ma mb) in Hle.
        destruct (Pos.compare_spec ma mb); simpl in Hle; try done; lia.
      * done.
      * pose proof (bounded_exponent_lt mb eb ma ea Hb Ha ltac:(lia)).
        replace (Z.min ea eb) with eb by lia.
        rewrite Z.min_id, Z.sub_diag, Z.mul_1_r.
        replace (Z.min ea eb) with eb by lia. lia.
    + (* both positive *)
      destruct (Z.compare_spec ea eb) as [->|Hlt|Hgt].
      * rewrite !Z.min_id, Z.sub_diag, !Z.mul_1_r.
        change (Pos.compare_cont Eq ma mb) with (Pos.compare ma mb) in Hle.
        destruct (Pos.compare_spec ma mb); simpl in Hle; try done; lia.
      * pose proof (bounded_exponent_lt ma ea mb eb Ha Hb ltac:(lia)).
        replace (Z.min ea eb) with ea by lia.
        rewrite Z.min_id, Z.sub_diag, Z.mul_1_r.
        replace (Z.min eb ea) with ea by lia. lia.
      * done.
Qed.

(** A clock that has not advanced gives a time delta that is not
    positive. *)
Lemma elapsed_not_positive now lastAt_ :
  Num.isFinite now = true -> Num.isFinite lastAt_ = true ->
  (now <=? lastAt_)%float = true ->
  ((now - lastAt_) / 1000 <=? 0)%float = true.
Proof.
  rewrite !FloatFacts.is_finite_spec, !FloatAxioms.leb_spec. intros Hn Hl Hle.
  rewrite FloatAxioms.div_spec, FloatAxioms.sub_spec.
  change (Prim2SF 0) with (S754_zero false). rewrite leb_zero_nonpositive.
  assert (exists m e, Prim2SF 1000 = S754_finite false m e) as (m & e & ->)
    by (by eexists _, _).
  apply div_positive_nonpositive, sub_nonpositive; try done;
    apply FloatAxioms.Prim2SF_valid.
Qed.

End ClockFacts.

Section MoreTelemetry.

Import Sessions Live.

Context (rt : Runtime) (cfg : Config).

Lemma check_frame_not_killed lc f :
  (forall reason, check_frame cfg lc f <> FrameKill reason) ->
  frame_plausible cfg f.
Proof.
  unfold check_frame, frame_plausible, skippable.
  destruct (negb (is_object_like f)); [by left|]. simpl.
  destruct (prop (lit "x") f) as [xv|]; [|by left].
  destruct (prop (lit "y") f) as [yv|]; [|by left].
  intros H. right.
  destruct xv as [| |xn| | |]; try (by destruct (H "Invalid coordinates"%string)).
  destruct yv as [| |yn| | |]; try (by destruct (H "Invalid coordinates"%string)).
  destruct (Num.isFinite xn) eqn:Ex, (Num.isFinite yn) eqn:Ey; simpl in H;
    try (by destruct (H "Invalid coordinates"%string)).
  destruct (Num.gt (PrimFloat.abs xn) (maxAbsCoord cfg)) eqn:Gx;
    [by destruct (H "Impossible coordinates"%string)|].
  destruct (Num.gt (PrimFloat.abs yn) (maxAbsCoord cfg)) eqn:Gy;
    [by destruct (H "Impossible coordinates"%string)|].
  by exists xn, yn.
Qed.

Lemma frames_loop_accepts lc fs c :
  frames_loop cfg lc fs = (c, None) -> Forall (frame_plausible cfg) fs.
Proof.
  revert lc. induction fs as [|f fs IH]; intros lc; simpl; [constructor|].
  destruct (check_frame cfg lc f) as [|reason|c0] eqn:Ef; [|done|]; intros H;
    (constructor; [apply (check_frame_not_killed lc); intros r; by rewrite Ef
                  |by eapply IH]).
Qed.

(** What [validate_telemetry] has checked and written when it kills
    nothing. *)
Lemma validate_telemetry_accepts now t m t' :
  validate_telemetry cfg now t m = (t', None) ->
  (seq m =? expectedSeq t)%float = true /\
  (forall la lp, lastAt t = Some la -> lastPct t = Some lp ->
                 rate_check cfg now la lp (current_pct m) = None) /\
  Num.gt (Num.of_nat (length (frames m))) (maxFramesPerChunk cfg) = false /\
  frames_loop cfg (lastCoord t) (frames m) = (lastCoord t', None) /\
  t' = {| expectedSeq := (expectedSeq t + 1)%float; lastAt := Some now;
          lastPct := Some (current_pct m); lastCoord := lastCoord t' |}.
Proof.
  unfold validate_telemetry, Num.neq.
  destruct (seq m =? expectedSeq t)%float; simpl; [|done].
  destruct (lastAt t) as [la|], (lastPct t) as [lp|]; simpl.
  1: destruct (rate_check cfg now la lp (current_pct m)) eqn:Er; [done|].
  all: destruct (Num.gt (Num.of_nat (length (frames m))) (maxFramesPerChunk cfg));
    [done|];
    destruct (frames_loop cfg (lastCoord t) (frames m)) as [c k] eqn:El;
    intros [= <- ->]; simpl;
    (split; [done|]); (split; [|done]).
  - by intros ? ? [= <-] [= <-].
  - by intros ? ? [= <-] ?.
  - by intros ? ? ? [= <-].
  - by intros ? ? ? ?.
Qed.

(** X18: telemetry that is accepted is not answered, and it is recorded
    whole: when a message that gets as far as the sequence check is
    answered by nothing, its [seq] was the expected one, the batch was
    within the size limit, the progress rate passed against the old
    baselines, every frame was passed over or had finite coordinates
    within the absolute bound, and the session now expects the next
    [seq], with the arrival time and the message's percent as its
    baselines and the coordinates the loop left as its coordinate
    baseline. Nothing else of the state changes. *)
Theorem accepted_telemetry_is_recorded keyring p m now w session tm :
  sessions w !! peer_id p = Some session ->
  reaches_sequence_check cfg session m tm ->
  snd (message rt cfg keyring p m now w) = [] ->
  exists c,
    fst (message rt cfg keyring p m now w)
    = {| sessions :=
           <[peer_id p :=
               with_telemetry
                 {| expectedSeq := (expectedSeq (telemetry session) + 1)%float;
                    lastAt := Some now;
                    lastPct := Some (current_pct tm);
                    lastCoord := c |} session]> (sessions w);
         contexts := contexts w |} /\
    (seq tm =? expectedSeq (telemetry session))%float = true /\
    Num.gt (Num.of_nat (length (frames tm))) (maxFramesPerChunk cfg) = false /\
    (forall la lp,
       lastAt (telemetry session) = Some la -> lastPct (telemetry session) = Some lp ->
       rate_check cfg now la lp (current_pct tm) = None) /\
    frames_loop cfg (lastCoord (telemetry session)) (frames tm) = (c, None) /\
    Forall (frame_plausible cfg) (frames tm).
Proof.
  intros Hs (Hst & Hsz & data & Hj & Hp & Htm).
  rewrite (message_authorized rt cfg keyring p m now w session data Hs Hst Hsz Hj Hp).
  unfold handle_telemetry. rewrite Htm. simpl.
  destruct (validate_telemetry cfg now (telemetry session) tm) as [t' [reason|]] eqn:Hv;
    simpl; [done|]. intros _.
  destruct (validate_telemetry_accepts now _ tm t' Hv) as (Hseq & Hrate & Hn & Hl & Ht').
  exists (lastCoord t'). split; [by rewrite <- Ht'|].
  split; [done|]. split; [done|]. split; [done|]. split; [done|].
  by apply (frames_loop_accepts _ _ _ Hl).
Qed.

(** X19: a clock that has not advanced kills: when the session has
    baselines and a message with the expected [seq] arrives at a time that
    is not after the time of the last recorded one (the same millisecond,
    or a clock set back), it is answered by the kill and a close with
    "Invalid time delta", whatever its percent and frames; the sequence
    number has advanced all the same, and the baselines are left as they
    were. *)
Theorem stalled_clock_is_killed keyring p m now w session tm la lp :
  sessions w !! peer_id p = Some session ->
  reaches_sequence_check cfg session m tm ->
  (seq tm =? expectedSeq (telemetry session))%float = true ->
  lastAt (telemetry session) = Some la ->
  lastPct (telemetry session) = Some lp ->
  Num.isFinite now = true ->
  Num.isFinite la = true ->
  (now <=? la)%float = true ->
  message rt cfg keyring p m now w
  = ({| sessions :=
          <[peer_id p :=
              with_telemetry
                {| expectedSeq := (expectedSeq (telemetry session) + 1)%float;
                   lastAt := Some la; lastPct := Some lp;
                   lastCoord := lastCoord (telemetry session) |} session]> (sessions w);
        contexts := contexts w |},
     [Send (peer_id p) (JObj [(lit "cmd", JStr (lit "kill"))]);
      Close (peer_id p) 1008 (lit "Invalid time delta")]).
Proof.
  intros Hs (Hst & Hsz & data & Hj & Hp & Htm) Hseq Hla Hlp Hfn Hfl Hle.
  rewrite (message_authorized rt cfg keyring p m now w session data Hs Hst Hsz Hj Hp).
  unfold handle_telemetry. rewrite Htm.
  unfold validate_telemetry, Num.neq. rewrite Hseq. simpl. rewrite Hla, Hlp.
  unfold rate_check. rewrite (ClockFacts.elapsed_not_positive now la Hfn Hfl Hle).
  simpl. unfold with_expectedSeq. by rewrite Hla, Hlp.
Qed.

(** X20: the first report is not rate-limited: on a session without
    baselines (as every session is until its first telemetry is recorded)
    no message is killed for its time or its percent, so the first
    recorded message sets the percent baseline to whatever finite percent
    it carries. *)
Theorem first_report_is_not_rate_limited now t m :
  lastAt t = None \/ lastPct t = None ->
  snd (validate_telemetry cfg now t m) <> Some "Invalid time delta"%string /\
  snd (validate_telemetry cfg now t m) <> Some "Speedhack (pct jump)"%string /\
  ((seq m =? expectedSeq t)%float = true ->
   lastAt (fst (validate_telemetry cfg now t m)) = Some now /\
   lastPct (fst (validate_telemetry cfg now t m)) = Some (current_pct m)).
Proof.
  intros Hnone. unfold validate_telemetry, Num.neq.
  destruct (seq m =? expectedSeq t)%float; simpl; [|done].
  assert (match lastAt t, lastPct t with
          | Some la, Some lp => rate_check cfg now la lp (current_pct m)
          | _, _ => None
          end = None) as ->.
  { destruct Hnone as [-> | ->]; [done|]. by destruct (lastAt t). }
  destruct (Num.gt _ _); simpl; [done|].
  destruct (frames_loop cfg (lastCoord t) (frames m)) as [c [reason|]] eqn:El; simpl;
    [|done].
  destruct (frames_loop_killed cfg _ _ _ _ El) as (pre & f & post & _ & _ & Hf).
  pose proof (check_frame_kill_reason cfg _ f reason Hf) as Hin. simpl in Hin.
  split; [|split; [|done]]; intros [= ->]; (destruct Hin as [|[|[|[]]]]; discriminate).
Qed.

End MoreTelemetry.

Section MoreTelemetryWitnesses.

Import Sessions Live.

(** The first report of the fixture's peer. *)
Lemma accepted_telemetry_is_recorded_witness :
  exists c,
    fst (message Fixture.runtime Fixture.cfg Fixture.keyring Fixture.peer1
           Inputs.report1_msg 2000 Fixture.world_authorized)
    = {| sessions :=
           <[peer_id Fixture.peer1 :=
               with_telemetry
                 {| expectedSeq :=
                      (expectedSeq (telemetry Fixture.session_authorized) + 1)%float;
                    lastAt := Some 2000%float;
                    lastPct := Some (current_pct Inputs.report1);
                    lastCoord := c |} Fixture.session_authorized]>
             (sessions Fixture.world_authorized);
         contexts := contexts Fixture.world_authorized |} /\
    (seq Inputs.report1 =? expectedSeq (telemetry Fixture.session_authorized))%float
      = true /\
    Num.gt (Num.of_nat (length (frames Inputs.report1)))
      (maxFramesPerChunk Fixture.cfg) = false /\
    (forall la lp,
       lastAt (telemetry Fixture.session_authorized) = Some la ->
       lastPct (telemetry Fixture.session_authorized) = Some lp ->
       rate_check Fixture.cfg 2000 la lp (current_pct Inputs.report1) = None) /\
    frames_loop Fixture.cfg (lastCoord (telemetry Fixture.session_authorized))
      (frames Inputs.report1) = (c, None) /\
    Forall (frame_plausible Fixture.cfg) (frames Inputs.report1).
Proof.
  apply (accepted_telemetry_is_recorded Fixture.runtime Fixture.cfg Fixture.keyring
           Fixture.peer1 Inputs.report1_msg 2000 Fixture.world_authorized
           Fixture.session_authorized Inputs.report1).
  - vm_compute. reflexivity.
  - split; [reflexivity|]. split; [vm_compute; reflexivity|].
    eexists. split; [reflexivity|]. split; vm_compute; reflexivity.
  - vm_compute. reflexivity.
Defined.

(** The second report arrives in the millisecond of the first. *)
Lemma stalled_clock_is_killed_witness :
  message Fixture.runtime Fixture.cfg Fixture.keyring Fixture.peer1
    Inputs.report2_msg 2000 Inputs.world_reported
  = ({| sessions :=
          <[peer_id Fixture.peer1 :=
              with_telemetry
                {| expectedSeq :=
                     (expectedSeq (telemetry Inputs.session_reported) + 1)%float;
                   lastAt := Some 2000%float; lastPct := Some 10%float;
                   lastCoord := lastCoord (telemetry Inputs.session_reported) |}
                Inputs.session_reported]> (sessions Inputs.world_reported);
        contexts := contexts Inputs.world_reported |},
     [Send (peer_id Fixture.peer1) (JObj [(lit "cmd", JStr (lit "kill"))]);
      Close (peer_id Fixture.peer1) 1008 (lit "Invalid time delta")]).
Proof.
  apply (stalled_clock_is_killed Fixture.runtime Fixture.cfg Fixture.keyring
           Fixture.peer1 Inputs.report2_msg 2000 Inputs.world_reported
           Inputs.session_reported Inputs.report2 2000 10);
    try (vm_compute; reflexivity).
  split; [reflexivity|]. split; [vm_compute; reflexivity|].
  eexists. split; [reflexivity|]. split; vm_compute; reflexivity.
Defined.

(** A first report of 100 percent. *)
Lemma first_report_is_not_rate_limited_witness :
  snd (validate_telemetry Fixture.cfg 2000 fresh_telemetry Inputs.report_complete)
    <> Some "Invalid time delta"%string /\
  snd (validate_telemetry Fixture.cfg 2000 fresh_telemetry Inputs.report_complete)
    <> Some "Speedhack (pct jump)"%string /\
  ((seq Inputs.report_complete =? expectedSeq fresh_telemetry)%float = true ->
   lastAt (fst (validate_telemetry Fixture.cfg 2000 fresh_telemetry
                  Inputs.report_complete)) = Some 2000%float /\
   lastPct (fst (validate_telemetry Fixture.cfg 2000 fresh_telemetry
                   Inputs.report_complete))
   = Some (current_pct Inputs.report_complete)).
Proof.
  apply (first_report_is_not_rate_limited Fixture.cfg 2000 fresh_telemetry
           Inputs.report_complete).
  by left.
Defined.

End MoreTelemetryWitnesses.

(** ** More of the hooks: one connection at a time *)

Section Isolation.

Import Sessions Live Hooks.

Context (rt : Runtime) (cfg : Config).

Lemma kills_are_closed_app a b :
  kills_are_closed a -> kills_are_closed b ->
  (forall i payload, last a = Some (Send i payload) -> payload <> cmd_msg "kill" []) ->
  kills_are_closed (a ++ b).
Proof.
  induction a as [|e a IH]; intros Ha Hb Hlast; simpl; [done|].
  assert (kills_are_closed a -> kills_are_closed (a ++ b)) as IH'.
  { intros Ha'. apply IH; [done|done|]. intros i payload Hl. apply (Hlast i payload).
    destruct a; [done|]. done. }
  destruct e as [i payload| | | |]; simpl in Ha; try (by apply IH').
  destruct Ha as [Hk Ha]. split; [|by apply IH'].
  intros Hp. destruct a as [|e' a'].
  - by destruct (Hlast i payload).
  - destruct (Hk Hp) as (reason & rest' & [= -> ->]). simpl. by eexists _, _.
Qed.

(** The events of one hook. *)
Lemma dispatch_events keyring c w :
  Forall (addressed_to (peer_id (call_peer c))) (snd (dispatch rt cfg keyring c w)) /\
  kills_are_closed (snd (dispatch rt cfg keyring c w)) /\
  (forall i payload,
     last (snd (dispatch rt cfg keyring c w)) = Some (Send i payload) ->
     payload <> cmd_msg "kill" []).
Proof.
  destruct c as [p n t0 tm|p m now|p|p e]; simpl.
  - unfold open. destruct (length keyring =? 0)%nat; simpl.
    + split; [by repeat constructor|]. split; [done|]. by intros i payload [=].
    + split; [by repeat constructor|]. split; [|by intros i payload [= <- <-]].
      split; [|done]. intros [=].
  - unfold message.
    assert (forall reason,
              Forall (addressed_to (peer_id p)) (killAndClose p reason) /\
              kills_are_closed (killAndClose p reason) /\
              (forall i payload,
                 last (killAndClose p reason) = Some (Send i payload) ->
                 payload <> cmd_msg "kill" [])) as Hkill.
    { intros reason. split; [by repeat constructor|]. split; [|by intros i payload [=]].
      simpl. split; [|done]. intros _. by eexists _, _. }
    assert (forall reason,
              Forall (addressed_to (peer_id p)) (closeUnauthorized p reason) /\
              kills_are_closed (closeUnauthorized p reason) /\
              (forall i payload,
                 last (closeUnauthorized p reason) = Some (Send i payload) ->
                 payload <> cmd_msg "kill" [])) as Hclose.
    { intros reason. split; [by repeat constructor|]. split; [done|].
      by intros i payload [=]. }
    destruct (sessions w !! peer_id p) as [session|]; [|apply Hclose].
    destruct (Num.gt _ _); [apply Hkill|].
    destruct (msg_json m) as [data|]; [|apply Hkill].
    destruct (is_ping data).
    { simpl. split; [by repeat constructor|]. split; [|by intros i payload [= <- <-]].
      split; [|done]. intros [=]. }
    destruct (state (auth session)).
    + destruct (handshake_outcomes rt keyring p session data w now)
        as [[_ Hr]|(v & _ & _ & ->)].
      * destruct Hr; try apply Hkill; try apply Hclose.
        simpl. split; [by repeat constructor|]. split; [|by intros i payload [= <- <-]].
        split; [|done]. intros [=].
      * simpl. unfold clear_timer. destruct (handshakeTimer (auth session)); simpl.
        -- split; [by repeat constructor|]. split; [|by intros i payload [= <- <-]].
           split; [|done]. intros [=].
        -- split; [by repeat constructor|]. split; [|by intros i payload [= <- <-]].
           split; [|done]. intros [=].
    + destruct (handle_telemetry cfg now (telemetry session) data) as [t' [reason|]];
        simpl; [apply Hkill|]. split; [constructor|]. split; [done|]. by intros i payload [=].
  - unfold close. destruct (sessions w !! peer_id p) as [session|]; simpl.
    + unfold clear_timer. destruct (handshakeTimer (auth session)); simpl.
      * split; [by repeat constructor|]. split; [done|]. by intros i payload [=].
      * split; [constructor|]. split; [done|]. by intros i payload [=].
    + split; [constructor|]. split; [done|]. by intros i payload [=].
  - split; [by repeat constructor|]. split; [done|]. by intros i payload [=].
Qed.

Lemma dispatch_other_connections keyring c w i :
  i <> peer_id (call_peer c) ->
  sessions (fst (dispatch rt cfg keyring c w)) !! i = sessions w !! i /\
  contexts (fst (dispatch rt cfg keyring c w)) !! i = contexts w !! i.
Proof.
  intros Hne. destruct c as [p n t0 tm|p m now|p|p e]; simpl in *.
  - unfold open. destruct (length keyring =? 0)%nat; simpl;
      by rewrite !lookup_insert_ne.
  - split; [by apply message_other_sessions|].
    unfold message, handshake.
    repeat (match goal with
            | |- context [match ?x with _ => _ end] => destruct x
            end; simpl; try done).
    by rewrite lookup_alter_ne.
  - unfold close. destruct (sessions w !! peer_id p); simpl; [|done].
    by rewrite lookup_delete_ne.
  - done.
Qed.

(** X21: a hook acts on its own connection only: whatever it is called
    with, it changes neither the session nor the context of another
    connection, everything it sends or closes is the peer it was called
    for, and every close carries the code 1008 (policy violation); the
    [error] hook only logs. *)
Theorem hooks_act_on_their_own_connection keyring c w :
  (forall i,
     i <> peer_id (call_peer c) ->
     sessions (fst (dispatch rt cfg keyring c w)) !! i = sessions w !! i /\
     contexts (fst (dispatch rt cfg keyring c w)) !! i = contexts w !! i) /\
  Forall (addressed_to (peer_id (call_peer c))) (snd (dispatch rt cfg keyring c w)) /\
  (forall p e, c = CallError p e ->
     dispatch rt cfg keyring c w = (w, [Log (LogWsError (peer_id p) e)])).
Proof.
  split; [intros i Hne; by apply dispatch_other_connections|].
  destruct (dispatch_events keyring c w) as (Ha & _ & _).
  split; [done|]. by intros p e ->.
Qed.

(** X22: in the trace of any sequence of calls, every kill notification is
    followed at once by the close of the connection it was sent on, with
    the code 1008. *)
Theorem every_kill_is_followed_by_close keyring cs w :
  kills_are_closed (snd (run rt cfg keyring cs w)).
Proof.
  revert w. induction cs as [|c cs IH]; intros w; simpl; [done|].
  destruct (dispatch_events keyring c w) as (_ & Hk & Hlast).
  destruct (dispatch rt cfg keyring c w) as [w1 evs1]. simpl in *.
  specialize (IH w1). destruct (run rt cfg keyring cs w1) as [w2 evs2]. simpl in *.
  by apply kills_are_closed_app.
Qed.

End Isolation.

(** ** More of the decoders: white space around a key or a field *)

Section Trimming.

Lemma trim_start_blank pre s : blank pre -> trim_start (pre ++ s) = trim_start s.
Proof. induction 1 as [|c pre Hc _ IH]; simpl; [done|]. by rewrite Hc. Qed.

Lemma trim_start_blank_nil s : blank s -> trim_start s = [].
Proof. intros H. rewrite <- (app_nil_r s). by rewrite trim_start_blank. Qed.

Lemma trim_start_app s post :
  trim_start s <> [] -> trim_start (s ++ post) = trim_start s ++ post.
Proof.
  induction s as [|c s IH]; simpl; [done|].
  destruct (is_space c); [done|]. done.
Qed.

Lemma trim_start_all_blank s : trim_start s = [] -> blank s.
Proof.
  induction s as [|c s IH]; simpl; [constructor|].
  destruct (is_space c) eqn:E; [|done]. intros H. constructor; [done|by apply IH].
Qed.

Lemma blank_rev s : blank s -> blank (rev s).
Proof. apply Forall_rev. Qed.

(** [trim] drops the white space around a string. *)
Lemma trim_blank_around pre s post :
  blank pre -> blank post -> trim (pre ++ s ++ post) = trim s.
Proof.
  intros Hpre Hpost. unfold trim. rewrite trim_start_blank by done.
  destruct (trim_start s) as [|c t] eqn:Es.
  - apply trim_start_all_blank in Es.
    rewrite trim_start_blank by done. by rewrite (trim_start_blank_nil post).
  - rewrite trim_start_app by (by rewrite Es). rewrite Es.
    rewrite rev_app_distr. rewrite trim_start_blank by (by apply blank_rev). done.
Qed.

Lemma trim_start_head c s : is_space c = false -> trim_start (c :: s) = c :: s.
Proof. intros H. simpl. by rewrite H. Qed.

(** A string with no white space is its own [trim]. *)
Lemma trim_no_space s : Forall (fun c => is_space c = false) s -> trim s = s.
Proof.
  intros H. unfold trim.
  assert (forall t, Forall (fun c => is_space c = false) t -> trim_start t = t) as Ht.
  { intros [|c t] Hf; [done|]. apply Forall_cons in Hf as [Hc _]. by apply trim_start_head. }
  rewrite (Ht s H), Ht, rev_involutive; [done|]. by apply Forall_rev.
Qed.

Lemma hex_digit_plain c :
  is_Some (hex_digit c) ->
  is_space c = false /\ Crypto.is_dash_or_underscore c = false.
Proof.
  intros [d H].
  assert (0x30 <= c <= 0x39 \/ 0x61 <= c <= 0x66 \/ 0x41 <= c <= 0x46) as Hr.
  { unfold hex_digit in H.
    destruct (Z.leb_spec 0x30 c), (Z.leb_spec c 0x39); simpl in H; try lia;
      destruct (Z.leb_spec 0x61 c), (Z.leb_spec c 0x66); simpl in H; try lia;
      destruct (Z.leb_spec 0x41 c), (Z.leb_spec c 0x46); simpl in H; try lia;
      discriminate. }
  clear H. unfold is_space, Crypto.is_dash_or_underscore.
  repeat match goal with
         | |- context [(?a <=? ?b)] => destruct (Z.leb_spec a b)
         | |- context [(?a =? ?b)] => destruct (Z.eqb_spec a b)
         end; simpl; (done || lia).
Qed.

Context (rt : Runtime).

(** X23: white space around base64 text is not part of it:
    [decodeBase64Like] gives the same bytes for a text and for the text
    with white space (spaces, tabs, line ends) before and after it, and
    the choice between base64 and base64url is made on the text without
    that white space. *)
Theorem decodeBase64Like_ignores_space_around pre s post :
  blank pre -> blank post ->
  Crypto.decodeBase64Like rt (pre ++ s ++ post) = Crypto.decodeBase64Like rt s /\
  Crypto.decodeBase64Like rt (pre ++ s ++ post)
  = buffer_from_base64 rt
      (test_any Crypto.is_dash_or_underscore (trim s)
       && negb (test_any Crypto.is_plus_or_slash (trim s)))
      (trim s).
Proof.
  intros Hpre Hpost. unfold Crypto.decodeBase64Like.
  by rewrite (trim_blank_around pre s post Hpre Hpost).
Qed.

(** X24: white space around a hex key changes how it is read: a text of 64
    hex digits is decoded as hex, and the same text with white space
    before or after it (a trailing line end, say) is not recognised as hex
    and is decoded as standard base64 instead, so it is a key only if that
    decoding happens to have 32 bytes. *)
Theorem padded_hex_key_is_read_as_base64 pre s post :
  Keys.isHexSha256 s = true ->
  blank pre -> blank post ->
  pre ++ post <> [] ->
  Keys.parseKey rt (JStr s) = Ok (buffer_from_hex s) /\
  Keys.parseKey rt (JStr (pre ++ s ++ post))
  = (if (length (buffer_from_base64 rt false s) =? 32)%nat
     then Ok (buffer_from_base64 rt false s)
     else Err InvalidKeyLength).
Proof.
  intros Hhex Hpre Hpost Hne. unfold Keys.parseKey. rewrite Hhex. split; [done|].
  pose proof Hhex as Hhex'. unfold Keys.isHexSha256 in Hhex'.
  apply andb_prop in Hhex' as [Hlen Hall]. apply Nat.eqb_eq in Hlen.
  assert (Keys.isHexSha256 (pre ++ s ++ post) = false) as ->.
  { unfold Keys.isHexSha256. rewrite !length_app, Hlen.
    assert (length pre + (64 + length post) <> 64)%nat as Hl.
    { destruct pre, post; simpl in *; try lia. done. }
    by destruct (Nat.eqb_spec (length pre + (64 + length post)) 64). }
  rewrite forallb_forall in Hall.
  assert (Forall (fun c => is_space c = false) s) as Hns.
  { apply Forall_forall. intros c Hc. apply list_elem_of_In in Hc.
    specialize (Hall c Hc). apply bool_decide_eq_true in Hall.
    by apply hex_digit_plain. }
  assert (test_any Crypto.is_dash_or_underscore s = false) as Hdash.
  { unfold test_any. apply not_true_is_false. intros (c & Hc & Hd)%existsb_exists.
    specialize (Hall c Hc). apply bool_decide_eq_true in Hall.
    apply hex_digit_plain in Hall as [_ Hd']. congruence. }
  unfold Crypto.decodeBase64Like.
  rewrite (trim_blank_around pre s post Hpre Hpost), (trim_no_space s Hns), Hdash.
  simpl. unfold byteLength. by destruct (length _ =? 32)%nat.
Qed.

End Trimming.

Section TrimmingWitnesses.

(** A field with a space and a tab before it and a line end after it. *)
Lemma decodeBase64Like_ignores_space_around_witness :
  Crypto.decodeBase64Like Fixture.runtime ([32; 9] ++ lit "QUJD-w" ++ [10])
  = Crypto.decodeBase64Like Fixture.runtime (lit "QUJD-w") /\
  Crypto.decodeBase64Like Fixture.runtime ([32; 9] ++ lit "QUJD-w" ++ [10])
  = buffer_from_base64 Fixture.runtime
      (test_any Crypto.is_dash_or_underscore (trim (lit "QUJD-w"))
       && negb (test_any Crypto.is_plus_or_slash (trim (lit "QUJD-w"))))
      (trim (lit "QUJD-w")).
Proof.
  apply (decodeBase64Like_ignores_space_around Fixture.runtime
           [32; 9] (lit "QUJD-w") [10]);
    repeat constructor.
Defined.

(** The fixture's hex key, and the same followed by a line end. *)
Lemma padded_hex_key_is_read_as_base64_witness :
  Keys.parseKey Fixture.runtime (JStr Fixture.hex_key)
  = Ok (buffer_from_hex Fixture.hex_key) /\
  Keys.parseKey Fixture.runtime (JStr ([] ++ Fixture.hex_key ++ [10]))
  = (if (length (buffer_from_base64 Fixture.runtime false Fixture.hex_key) =? 32)%nat
     then Ok (buffer_from_base64 Fixture.runtime false Fixture.hex_key)
     else Err InvalidKeyLength).
Proof.
  apply (padded_hex_key_is_read_as_base64 Fixture.runtime [] Fixture.hex_key [10]).
  - vm_compute. reflexivity.
  - constructor.
  - repeat constructor.
  - discriminate.
Defined.

End TrimmingWitnesses.

(** ** More of the telemetry branch: a message sent twice *)

Module SeqFacts.

Lemma digits_small z : 0 < z < 2 ^ 53 -> Num.digits z <= 53.
Proof.
  intros [Hz Hlt]. unfold Num.digits.
  pose proof (proj1 (Z.log2_lt_pow2 z 53 Hz) Hlt). lia.
Qed.

(** The datum of a count below 2^53. *)
Lemma of_nat_datum n :
  0 < Z.of_nat n < 2 ^ 53 ->
  Prim2SF (Num.of_nat n)
  = S754_finite false
      (Z.to_pos (Z.of_nat n * 2 ^ (53 - Num.digits (Z.of_nat n))))
      (Num.digits (Z.of_nat n) - 53).
Proof.
  intros Hn. rewrite FloatFacts.of_nat_spec by lia.
  apply FloatFacts.SFint_small; [lia|by apply digits_small].
Qed.

(** A count below 2^53 - 1 and the next one are different numbers. *)
Lemma of_nat_succ_differs n :
  Z.of_nat n + 1 < 2 ^ 53 ->
  SFcompare (Prim2SF (Num.of_nat n)) (Prim2SF (Num.of_nat (S n))) = Some Lt.
Proof.
  intros Hn.
  rewrite (of_nat_datum (S n)) by lia.
  destruct n as [|n'].
  { reflexivity. }
  set (n := S n') in *.
  rewrite (of_nat_datum n) by lia. simpl.
  pose proof (FloatFacts.Dg_le_mono (Z.of_nat n) (Z.of_nat (S n)) ltac:(lia) ltac:(lia)) as Hd.
  pose proof (digits_small (Z.of_nat (S n)) ltac:(lia)) as Hd53.
  destruct (Z.compare_spec (Num.digits (Z.of_nat n) - 53) (Num.digits (Z.of_nat (S n)) - 53))
    as [He|He|He]; [|done|lia].
  assert (Num.digits (Z.of_nat n) = Num.digits (Z.of_nat (S n))) as <- by lia.
  change (Pos.compare_cont Eq ?a ?b) with (Pos.compare a b).
  f_equal.
  assert (0 < 2 ^ (53 - Num.digits (Z.of_nat n))) by (apply Z.pow_pos_nonneg; lia).
  match goal with |- (?a ?= ?b)%positive = Lt => change (Z.pos a < Z.pos b) end.
  rewrite !Z2Pos.id by nia. nia.
Qed.

(** Numbers that compare equal compare alike with a third. *)
Lemma SFcompare_eq_l a b c :
  SFcompare a b = Some Eq -> SFcompare a c = SFcompare b c.
Proof.
  destruct a as [sa|sa| |sa ma ea], b as [sb|sb| |sb mb eb]; simpl; try discriminate.
  all: try (destruct sb; discriminate).
  all: try (destruct sa; discriminate).
  - done.
  - destruct sa, sb; try discriminate; done.
  - destruct sa, sb; try discriminate;
      destruct (Z.compare_spec ea eb) as [->|?|?]; try discriminate;
      change (Pos.compare_cont Eq ma mb) with (Pos.compare ma mb);
      destruct (Pos.compare_spec ma mb) as [->|?|?]; try discriminate; done.
Qed.

Lemma seq_after_differs s n :
  Z.of_nat n + 1 < 2 ^ 53 ->
  (s =? Num.of_nat n)%float = true ->
  Num.neq s (Num.of_nat (S n)) = true.
Proof.
  intros Hn. unfold Num.neq. rewrite !FloatAxioms.eqb_spec. unfold SFeqb.
  destruct (SFcompare (Prim2SF s) (Prim2SF (Num.of_nat n))) as [[]|] eqn:E; try done.
  intros _. by rewrite (SFcompare_eq_l _ _ _ E), of_nat_succ_differs.
Qed.

End SeqFacts.

Section Replay.

Import Sessions Live.

Context (rt : Runtime) (cfg : Config).

(** X25: a telemetry message cannot be used twice: once a message with
    the expected [seq] has got as far as the sequence check (whether it was
    then accepted or killed at a later step), the same message sent again,
    at any time, is answered by the kill and a close with "Sequence
    mismatch" and changes nothing.  The sequence number is a count below
    2^53 - 1, where the addition of JS numbers is exact. *)
Theorem replayed_telemetry_is_killed keyring p m now now' w session tm n :
  sessions w !! peer_id p = Some session ->
  reaches_sequence_check cfg session m tm ->
  expectedSeq (telemetry session) = Num.of_nat n ->
  Z.of_nat n + 1 < 2 ^ 53 ->
  (seq tm =? expectedSeq (telemetry session))%float = true ->
  message rt cfg keyring p m now' (fst (message rt cfg keyring p m now w))
  = (fst (message rt cfg keyring p m now w),
     [Send (peer_id p) (JObj [(lit "cmd", JStr (lit "kill"))]);
      Close (peer_id p) 1008 (lit "Sequence mismatch")]).
Proof.
  intros Hs (Hst & Hsz & data & Hj & Hp & Htm) He Hn Hseq.
  rewrite (message_authorized rt cfg keyring p m now w session data Hs Hst Hsz Hj Hp).
  simpl fst.
  set (t1 := fst (handle_telemetry cfg now (telemetry session) data)).
  set (w1 := {| sessions := <[peer_id p := with_telemetry t1 session]> (sessions w);
                contexts := contexts w |}).
  assert (sessions w1 !! peer_id p = Some (with_telemetry t1 session)) as Hs1
    by (simpl; by rewrite lookup_insert_eq).
  rewrite (message_authorized rt cfg keyring p m now' w1 _ data Hs1 Hst Hsz Hj Hp).
  assert (expectedSeq t1 = Num.of_nat (S n)) as He1.
  { unfold t1, handle_telemetry. rewrite Htm.
    pose proof (validate_telemetry_sequence cfg now (telemetry session) tm) as Hv.
    rewrite Hseq in Hv. rewrite Hv, He. by apply FloatFacts.of_nat_succ_exact. }
  assert (handle_telemetry cfg now' (telemetry (with_telemetry t1 session)) data
          = (t1, Some "Sequence mismatch"%string)) as ->.
  { unfold handle_telemetry. rewrite Htm. simpl. unfold validate_telemetry.
    rewrite He1, SeqFacts.seq_after_differs; [done|done|]. by rewrite <- He. }
  simpl. f_equal. unfold w1. f_equal. simpl.
  rewrite insert_insert_eq. done.
Qed.

End Replay.

Section ReplayWitnesses.

Import Sessions Live.

(** The first report of the fixture's peer, sent again a millisecond
    later. *)
Lemma replayed_telemetry_is_killed_witness :
  message Fixture.runtime Fixture.cfg Fixture.keyring Fixture.peer1
    Inputs.report1_msg 2001
    (fst (message Fixture.runtime Fixture.cfg Fixture.keyring Fixture.peer1
            Inputs.report1_msg 2000 Fixture.world_authorized))
  = (fst (message Fixture.runtime Fixture.cfg Fixture.keyring Fixture.peer1
            Inputs.report1_msg 2000 Fixture.world_authorized),
     [Send (peer_id Fixture.peer1) (JObj [(lit "cmd", JStr (lit "kill"))]);
      Close (peer_id Fixture.peer1) 1008 (lit "Sequence mismatch")]).
Proof.
  apply (replayed_telemetry_is_killed Fixture.runtime Fixture.cfg Fixture.keyring
           Fixture.peer1 Inputs.report1_msg 2000 2001 Fixture.world_authorized
           Fixture.session_authorized Inputs.report1 1).
  - vm_compute. reflexivity.
  - split; [reflexivity|]. split; [vm_compute; reflexivity|].
    eexists. split; [reflexivity|]. split; vm_compute; reflexivity.
  - vm_compute. reflexivity.
  - vm_compute. reflexivity.
  - vm_compute. reflexivity.
Defined.

End ReplayWitnesses.
